(** * chain/x/peggy/types/types.pb.go: the wire codec of BridgeValidator,
      Valset and GenericClaim

    A shallow embedding of the gogoproto-generated marshalling code of
    [types.pb.go] and the properties of it that the specification states.

    Conventions of the embedding.
    - Go's [int] is taken to be 64 bits wide.  Every machine integer is a [Z];
      conversions ([uint64(x)], [int(x)], [int32(x)]) and the arithmetic that
      can leave the range are written with an explicit wrap.
    - A [[]byte] is a [list byte]; positions are [Z] and an access out of
      range is the run-time panic of Go ([Panic]).
    - A Go slice may be [nil]: [slice A] is [option (list A)], [None] being
      [nil].  A pointer may be [nil]: [ptr A] is [option A].
    - [Unmarshal] works on its receiver in place and leaves what it had
      assigned there when it returns an error: the model returns the receiver
      together with the outcome.
    - Loops whose number of rounds is not structural take a fuel argument;
      the entry points pass enough of it (see [unmarshal_total]). *)

From Stdlib Require Import ZArith List Lia Bool String Btauto.
From coqutil Require Import Byte Z.bitblast.
Import ListNotations.

(* Bytes are the 256 constructors of the standard library. *)
Local Abbreviation byte := Init.Byte.byte (only parsing).

Local Open Scope Z_scope.
Local Open Scope list_scope.

Set Implicit Arguments.

(** ** Machine integers *)

Module Int.

(** [uint64(x)]: the low 64 bits. *)
Definition uint64 (x : Z) : Z := x mod 2 ^ 64.

(** Reinterpretation of the low [n] bits as a two's-complement number. *)
Definition signed (n : Z) (x : Z) : Z :=
  let u := x mod 2 ^ n in
  if u <? 2 ^ (n - 1) then u else u - 2 ^ n.

(** [int(x)] and [int64(x)]. *)
Definition int64 (x : Z) : Z := signed 64 x.

(** [int32(x)]. *)
Definition int32 (x : Z) : Z := signed 32 x.

(** [len(s)] as a Go [int]. *)
Definition len {A : Type} (s : list A) : Z := Z.of_nat (List.length s).

End Int.

Import Int.

(** ** Errors and outcomes *)

(** The error values of the file.  The three [fmt.Errorf] messages built on
    the spot keep their arguments. *)
Inductive error : Type :=
| ErrInvalidLengthTypes          (* "proto: negative length found during unmarshaling" *)
| ErrIntOverflowTypes            (* "proto: integer overflow" *)
| ErrUnexpectedEndOfGroupTypes   (* "proto: unexpected end of group" *)
| ErrUnexpectedEOF               (* io.ErrUnexpectedEOF *)
| ErrEndGroupForNonGroup (msg : string)
    (* "proto: <msg>: wiretype end group for non-group" *)
| ErrIllegalTag (msg : string) (fieldNum wire : Z)
    (* "proto: <msg>: illegal tag %d (wire type %d)" *)
| ErrWrongWireType (wireType : Z) (field : string)
    (* "proto: wrong wireType = %d for field <field>" *)
| ErrIllegalWireType (wireType : Z).
    (* "proto: illegal wireType %d" *)

(** What a call does: it returns a value ([Ok]), returns a non-nil [error]
    ([Fail]), panics, or, in the model only, runs out of fuel. *)
Inductive outcome (A : Type) : Type :=
| Ok (a : A)
| Fail (e : error)
| Panic
| OutOfFuel.

Arguments Ok {A} a.
Arguments Fail {A} e.
Arguments Panic {A}.
Arguments OutOfFuel {A}.

Definition bind {A B : Type} (x : outcome A) (f : A -> outcome B) : outcome B :=
  match x with
  | Ok a => f a
  | Fail e => Fail e
  | Panic => Panic
  | OutOfFuel => OutOfFuel
  end.

Notation "x <- e ;; k" := (bind e (fun x => k))
  (at level 61, e at next level, right associativity).
Notation "' p <- e ;; k" := (bind e (fun p => k))
  (at level 61, p pattern, e at next level, right associativity).

(** A Go operation that panics when its bounds check fails. *)
Definition orPanic {A : Type} (x : option A) : outcome A :=
  match x with Some a => Ok a | None => Panic end.

(** ** Byte buffers *)

Module Buf.

Definition take {A : Type} (n : Z) (s : list A) : list A := firstn (Z.to_nat n) s.
Definition drop {A : Type} (n : Z) (s : list A) : list A := skipn (Z.to_nat n) s.

(** [dAtA[i]], read. *)
Definition index (dAtA : list byte) (i : Z) : option byte :=
  if (0 <=? i) && (i <? len dAtA) then nth_error dAtA (Z.to_nat i) else None.

(** [dAtA[i] = b]. *)
Definition store (dAtA : list byte) (i : Z) (b : byte) : option (list byte) :=
  if (0 <=? i) && (i <? len dAtA)
  then Some (take i dAtA ++ b :: drop (i + 1) dAtA)
  else None.

(** [dAtA[lo:hi]] (the capacity of every buffer here is its length). *)
Definition slice (dAtA : list byte) (lo hi : Z) : option (list byte) :=
  if (0 <=? lo) && (lo <=? hi) && (hi <=? len dAtA)
  then Some (take (hi - lo) (drop lo dAtA))
  else None.

(** [copy(dAtA[i:], src)]: copies [min(len(dAtA[i:]), len(src))] bytes. *)
Definition copyAt (dAtA : list byte) (i : Z) (src : list byte) : option (list byte) :=
  if (0 <=? i) && (i <=? len dAtA)
  then let n := Z.min (len dAtA - i) (len src) in
       Some (take i dAtA ++ take n src ++ drop (i + n) dAtA)
  else None.

(** [make([]byte, n)]. *)
Definition make (n : Z) : option (list byte) :=
  if 0 <=? n then Some (repeat Byte.x00 (Z.to_nat n)) else None.

End Buf.

(** ** Slices and pointers that may be nil *)

Abbreviation slice A := (option (list A)).
Abbreviation ptr A := (option A).

(** The elements of a slice; [nil] has none. *)
Definition elems {A : Type} (s : slice A) : list A :=
  match s with Some l => l | None => [] end.

(** [append(s, x)]: never nil. *)
Definition append1 {A : Type} (s : slice A) (x : A) : slice A := Some (elems s ++ [x]).

(** [append(s[:0], src...)]: [s[:0]] is nil exactly when [s] is, and
    appending nothing to nil gives nil. *)
Definition appendReset {A : Type} (s : slice A) (src : list A) : slice A :=
  match s, src with
  | None, [] => None
  | _, _ => Some src
  end.

(** ** The records *)

Record BridgeValidator : Type := mkBridgeValidator {
  Power : Z;                        (* uint64 *)
  EthereumAddress : string
}.

Record Valset : Type := mkValset {
  Nonce : Z;                        (* uint64 *)
  Members : slice (ptr BridgeValidator);
  Height : Z                        (* uint64 *)
}.

Record GenericClaim : Type := mkGenericClaim {
  EventNonce : Z;                   (* uint64 *)
  ClaimType : Z;                    (* int32 *)
  Hash : slice byte;
  EventClaimer : string
}.

(** The zero values [BridgeValidator{}], [Valset{}], [GenericClaim{}]. *)
Definition BridgeValidator_zero : BridgeValidator := mkBridgeValidator 0 "".
Definition Valset_zero : Valset := mkValset 0 None 0.
Definition GenericClaim_zero : GenericClaim := mkGenericClaim 0 0 None "".

(** The bytes of a Go string and [string(bs)]. *)
Definition bytesOf (s : string) : list byte := list_byte_of_string s.
Definition stringOf (bs : list byte) : string := string_of_list_byte bs.

(** ** Varints: [sovTypes] and [encodeVarintTypes] *)

(** [math/bits.Len64]: the number of bits needed to represent [x], 0 for 0
    (standard library, outside this repository). *)
Definition Len64 (x : Z) : Z := if x =? 0 then 0 else Z.log2 x + 1.

Definition sovTypes (x : Z) : Z := (Len64 (Z.lor x 1) + 6) / 7.

(** [uint8(x)]. *)
Definition uint8 (x : Z) : byte := byte.of_Z x.

(** The [for v >= 1<<7] loop of [encodeVarintTypes] and the store after it. *)
Fixpoint encodeVarint_loop (fuel : nat) (dAtA : list byte) (offset v : Z)
  : outcome (list byte) :=
  match fuel with
  | O => OutOfFuel
  | S fuel =>
    if v >=? 128 then
      dAtA <- orPanic (Buf.store dAtA offset (uint8 (Z.lor (Z.land v 127) 128))) ;;
      encodeVarint_loop fuel dAtA (offset + 1) (Z.shiftr v 7)
    else
      orPanic (Buf.store dAtA offset (uint8 v))
  end.

(** [encodeVarintTypes(dAtA, offset, v)]: the buffer after the call and the
    returned [base].  A [uint64] is at least [1<<7] at most nine times in a
    row under [v >>= 7]. *)
Definition encodeVarintTypes (dAtA : list byte) (offset v : Z) : outcome (list byte * Z) :=
  let offset := offset - sovTypes v in
  let base := offset in
  dAtA <- encodeVarint_loop 10 dAtA offset v ;;
  Ok (dAtA, base).

(** ** Reading a varint *)

(** The loop [for shift := uint(0); ; shift += 7] that every field read
    starts with.  [conv] is the conversion applied to the shifted group:
    [uint64(b&0x7F) << shift], [int(b&0x7F) << shift] or
    [int32(b&0x7F) << shift].  The accumulator is returned on every exit, for
    the loops that accumulate into a field of the receiver. *)
Fixpoint decodeVarint_loop (conv : Z -> Z) (fuel : nat) (dAtA : list byte)
  (l iNdEx shift acc : Z) : Z * outcome Z :=
  match fuel with
  | O => (acc, OutOfFuel)
  | S fuel =>
    if shift >=? 64 then (acc, Fail ErrIntOverflowTypes) else
    if iNdEx >=? l then (acc, Fail ErrUnexpectedEOF) else
    match Buf.index dAtA iNdEx with
    | None => (acc, Panic)
    | Some b =>
      let iNdEx := iNdEx + 1 in
      let acc := Z.lor acc (conv (Z.shiftl (Z.land (byte.unsigned b) 127) shift)) in
      if byte.unsigned b <? 128 then (acc, Ok iNdEx)
      else decodeVarint_loop conv fuel dAtA l iNdEx (shift + 7) acc
    end
  end.

(** Eleven rounds: the eleventh has [shift = 70]. *)
Definition decodeVarint (conv : Z -> Z) (dAtA : list byte) (l iNdEx : Z) : Z * outcome Z :=
  decodeVarint_loop conv 11 dAtA l iNdEx 0 0.

(** The checks between a decoded length and the payload it announces; returns
    the payload [dAtA[iNdEx:postIndex]] and [postIndex]. *)
Definition lengthDelimited (dAtA : list byte) (l iNdEx length : Z)
  : outcome (list byte * Z) :=
  if length <? 0 then Fail ErrInvalidLengthTypes else
  let postIndex := int64 (iNdEx + length) in
  if postIndex <? 0 then Fail ErrInvalidLengthTypes else
  if postIndex >? l then Fail ErrUnexpectedEOF else
  s <- orPanic (Buf.slice dAtA iNdEx postIndex) ;;
  Ok (s, postIndex).

(** ** [skipTypes] *)

(** Wire type 0 of [skipTypes]: the varint is walked over, not accumulated. *)
Fixpoint skipVarint_loop (fuel : nat) (dAtA : list byte) (l iNdEx shift : Z) : outcome Z :=
  match fuel with
  | O => OutOfFuel
  | S fuel =>
    if shift >=? 64 then Fail ErrIntOverflowTypes else
    if iNdEx >=? l then Fail ErrUnexpectedEOF else
    let iNdEx := iNdEx + 1 in
    match Buf.index dAtA (iNdEx - 1) with
    | None => Panic
    | Some b =>
      if byte.unsigned b <? 128 then Ok iNdEx
      else skipVarint_loop fuel dAtA l iNdEx (shift + 7)
    end
  end.

(** The loop [for iNdEx < l] of [skipTypes]: the tag, the [switch wireType],
    the two tests after it.  Falling out of the loop is
    [return 0, io.ErrUnexpectedEOF]. *)
Fixpoint skipTypes_loop (fuel : nat) (dAtA : list byte) (l iNdEx depth : Z) : outcome Z :=
  if iNdEx <? l then
    match fuel with
    | O => OutOfFuel
    | S fuel =>
      match decodeVarint uint64 dAtA l iNdEx with
      | (wire, Ok iNdEx) =>
        let wireType := Z.land wire 7 in
        '(iNdEx, depth) <-
          (if wireType =? 0 then
             iNdEx <- skipVarint_loop 11 dAtA l iNdEx 0 ;; Ok (iNdEx, depth)
           else if wireType =? 1 then
             Ok (int64 (iNdEx + 8), depth)
           else if wireType =? 2 then
             match decodeVarint int64 dAtA l iNdEx with
             | (length, Ok iNdEx) =>
               if length <? 0 then Fail ErrInvalidLengthTypes
               else Ok (int64 (iNdEx + length), depth)
             | (_, Fail e) => Fail e
             | (_, Panic) => Panic
             | (_, OutOfFuel) => OutOfFuel
             end
           else if wireType =? 3 then
             Ok (iNdEx, int64 (depth + 1))
           else if wireType =? 4 then
             if depth =? 0 then Fail ErrUnexpectedEndOfGroupTypes
             else Ok (iNdEx, int64 (depth - 1))
           else if wireType =? 5 then
             Ok (int64 (iNdEx + 4), depth)
           else Fail (ErrIllegalWireType wireType)) ;;
        if iNdEx <? 0 then Fail ErrInvalidLengthTypes
        else if depth =? 0 then Ok iNdEx
        else skipTypes_loop fuel dAtA l iNdEx depth
      | (_, Fail e) => Fail e
      | (_, Panic) => Panic
      | (_, OutOfFuel) => OutOfFuel
      end
    end
  else Fail ErrUnexpectedEOF.

(** [skipTypes(dAtA)].  Each round of the loop reads at least one byte, so
    [len(dAtA)] rounds are enough. *)
Definition skipTypes (dAtA : list byte) : outcome Z :=
  skipTypes_loop (List.length dAtA) dAtA (len dAtA) 0 0.

(** ** [Size] *)

(** Addition of Go [int]s. *)
Definition addInt (a b : Z) : Z := int64 (a + b).

Definition BridgeValidator_Size (m : BridgeValidator) : Z :=
  let n := 0 in
  let n := if negb (Power m =? 0)
           then addInt n (addInt 1 (sovTypes (uint64 (Power m)))) else n in
  let l := len (bytesOf (EthereumAddress m)) in
  let n := if l >? 0 then addInt n (addInt (addInt 1 l) (sovTypes (uint64 l))) else n in
  n.

(** [e.Size()] on a pointer: the [m == nil] test of the method. *)
Definition BridgeValidator_Size_ptr (e : ptr BridgeValidator) : Z :=
  match e with
  | None => 0
  | Some m => BridgeValidator_Size m
  end.

Definition Valset_Size (m : Valset) : Z :=
  let n := 0 in
  let n := if negb (Nonce m =? 0)
           then addInt n (addInt 1 (sovTypes (uint64 (Nonce m)))) else n in
  let n := if len (elems (Members m)) >? 0
           then fold_left
                  (fun n e =>
                     let l := BridgeValidator_Size_ptr e in
                     addInt n (addInt (addInt 1 l) (sovTypes (uint64 l))))
                  (elems (Members m)) n
           else n in
  let n := if negb (Height m =? 0)
           then addInt n (addInt 1 (sovTypes (uint64 (Height m)))) else n in
  n.

Definition GenericClaim_Size (m : GenericClaim) : Z :=
  let n := 0 in
  let n := if negb (EventNonce m =? 0)
           then addInt n (addInt 1 (sovTypes (uint64 (EventNonce m)))) else n in
  let n := if negb (ClaimType m =? 0)
           then addInt n (addInt 1 (sovTypes (uint64 (ClaimType m)))) else n in
  let l := len (elems (Hash m)) in
  let n := if l >? 0 then addInt n (addInt (addInt 1 l) (sovTypes (uint64 l))) else n in
  let l := len (bytesOf (EventClaimer m)) in
  let n := if l >? 0 then addInt n (addInt (addInt 1 l) (sovTypes (uint64 l))) else n in
  n.

(** ** [MarshalToSizedBuffer] and [Marshal]

    The writer fills the buffer from its end: the state is the buffer and
    the position [i] of the first byte written so far. *)

Abbreviation writer := (list byte * Z)%type.

(** [i = encodeVarintTypes(dAtA, i, v); i--; dAtA[i] = tag]. *)
Definition putVarintField (tag : byte) (v : Z) (w : writer) : outcome writer :=
  let '(dAtA, i) := w in
  '(dAtA, i) <- encodeVarintTypes dAtA i v ;;
  let i := i - 1 in
  dAtA <- orPanic (Buf.store dAtA i tag) ;;
  Ok (dAtA, i).

(** [i -= len(s); copy(dAtA[i:], s);
     i = encodeVarintTypes(dAtA, i, uint64(len(s))); i--; dAtA[i] = tag]. *)
Definition putBytesField (tag : byte) (s : list byte) (w : writer) : outcome writer :=
  let '(dAtA, i) := w in
  let i := i - len s in
  dAtA <- orPanic (Buf.copyAt dAtA i s) ;;
  putVarintField tag (uint64 (len s)) (dAtA, i).

Definition BridgeValidator_MarshalToSizedBuffer (m : BridgeValidator) (dAtA : list byte)
  : outcome (list byte * Z) :=
  let i := len dAtA in
  w <- (if len (bytesOf (EthereumAddress m)) >? 0
        then putBytesField Byte.x12 (bytesOf (EthereumAddress m)) (dAtA, i)
        else Ok (dAtA, i)) ;;
  w <- (if negb (Power m =? 0)
        then putVarintField Byte.x08 (uint64 (Power m)) w
        else Ok w) ;;
  Ok (fst w, len dAtA - snd w).

(** The body of [for iNdEx := len(m.Members) - 1; iNdEx >= 0; iNdEx--], over
    the members in the order the loop visits them (last first).  The callee
    writes into [dAtA[:i]], which shares its memory with [dAtA]: what it
    wrote is put back in front of the rest.  A nil member is dereferenced. *)
Fixpoint putMembers (ms : list (ptr BridgeValidator)) (w : writer) : outcome writer :=
  match ms with
  | [] => Ok w
  | e :: ms =>
    let '(dAtA, i) := w in
    m <- orPanic e ;;
    sub <- orPanic (Buf.slice dAtA 0 i) ;;
    '(sub, size) <- BridgeValidator_MarshalToSizedBuffer m sub ;;
    let dAtA := sub ++ Buf.drop i dAtA in
    let i := i - size in
    '(dAtA, i) <- encodeVarintTypes dAtA i (uint64 size) ;;
    let i := i - 1 in
    dAtA <- orPanic (Buf.store dAtA i Byte.x12) ;;
    putMembers ms (dAtA, i)
  end.

Definition Valset_MarshalToSizedBuffer (m : Valset) (dAtA : list byte)
  : outcome (list byte * Z) :=
  let i := len dAtA in
  w <- (if negb (Height m =? 0)
        then putVarintField Byte.x18 (uint64 (Height m)) (dAtA, i)
        else Ok (dAtA, i)) ;;
  w <- (if len (elems (Members m)) >? 0
        then putMembers (rev (elems (Members m))) w
        else Ok w) ;;
  w <- (if negb (Nonce m =? 0)
        then putVarintField Byte.x08 (uint64 (Nonce m)) w
        else Ok w) ;;
  Ok (fst w, len dAtA - snd w).

Definition GenericClaim_MarshalToSizedBuffer (m : GenericClaim) (dAtA : list byte)
  : outcome (list byte * Z) :=
  let i := len dAtA in
  w <- (if len (bytesOf (EventClaimer m)) >? 0
        then putBytesField Byte.x22 (bytesOf (EventClaimer m)) (dAtA, i)
        else Ok (dAtA, i)) ;;
  w <- (if len (elems (Hash m)) >? 0
        then putBytesField Byte.x1a (elems (Hash m)) w
        else Ok w) ;;
  w <- (if negb (ClaimType m =? 0)
        then putVarintField Byte.x10 (uint64 (ClaimType m)) w
        else Ok w) ;;
  w <- (if negb (EventNonce m =? 0)
        then putVarintField Byte.x08 (uint64 (EventNonce m)) w
        else Ok w) ;;
  Ok (fst w, len dAtA - snd w).

(** [Marshal]: [size := m.Size(); dAtA = make([]byte, size);
    n, err := m.MarshalToSizedBuffer(dAtA[:size]); return dAtA[:n], nil]. *)
Definition marshalWith {M : Type} (Size : M -> Z)
  (MarshalToSizedBuffer : M -> list byte -> outcome (list byte * Z)) (m : M)
  : outcome (list byte) :=
  let size := Size m in
  dAtA <- orPanic (Buf.make size) ;;
  sub <- orPanic (Buf.slice dAtA 0 size) ;;
  '(dAtA, n) <- MarshalToSizedBuffer m sub ;;
  orPanic (Buf.slice dAtA 0 n).

Definition BridgeValidator_Marshal : BridgeValidator -> outcome (list byte) :=
  marshalWith BridgeValidator_Size BridgeValidator_MarshalToSizedBuffer.
Definition Valset_Marshal : Valset -> outcome (list byte) :=
  marshalWith Valset_Size Valset_MarshalToSizedBuffer.
Definition GenericClaim_Marshal : GenericClaim -> outcome (list byte) :=
  marshalWith GenericClaim_Size GenericClaim_MarshalToSizedBuffer.

(** ** [Unmarshal] *)

(** The [default:] branch of the three [switch fieldNum]. *)
Definition skipUnknown (dAtA : list byte) (l preIndex : Z) : outcome Z :=
  let iNdEx := preIndex in
  sub <- orPanic (Buf.slice dAtA iNdEx (len dAtA)) ;;
  skippy <- skipTypes sub ;;
  if skippy <? 0 then Fail ErrInvalidLengthTypes else
  if int64 (iNdEx + skippy) <? 0 then Fail ErrInvalidLengthTypes else
  if int64 (iNdEx + skippy) >? l then Fail ErrUnexpectedEOF else
  Ok (int64 (iNdEx + skippy)).

(** The three [Unmarshal] methods are one loop around three different
    [switch fieldNum]: the loop is written once, over the switch. *)
Section UnmarshalLoop.

Variable M : Type.
(** The name of the message in the error texts. *)
Variable msg : string.
(** [switch fieldNum { ... }]: receiver, buffer, [l], [preIndex],
    [fieldNum], [wireType], [iNdEx]; gives the receiver and the position
    after the field, or why there is none. *)
Variable fields : M -> list byte -> Z -> Z -> Z -> Z -> Z -> M * outcome Z.

Fixpoint unmarshal_loop (fuel : nat) (dAtA : list byte) (l : Z) (m : M) (iNdEx : Z)
  : M * outcome Z :=
  if iNdEx <? l then
    match fuel with
    | O => (m, OutOfFuel)
    | S fuel =>
      let preIndex := iNdEx in
      match decodeVarint uint64 dAtA l iNdEx with
      | (wire, Ok iNdEx) =>
        let fieldNum := int32 (Z.shiftr wire 3) in
        let wireType := int64 (Z.land wire 7) in
        if wireType =? 4 then (m, Fail (ErrEndGroupForNonGroup msg)) else
        if fieldNum <=? 0 then (m, Fail (ErrIllegalTag msg fieldNum wire)) else
        match fields m dAtA l preIndex fieldNum wireType iNdEx with
        | (m, Ok iNdEx) => unmarshal_loop fuel dAtA l m iNdEx
        | (m, Fail e) => (m, Fail e)
        | (m, Panic) => (m, Panic)
        | (m, OutOfFuel) => (m, OutOfFuel)
        end
      | (_, Fail e) => (m, Fail e)
      | (_, Panic) => (m, Panic)
      | (_, OutOfFuel) => (m, OutOfFuel)
      end
    end
  else (m, Ok iNdEx).

(** Every round of the loop moves [iNdEx] forward, so [len(dAtA)] rounds
    are enough. *)
Definition unmarshal (m : M) (dAtA : list byte) : M * outcome unit :=
  let l := len dAtA in
  match unmarshal_loop (List.length dAtA) dAtA l m 0 with
  | (m, Ok iNdEx) => if iNdEx >? l then (m, Fail ErrUnexpectedEOF) else (m, Ok tt)
  | (m, Fail e) => (m, Fail e)
  | (m, Panic) => (m, Panic)
  | (m, OutOfFuel) => (m, OutOfFuel)
  end.

End UnmarshalLoop.

(** A varint field read into the receiver: the field is set to what the loop
    had accumulated, on every exit. *)
Definition scalarField {M : Type} (conv : Z -> Z) (set : M -> Z -> M)
  (m : M) (dAtA : list byte) (l iNdEx : Z) : M * outcome Z :=
  let '(v, r) := decodeVarint conv dAtA l iNdEx in (set m v, r).

(** A string field: [var stringLen uint64], the loop,
    [intStringLen := int(stringLen)], the checks, the assignment. *)
Definition stringField {M : Type} (set : M -> string -> M)
  (m : M) (dAtA : list byte) (l iNdEx : Z) : M * outcome Z :=
  match decodeVarint uint64 dAtA l iNdEx with
  | (stringLen, Ok iNdEx) =>
    let intStringLen := int64 stringLen in
    match lengthDelimited dAtA l iNdEx intStringLen with
    | Ok (s, postIndex) => (set m (stringOf s), Ok postIndex)
    | Fail e => (m, Fail e)
    | Panic => (m, Panic)
    | OutOfFuel => (m, OutOfFuel)
    end
  | (_, Fail e) => (m, Fail e)
  | (_, Panic) => (m, Panic)
  | (_, OutOfFuel) => (m, OutOfFuel)
  end.

Definition BridgeValidator_fields (m : BridgeValidator) (dAtA : list byte)
  (l preIndex fieldNum wireType iNdEx : Z) : BridgeValidator * outcome Z :=
  match fieldNum with
  | 1 =>
    if negb (wireType =? 0) then (m, Fail (ErrWrongWireType wireType "Power")) else
    scalarField uint64 (fun m v => mkBridgeValidator v (EthereumAddress m)) m dAtA l iNdEx
  | 2 =>
    if negb (wireType =? 2) then (m, Fail (ErrWrongWireType wireType "EthereumAddress")) else
    stringField (fun m s => mkBridgeValidator (Power m) s) m dAtA l iNdEx
  | _ =>
    match skipUnknown dAtA l preIndex with
    | Ok iNdEx => (m, Ok iNdEx)
    | Fail e => (m, Fail e)
    | Panic => (m, Panic)
    | OutOfFuel => (m, OutOfFuel)
    end
  end.

Definition BridgeValidator_Unmarshal : BridgeValidator -> list byte -> BridgeValidator * outcome unit :=
  unmarshal "BridgeValidator" BridgeValidator_fields.

Definition Valset_fields (m : Valset) (dAtA : list byte)
  (l preIndex fieldNum wireType iNdEx : Z) : Valset * outcome Z :=
  match fieldNum with
  | 1 =>
    if negb (wireType =? 0) then (m, Fail (ErrWrongWireType wireType "Nonce")) else
    scalarField uint64 (fun m v => mkValset v (Members m) (Height m)) m dAtA l iNdEx
  | 2 =>
    if negb (wireType =? 2) then (m, Fail (ErrWrongWireType wireType "Members")) else
    match decodeVarint int64 dAtA l iNdEx with
    | (msglen, Ok iNdEx) =>
      match lengthDelimited dAtA l iNdEx msglen with
      | Ok (s, postIndex) =>
        (* m.Members = append(m.Members, &BridgeValidator{}), then
           m.Members[len(m.Members)-1].Unmarshal(dAtA[iNdEx:postIndex]) *)
        let '(e, r) := BridgeValidator_Unmarshal BridgeValidator_zero s in
        let m := mkValset (Nonce m) (append1 (Members m) (Some e)) (Height m) in
        match r with
        | Ok _ => (m, Ok postIndex)
        | Fail err => (m, Fail err)
        | Panic => (m, Panic)
        | OutOfFuel => (m, OutOfFuel)
        end
      | Fail e => (m, Fail e)
      | Panic => (m, Panic)
      | OutOfFuel => (m, OutOfFuel)
      end
    | (_, Fail e) => (m, Fail e)
    | (_, Panic) => (m, Panic)
    | (_, OutOfFuel) => (m, OutOfFuel)
    end
  | 3 =>
    if negb (wireType =? 0) then (m, Fail (ErrWrongWireType wireType "Height")) else
    scalarField uint64 (fun m v => mkValset (Nonce m) (Members m) v) m dAtA l iNdEx
  | _ =>
    match skipUnknown dAtA l preIndex with
    | Ok iNdEx => (m, Ok iNdEx)
    | Fail e => (m, Fail e)
    | Panic => (m, Panic)
    | OutOfFuel => (m, OutOfFuel)
    end
  end.

Definition Valset_Unmarshal : Valset -> list byte -> Valset * outcome unit :=
  unmarshal "Valset" Valset_fields.

Definition GenericClaim_fields (m : GenericClaim) (dAtA : list byte)
  (l preIndex fieldNum wireType iNdEx : Z) : GenericClaim * outcome Z :=
  match fieldNum with
  | 1 =>
    if negb (wireType =? 0) then (m, Fail (ErrWrongWireType wireType "EventNonce")) else
    scalarField uint64
      (fun m v => mkGenericClaim v (ClaimType m) (Hash m) (EventClaimer m)) m dAtA l iNdEx
  | 2 =>
    if negb (wireType =? 0) then (m, Fail (ErrWrongWireType wireType "ClaimType")) else
    scalarField int32
      (fun m v => mkGenericClaim (EventNonce m) v (Hash m) (EventClaimer m)) m dAtA l iNdEx
  | 3 =>
    if negb (wireType =? 2) then (m, Fail (ErrWrongWireType wireType "Hash")) else
    match decodeVarint int64 dAtA l iNdEx with
    | (byteLen, Ok iNdEx) =>
      match lengthDelimited dAtA l iNdEx byteLen with
      | Ok (s, postIndex) =>
        (* m.Hash = append(m.Hash[:0], dAtA[iNdEx:postIndex]...)
           if m.Hash == nil { m.Hash = []byte{} } *)
        let h := appendReset (Hash m) s in
        let h := match h with None => Some [] | Some _ => h end in
        (mkGenericClaim (EventNonce m) (ClaimType m) h (EventClaimer m), Ok postIndex)
      | Fail e => (m, Fail e)
      | Panic => (m, Panic)
      | OutOfFuel => (m, OutOfFuel)
      end
    | (_, Fail e) => (m, Fail e)
    | (_, Panic) => (m, Panic)
    | (_, OutOfFuel) => (m, OutOfFuel)
    end
  | 4 =>
    if negb (wireType =? 2) then (m, Fail (ErrWrongWireType wireType "EventClaimer")) else
    stringField
      (fun m s => mkGenericClaim (EventNonce m) (ClaimType m) (Hash m) s) m dAtA l iNdEx
  | _ =>
    match skipUnknown dAtA l preIndex with
    | Ok iNdEx => (m, Ok iNdEx)
    | Fail e => (m, Fail e)
    | Panic => (m, Panic)
    | OutOfFuel => (m, OutOfFuel)
    end
  end.

Definition GenericClaim_Unmarshal : GenericClaim -> list byte -> GenericClaim * outcome unit :=
  unmarshal "GenericClaim" GenericClaim_fields.


(** ** The wire format as lists of bytes

    What the writer leaves in the buffer, read from the front: the reference
    the marshalling code is proved against ([*_Marshal_wire]) and the form in
    which the decoder's inputs are described. *)

(** The bytes of a varint, low group first. *)
Fixpoint varintBytes_fuel (fuel : nat) (v : Z) : list byte :=
  match fuel with
  | O => []
  | S fuel =>
    if v >=? 128
    then uint8 (Z.lor (Z.land v 127) 128) :: varintBytes_fuel fuel (Z.shiftr v 7)
    else [uint8 v]
  end.

Definition varintBytes (v : Z) : list byte := varintBytes_fuel 10 v.

(** A field on the wire: a one-byte tag, then a varint, or a length and that
    many bytes. *)
Inductive chunk : Type :=
| CVarint (tag : byte) (v : Z)
| CBytes (tag : byte) (payload : list byte).

Definition chunkTag (c : chunk) : byte :=
  match c with CVarint t _ => t | CBytes t _ => t end.

Definition chunkBody (c : chunk) : list byte :=
  match c with
  | CVarint _ v => varintBytes v
  | CBytes _ p => varintBytes (len p) ++ p
  end.

Definition encChunk (c : chunk) : list byte := chunkTag c :: chunkBody c.

Definition encChunks (cs : list chunk) : list byte := flat_map encChunk cs.

(** The field number and the wire type a one-byte tag carries. *)
Definition tagFieldNum (t : byte) : Z := int32 (Z.shiftr (byte.unsigned t) 3).
Definition tagWireType (t : byte) : Z := int64 (Z.land (byte.unsigned t) 7).

(** Zero-value suppression. *)
Definition varintChunk (tag : byte) (v : Z) : list chunk :=
  if v =? 0 then [] else [CVarint tag (uint64 v)].

Definition bytesChunk (tag : byte) (s : list byte) : list chunk :=
  if len s >? 0 then [CBytes tag s] else [].

Definition BridgeValidator_chunks (m : BridgeValidator) : list chunk :=
  varintChunk Byte.x08 (Power m) ++ bytesChunk Byte.x12 (bytesOf (EthereumAddress m)).

Definition BridgeValidator_wire (m : BridgeValidator) : list byte :=
  encChunks (BridgeValidator_chunks m).

Definition memberChunk (e : ptr BridgeValidator) : chunk :=
  CBytes Byte.x12 (match e with Some m => BridgeValidator_wire m | None => [] end).

Definition Valset_chunks (m : Valset) : list chunk :=
  varintChunk Byte.x08 (Nonce m)
  ++ map memberChunk (elems (Members m))
  ++ varintChunk Byte.x18 (Height m).

Definition Valset_wire (m : Valset) : list byte := encChunks (Valset_chunks m).

Definition GenericClaim_chunks (m : GenericClaim) : list chunk :=
  varintChunk Byte.x08 (EventNonce m)
  ++ varintChunk Byte.x10 (ClaimType m)
  ++ bytesChunk Byte.x1a (elems (Hash m))
  ++ bytesChunk Byte.x22 (bytesOf (EventClaimer m)).

Definition GenericClaim_wire (m : GenericClaim) : list byte :=
  encChunks (GenericClaim_chunks m).

(** ** Records the code can be given

    The fields are in the range of their Go types, no member pointer is nil
    and the encoding is shorter than [2^63] bytes, as every Go slice is. *)

Definition isUint64 (x : Z) : bool := (0 <=? x) && (x <? 2 ^ 64).
Definition isInt32 (x : Z) : bool := (- 2 ^ 31 <=? x) && (x <? 2 ^ 31).
Definition fitsInt {A : Type} (s : list A) : bool := len s <? 2 ^ 63.

Definition BridgeValidator_valid (m : BridgeValidator) : bool :=
  isUint64 (Power m) && fitsInt (BridgeValidator_wire m).

Definition member_valid (e : ptr BridgeValidator) : bool :=
  match e with Some m => BridgeValidator_valid m | None => false end.

Definition Valset_valid (m : Valset) : bool :=
  isUint64 (Nonce m) && isUint64 (Height m)
  && forallb member_valid (elems (Members m))
  && fitsInt (Valset_wire m).

Definition GenericClaim_valid (m : GenericClaim) : bool :=
  isUint64 (EventNonce m) && isInt32 (ClaimType m) && fitsInt (GenericClaim_wire m).

(** A slice without elements comes back from the wire as nil. *)
Definition nilIfEmpty {A : Type} (s : slice A) : slice A :=
  match s with
  | Some [] => None
  | _ => s
  end.

(** ** Positions in a buffer *)

(** The bytes of [dAtA] from position [i] on are [rest]. *)
Definition cursor (dAtA : list byte) (i : Z) (rest : list byte) : Prop :=
  exists pre, dAtA = pre ++ rest /\ i = len pre.

(** [p] is [s] cut short. *)
Definition strictPrefix {A : Type} (p s : list A) : Prop :=
  exists r, s = p ++ r /\ r <> [].

(** The byte has its continuation bit set. *)
Definition continues (b : byte) : Prop := 128 <= byte.unsigned b.

(** A conversion that can be applied to the groups of a varint one by one. *)
Definition lor_morphism (conv : Z -> Z) : Prop :=
  conv 0 = 0 /\ forall a b, conv (Z.lor a b) = Z.lor (conv a) (conv b).

(** ** What the decoders do with a chunk

    For each record, the chunks its [switch] has a case for, and the
    assignment the case makes. *)

Definition BridgeValidator_good (c : chunk) : Prop :=
  match c with
  | CVarint t v => t = Byte.x08 /\ 0 <= v < 2 ^ 64
  | CBytes t p => t = Byte.x12
  end.

Definition BridgeValidator_upd (m : BridgeValidator) (c : chunk) : BridgeValidator :=
  match c with
  | CVarint _ v => mkBridgeValidator v (EthereumAddress m)
  | CBytes _ p => mkBridgeValidator (Power m) (stringOf p)
  end.

Definition Valset_good (c : chunk) : Prop :=
  match c with
  | CVarint t v => (t = Byte.x08 \/ t = Byte.x18) /\ 0 <= v < 2 ^ 64
  | CBytes t p => t = Byte.x12 /\ snd (BridgeValidator_Unmarshal BridgeValidator_zero p) = Ok tt
  end.

Definition Valset_upd (m : Valset) (c : chunk) : Valset :=
  match c with
  | CVarint t v =>
    if tagFieldNum t =? 1 then mkValset v (Members m) (Height m)
    else mkValset (Nonce m) (Members m) v
  | CBytes _ p =>
    mkValset (Nonce m)
      (append1 (Members m) (Some (fst (BridgeValidator_Unmarshal BridgeValidator_zero p))))
      (Height m)
  end.

Definition GenericClaim_good (c : chunk) : Prop :=
  match c with
  | CVarint t v => (t = Byte.x08 \/ t = Byte.x10) /\ 0 <= v < 2 ^ 64
  | CBytes t p => t = Byte.x1a \/ t = Byte.x22
  end.

Definition GenericClaim_upd (m : GenericClaim) (c : chunk) : GenericClaim :=
  match c with
  | CVarint t v =>
    if tagFieldNum t =? 1
    then mkGenericClaim v (ClaimType m) (Hash m) (EventClaimer m)
    else mkGenericClaim (EventNonce m) (int32 v) (Hash m) (EventClaimer m)
  | CBytes t p =>
    if tagFieldNum t =? 3
    then mkGenericClaim (EventNonce m) (ClaimType m) (Some p) (EventClaimer m)
    else mkGenericClaim (EventNonce m) (ClaimType m) (Hash m) (stringOf p)
  end.

(** ** The writer *)

(** The writer [w'] is the writer [w] after [bs] was written in front of
    what [w] had written. *)
Definition pushed (w : writer) (bs : list byte) (w' : writer) : Prop :=
  len (fst w') = len (fst w)
  /\ snd w' = snd w - len bs
  /\ 0 <= snd w'
  /\ Buf.drop (snd w') (fst w') = bs ++ Buf.drop (snd w) (fst w).

(** ** The three kinds of record together *)

Inductive record : Type :=
| RBridgeValidator (m : BridgeValidator)
| RValset (m : Valset)
| RGenericClaim (m : GenericClaim).

(** [r.Marshal()]. *)
Definition Marshal (r : record) : outcome (list byte) :=
  match r with
  | RBridgeValidator m => BridgeValidator_Marshal m
  | RValset m => Valset_Marshal m
  | RGenericClaim m => GenericClaim_Marshal m
  end.

(** [r.Unmarshal(dAtA)]: the receiver afterwards and the outcome. *)
Definition Unmarshal (r : record) (dAtA : list byte) : record * outcome unit :=
  match r with
  | RBridgeValidator m =>
    let '(m, e) := BridgeValidator_Unmarshal m dAtA in (RBridgeValidator m, e)
  | RValset m =>
    let '(m, e) := Valset_Unmarshal m dAtA in (RValset m, e)
  | RGenericClaim m =>
    let '(m, e) := GenericClaim_Unmarshal m dAtA in (RGenericClaim m, e)
  end.

(** The zero value of the kind of [r]: what a caller decodes into. *)
Definition fresh (r : record) : record :=
  match r with
  | RBridgeValidator _ => RBridgeValidator BridgeValidator_zero
  | RValset _ => RValset Valset_zero
  | RGenericClaim _ => RGenericClaim GenericClaim_zero
  end.

Definition valid (r : record) : bool :=
  match r with
  | RBridgeValidator m => BridgeValidator_valid m
  | RValset m => Valset_valid m
  | RGenericClaim m => GenericClaim_valid m
  end.

Definition chunksOf (r : record) : list chunk :=
  match r with
  | RBridgeValidator m => BridgeValidator_chunks m
  | RValset m => Valset_chunks m
  | RGenericClaim m => GenericClaim_chunks m
  end.

Definition wireOf (r : record) : list byte := encChunks (chunksOf r).

(** The chunks the decoder of the kind of [r] has a case for. *)
Definition known (r : record) (c : chunk) : Prop :=
  match r with
  | RBridgeValidator _ => BridgeValidator_good c
  | RValset _ => Valset_good c
  | RGenericClaim _ => GenericClaim_good c
  end.

(** The receiver after the decoder has taken a known chunk. *)
Definition assign (r : record) (c : chunk) : record :=
  match r with
  | RBridgeValidator m => RBridgeValidator (BridgeValidator_upd m c)
  | RValset m => RValset (Valset_upd m c)
  | RGenericClaim m => RGenericClaim (GenericClaim_upd m c)
  end.

(** [r] with its empty slices made nil. *)
Definition emptyToNil (r : record) : record :=
  match r with
  | RBridgeValidator m => RBridgeValidator m
  | RValset m => RValset (mkValset (Nonce m) (nilIfEmpty (Members m)) (Height m))
  | RGenericClaim m =>
    RGenericClaim (mkGenericClaim (EventNonce m) (ClaimType m) (nilIfEmpty (Hash m))
                     (EventClaimer m))
  end.

(** The field numbers each [switch] has a case for, with the wire type the
    case asks for and the name it puts in its error. *)
Definition fieldOf (r : record) (fieldNum : Z) : option (Z * string) :=
  match r with
  | RBridgeValidator _ =>
    match fieldNum with
    | 1 => Some (0, "Power")
    | 2 => Some (2, "EthereumAddress")
    | _ => None
    end
  | RValset _ =>
    match fieldNum with
    | 1 => Some (0, "Nonce")
    | 2 => Some (2, "Members")
    | 3 => Some (0, "Height")
    | _ => None
    end
  | RGenericClaim _ =>
    match fieldNum with
    | 1 => Some (0, "EventNonce")
    | 2 => Some (0, "ClaimType")
    | 3 => Some (2, "Hash")
    | 4 => Some (2, "EventClaimer")
    | _ => None
    end
  end%string.


(** ** Calls that return *)

(** The call returned, with a value or with an error: it did not panic, and
    the model did not run out of fuel. *)
Definition returns {A : Type} (o : outcome A) : Prop :=
  match o with
  | Ok _ | Fail _ => True
  | Panic | OutOfFuel => False
  end.

(** The call returned, and a position it returned is after [lo] and not
    after [hi]. *)
Definition advances (lo hi : Z) (o : outcome Z) : Prop :=
  match o with
  | Ok j => lo < j <= hi
  | Fail _ => True
  | Panic | OutOfFuel => False
  end.

(** ** The other entry points of the generated code *)

(** [MarshalTo]: [size := m.Size(); return m.MarshalToSizedBuffer(dAtA[:size])].
    The callee writes into [dAtA[:size]], which shares its memory with
    [dAtA]: the caller's buffer afterwards is what the callee left there,
    in front of the rest. *)
Definition marshalToWith {M : Type} (Size : M -> Z)
  (MarshalToSizedBuffer : M -> list byte -> outcome (list byte * Z)) (m : M)
  (dAtA : list byte) : outcome (list byte * Z) :=
  let size := Size m in
  sub <- orPanic (Buf.slice dAtA 0 size) ;;
  '(sub, n) <- MarshalToSizedBuffer m sub ;;
  Ok (sub ++ Buf.drop size dAtA, n).

Definition BridgeValidator_MarshalTo : BridgeValidator -> list byte -> outcome (list byte * Z) :=
  marshalToWith BridgeValidator_Size BridgeValidator_MarshalToSizedBuffer.
Definition Valset_MarshalTo : Valset -> list byte -> outcome (list byte * Z) :=
  marshalToWith Valset_Size Valset_MarshalToSizedBuffer.
Definition GenericClaim_MarshalTo : GenericClaim -> list byte -> outcome (list byte * Z) :=
  marshalToWith GenericClaim_Size GenericClaim_MarshalToSizedBuffer.

(** [XXX_Marshal(b, false)], the branch that stays in this file:
    [b = b[:cap(b)]; n, err := m.MarshalToSizedBuffer(b); return b[:n], nil].
    The argument is the buffer with its whole capacity. *)
Definition xxxMarshalWith {M : Type}
  (MarshalToSizedBuffer : M -> list byte -> outcome (list byte * Z)) (m : M)
  (b : list byte) : outcome (list byte) :=
  '(b, n) <- MarshalToSizedBuffer m b ;;
  orPanic (Buf.slice b 0 n).

Definition BridgeValidator_XXX_Marshal : BridgeValidator -> list byte -> outcome (list byte) :=
  xxxMarshalWith BridgeValidator_MarshalToSizedBuffer.
Definition Valset_XXX_Marshal : Valset -> list byte -> outcome (list byte) :=
  xxxMarshalWith Valset_MarshalToSizedBuffer.
Definition GenericClaim_XXX_Marshal : GenericClaim -> list byte -> outcome (list byte) :=
  xxxMarshalWith GenericClaim_MarshalToSizedBuffer.

(** [sozTypes(x)]: [sovTypes(uint64((x << 1) ^ uint64((int64(x) >> 63))))]. *)
Definition sozTypes (x : Z) : Z :=
  sovTypes (uint64 (Z.lxor (uint64 (Z.shiftl x 1)) (uint64 (Z.shiftr (int64 x) 63)))).

(** The methods on the three kinds together. *)
Definition SizeOf (r : record) : Z :=
  match r with
  | RBridgeValidator m => BridgeValidator_Size m
  | RValset m => Valset_Size m
  | RGenericClaim m => GenericClaim_Size m
  end.

Definition MarshalToSizedBuffer (r : record) (dAtA : list byte) : outcome (list byte * Z) :=
  match r with
  | RBridgeValidator m => BridgeValidator_MarshalToSizedBuffer m dAtA
  | RValset m => Valset_MarshalToSizedBuffer m dAtA
  | RGenericClaim m => GenericClaim_MarshalToSizedBuffer m dAtA
  end.

Definition MarshalTo (r : record) (dAtA : list byte) : outcome (list byte * Z) :=
  match r with
  | RBridgeValidator m => BridgeValidator_MarshalTo m dAtA
  | RValset m => Valset_MarshalTo m dAtA
  | RGenericClaim m => GenericClaim_MarshalTo m dAtA
  end.

Definition XXX_Marshal (r : record) (b : list byte) : outcome (list byte) :=
  match r with
  | RBridgeValidator m => BridgeValidator_XXX_Marshal m b
  | RValset m => Valset_XXX_Marshal m b
  | RGenericClaim m => GenericClaim_XXX_Marshal m b
  end.

(** The name of the message in the error texts of its [Unmarshal]. *)
Definition nameOf (r : record) : string :=
  match r with
  | RBridgeValidator _ => "BridgeValidator"
  | RValset _ => "Valset"
  | RGenericClaim _ => "GenericClaim"
  end.

(** ** Fields the decoder has no case for *)

(** The [switch] of the kind of [r] has a case for the field number of the
    chunk. *)
Definition hasCase (r : record) (c : chunk) : bool :=
  match fieldOf r (tagFieldNum (chunkTag c)) with
  | Some _ => true
  | None => false
  end.

(** A well-formed varint or length-delimited field whose number the [switch]
    of the kind of [r] leaves to [default:]. *)
Definition unknown (r : record) (c : chunk) : Prop :=
  byte.unsigned (chunkTag c) < 128
  /\ 0 < tagFieldNum (chunkTag c)
  /\ fieldOf r (tagFieldNum (chunkTag c)) = None
  /\ match c with
     | CVarint t v => tagWireType t = 0 /\ 0 <= v < 2 ^ 64
     | CBytes t p => tagWireType t = 2
     end.

(** ** The accumulator of the varint loop *)

(** What the loop of [decodeVarint] has accumulated after the bytes [q], the
    first of them taken at [shift]. *)
Fixpoint groupsOf (conv : Z -> Z) (q : list byte) (shift acc : Z) : Z :=
  match q with
  | [] => acc
  | b :: q =>
    groupsOf conv q (shift + 7)
      (Z.lor acc (conv (Z.shiftl (Z.land (byte.unsigned b) 127) shift)))
  end.

(** The [switch fieldNum] of the kind of [r]. *)
Definition fieldsOf (r : record) (dAtA : list byte) (l preIndex fieldNum wireType iNdEx : Z)
  : record * outcome Z :=
  match r with
  | RBridgeValidator m =>
    let '(m, o) := BridgeValidator_fields m dAtA l preIndex fieldNum wireType iNdEx in
    (RBridgeValidator m, o)
  | RValset m =>
    let '(m, o) := Valset_fields m dAtA l preIndex fieldNum wireType iNdEx in
    (RValset m, o)
  | RGenericClaim m =>
    let '(m, o) := GenericClaim_fields m dAtA l preIndex fieldNum wireType iNdEx in
    (RGenericClaim m, o)
  end.

(** The writer [w'] is further down the buffer of [w] and has left alone
    what is below its own position. *)
Definition keeps (w w' : writer) : Prop :=
  len (fst w') = len (fst w)
  /\ snd w' <= snd w
  /\ Buf.take (snd w') (fst w') = Buf.take (snd w') (fst w).

(** The call returned a value or panicked: it returned no [error], and the
    model did not run out of fuel. *)
Definition okOrPanic {A : Type} (o : outcome A) : Prop :=
  match o with
  | Ok _ | Panic => True
  | Fail _ | OutOfFuel => False
  end.

(** * Machine integers: ranges and bits *)

Lemma uint64_small x : 0 <= x < 2 ^ 64 -> uint64 x = x.
Proof. intros H. unfold uint64. apply Z.mod_small. exact H. Qed.

Lemma uint64_range x : 0 <= uint64 x < 2 ^ 64.
Proof. unfold uint64. apply Z.mod_pos_bound. reflexivity. Qed.

Lemma signed_small n x : 0 < n -> 0 <= x < 2 ^ (n - 1) -> signed n x = x.
Proof.
  intros Hn H. unfold signed.
  assert (E : 2 ^ n = 2 * 2 ^ (n - 1)).
  { rewrite <- Z.pow_succ_r by lia. f_equal. lia. }
  rewrite Z.mod_small by lia.
  destruct (Z.ltb_spec x (2 ^ (n - 1))); lia.
Qed.

Lemma int64_small x : 0 <= x < 2 ^ 63 -> int64 x = x.
Proof. intros H. apply signed_small; [lia | exact H]. Qed.

Lemma int32_small x : 0 <= x < 2 ^ 31 -> int32 x = x.
Proof. intros H. apply signed_small; [lia | exact H]. Qed.

Lemma signed_range n x : 0 < n -> - 2 ^ (n - 1) <= signed n x < 2 ^ (n - 1).
Proof.
  intros Hn. unfold signed.
  assert (E : 2 ^ n = 2 * 2 ^ (n - 1)).
  { rewrite <- Z.pow_succ_r by lia. f_equal. lia. }
  pose proof (Z.mod_pos_bound x (2 ^ n) ltac:(apply Z.pow_pos_nonneg; lia)).
  destruct (Z.ltb_spec (x mod 2 ^ n) (2 ^ (n - 1))); lia.
Qed.

(** The bits of a reinterpreted number: bit [n-1] is repeated upwards. *)
Lemma signed_testbit n x j :
  0 < n -> 0 <= j -> Z.testbit (signed n x) j = Z.testbit x (Z.min j (n - 1)).
Proof.
  intros Hn Hj. unfold signed.
  assert (E : 2 ^ n = 2 * 2 ^ (n - 1)).
  { rewrite <- Z.pow_succ_r by lia. f_equal. lia. }
  assert (Hp : 0 < 2 ^ (n - 1)) by (apply Z.pow_pos_nonneg; lia).
  pose proof (Z.mod_pos_bound x (2 ^ n) ltac:(lia)) as Hu.
  assert (Htop : Z.b2z (Z.testbit x (n - 1)) = (x mod 2 ^ n) / 2 ^ (n - 1)).
  { rewrite <- (Z.mod_pow2_bits_low x n (n - 1)) by lia.
    rewrite Z.testbit_spec' by lia.
    apply Z.mod_small.
    split; [apply Z.div_pos; lia | apply Z.div_lt_upper_bound; lia]. }
  destruct (Z.ltb_spec (x mod 2 ^ n) (2 ^ (n - 1))) as [Hlt | Hge].
  - rewrite Z.div_small in Htop by lia.
    assert (Z.testbit x (n - 1) = false) by (destruct (Z.testbit x (n - 1)); simpl in *; congruence).
    rewrite Z.testbit_mod_pow2 by lia.
    destruct (Z.ltb_spec j n) as [Hjn | Hjn]; simpl.
    + destruct (Z.eq_dec j (n - 1)) as [-> | ?].
      * rewrite Z.min_id. reflexivity.
      * rewrite Z.min_l by lia. reflexivity.
    + rewrite Z.min_r by lia. congruence.
  - assert (Hq : (x mod 2 ^ n) / 2 ^ (n - 1) = 1).
    { symmetry. apply Z.div_unique with (r := x mod 2 ^ n - 2 ^ (n - 1)); lia. }
    rewrite Hq in Htop.
    assert (Z.testbit x (n - 1) = true) by (destruct (Z.testbit x (n - 1)); simpl in *; congruence).
    replace (x mod 2 ^ n - 2 ^ n) with (Z.lor (x mod 2 ^ n) (Z.shiftl (-1) n)).
    2:{ rewrite Z.or_to_plus.
        - rewrite Z.shiftl_mul_pow2 by lia. lia.
        - Z.bitblast. }
    rewrite Z.lor_spec, Z.testbit_mod_pow2, Z.shiftl_spec by lia.
    destruct (Z.ltb_spec j n) as [Hjn | Hjn]; simpl.
    + rewrite (Z.testbit_neg_r _ (j - n)) by lia. rewrite orb_false_r.
      destruct (Z.eq_dec j (n - 1)) as [-> | ?].
      * rewrite Z.min_id. reflexivity.
      * rewrite Z.min_l by lia. reflexivity.
    + rewrite Z.min_r by lia. rewrite Z.testbit_minus1 by lia. congruence.
Qed.

Lemma uint64_lor : lor_morphism uint64.
Proof.
  split; [reflexivity|]. intros a b. unfold uint64. Z.bitblast.
Qed.

Lemma signed_lor n : 0 < n -> lor_morphism (signed n).
Proof.
  intros Hn. split.
  - apply signed_small; [lia|]. split; [lia|]. apply Z.pow_pos_nonneg; lia.
  - intros a b. apply Z.bits_inj'. intros j Hj.
    rewrite Z.lor_spec, !signed_testbit, Z.lor_spec by lia. reflexivity.
Qed.

Lemma int64_lor : lor_morphism int64.
Proof. apply signed_lor. lia. Qed.

Lemma int32_lor : lor_morphism int32.
Proof. apply signed_lor. lia. Qed.

(** Conversion of a sign-extended [int32] to [uint64] and back. *)
Lemma int32_uint64 x : - 2 ^ 31 <= x < 2 ^ 31 -> int32 (uint64 x) = x.
Proof.
  intros H. unfold int32, uint64, signed.
  replace (2 ^ 64) with (2 ^ 32 * 2 ^ 32) by reflexivity.
  rewrite Z.rem_mul_r by lia.
  rewrite Z.mul_comm, Z.mod_add by lia. rewrite Z.mod_mod by lia.
  destruct (Z.ltb_spec (x mod 2 ^ 32) (2 ^ (32 - 1))) as [Hlt | Hge].
  - destruct (Z_lt_le_dec x 0).
    + replace x with (x + 2 ^ 32 + (-1) * 2 ^ 32) in Hlt by lia.
      rewrite Z.mod_add in Hlt by lia. rewrite Z.mod_small in Hlt by lia. simpl in *. lia.
    + apply Z.mod_small. lia.
  - destruct (Z_lt_le_dec x 0).
    + replace x with (x + 2 ^ 32 + (-1) * 2 ^ 32) at 1 by lia.
      rewrite Z.mod_add by lia. rewrite Z.mod_small by lia. lia.
    + rewrite Z.mod_small in Hge by lia. simpl in *. lia.
Qed.

(** * Lists and buffers *)

Lemma len_nil (A : Type) : len (@nil A) = 0.
Proof. reflexivity. Qed.

Lemma len_cons (A : Type) (x : A) s : len (x :: s) = 1 + len s.
Proof. unfold len. simpl List.length. lia. Qed.

Lemma len_app (A : Type) (s t : list A) : len (s ++ t) = len s + len t.
Proof. unfold len. rewrite length_app. lia. Qed.

Lemma len_nonneg (A : Type) (s : list A) : 0 <= len s.
Proof. unfold len. lia. Qed.

Lemma len_zero_nil (A : Type) (s : list A) : len s = 0 -> s = [].
Proof. destruct s; [reflexivity|]. rewrite len_cons. pose proof (len_nonneg s). lia. Qed.

Lemma len_repeat (A : Type) (x : A) n : len (repeat x n) = Z.of_nat n.
Proof. unfold len. rewrite repeat_length. reflexivity. Qed.

Lemma take_app_len (A : Type) (s t : list A) n : n = len s -> Buf.take n (s ++ t) = s.
Proof.
  intros ->. unfold Buf.take, len. rewrite Nat2Z.id.
  rewrite firstn_app, Nat.sub_diag, firstn_all. simpl. apply app_nil_r.
Qed.

Lemma drop_app_len (A : Type) (s t : list A) n : n = len s -> Buf.drop n (s ++ t) = t.
Proof.
  intros ->. unfold Buf.drop, len. rewrite Nat2Z.id.
  rewrite skipn_app, Nat.sub_diag, skipn_all. reflexivity.
Qed.

Lemma drop_app_ge (A : Type) (s t : list A) n k :
  n = len s + k -> 0 <= k -> Buf.drop n (s ++ t) = Buf.drop k t.
Proof.
  intros -> Hk. unfold Buf.drop, len.
  rewrite skipn_app.
  rewrite skipn_all2 by lia. simpl. f_equal. lia.
Qed.

Lemma take_app_le (A : Type) (s t : list A) n :
  n <= len s -> Buf.take n (s ++ t) = Buf.take n s.
Proof.
  intros H. unfold Buf.take, len in *. rewrite firstn_app.
  replace (Z.to_nat n - List.length s)%nat with 0%nat by lia.
  simpl. apply app_nil_r.
Qed.

Lemma take_drop (A : Type) (s : list A) n : Buf.take n s ++ Buf.drop n s = s.
Proof. apply firstn_skipn. Qed.

Lemma len_take (A : Type) (s : list A) n : 0 <= n <= len s -> len (Buf.take n s) = n.
Proof. intros H. unfold Buf.take, len in *. rewrite length_firstn. lia. Qed.

Lemma len_drop (A : Type) (s : list A) n : 0 <= n <= len s -> len (Buf.drop n s) = len s - n.
Proof. intros H. unfold Buf.drop, len in *. rewrite length_skipn. lia. Qed.

Lemma take_all (A : Type) (s : list A) n : len s <= n -> Buf.take n s = s.
Proof. intros H. unfold Buf.take, len in *. apply firstn_all2. lia. Qed.

Lemma drop_zero (A : Type) (s : list A) : Buf.drop 0 s = s.
Proof. reflexivity. Qed.

Lemma take_zero (A : Type) (s : list A) : Buf.take 0 s = [].
Proof. reflexivity. Qed.

Lemma drop_all (A : Type) (s : list A) n : len s <= n -> Buf.drop n s = [].
Proof. intros H. unfold Buf.drop, len in *. apply skipn_all2. lia. Qed.

(** ** The cursor *)

Lemma cursor_start dAtA : cursor dAtA 0 dAtA.
Proof. exists []. split; reflexivity. Qed.

Lemma cursor_range dAtA i rest : cursor dAtA i rest -> 0 <= i /\ i + len rest = len dAtA.
Proof.
  intros (pre & -> & ->). rewrite len_app. pose proof (len_nonneg pre). lia.
Qed.

Lemma cursor_app dAtA i s rest :
  cursor dAtA i (s ++ rest) -> cursor dAtA (i + len s) rest.
Proof.
  intros (pre & -> & ->). exists (pre ++ s). rewrite <- app_assoc, len_app. auto.
Qed.

Lemma cursor_cons dAtA i b rest :
  cursor dAtA i (b :: rest) -> cursor dAtA (i + 1) rest.
Proof.
  intros H. apply (@cursor_app dAtA i [b] rest) in H. exact H.
Qed.

Lemma cursor_nil dAtA i : cursor dAtA i [] -> i = len dAtA.
Proof. intros H. apply cursor_range in H. rewrite len_nil in H. lia. Qed.

Lemma cursor_index dAtA i b rest :
  cursor dAtA i (b :: rest) -> Buf.index dAtA i = Some b.
Proof.
  intros (pre & -> & ->). unfold Buf.index.
  rewrite len_app, len_cons.
  pose proof (len_nonneg pre). pose proof (len_nonneg rest).
  replace (0 <=? len pre) with true by (symmetry; apply Z.leb_le; lia).
  replace (len pre <? len pre + (1 + len rest)) with true by (symmetry; apply Z.ltb_lt; lia).
  simpl. unfold len. rewrite Nat2Z.id.
  rewrite nth_error_app2 by lia. rewrite Nat.sub_diag. reflexivity.
Qed.

Lemma cursor_lt dAtA i b rest : cursor dAtA i (b :: rest) -> i < len dAtA.
Proof.
  intros H. apply cursor_range in H. rewrite len_cons in H.
  pose proof (len_nonneg rest). lia.
Qed.

Lemma cursor_slice dAtA i s rest :
  cursor dAtA i (s ++ rest) -> Buf.slice dAtA i (i + len s) = Some s.
Proof.
  intros (pre & -> & ->). unfold Buf.slice.
  rewrite !len_app.
  pose proof (len_nonneg pre). pose proof (len_nonneg rest). pose proof (len_nonneg s).
  replace (0 <=? len pre) with true by (symmetry; apply Z.leb_le; lia).
  replace (len pre <=? len pre + len s) with true by (symmetry; apply Z.leb_le; lia).
  replace (len pre + len s <=? len pre + (len s + len rest)) with true
    by (symmetry; apply Z.leb_le; lia).
  simpl. rewrite drop_app_len by reflexivity.
  rewrite take_app_len by lia. reflexivity.
Qed.

Lemma cursor_slice_end dAtA i rest :
  cursor dAtA i rest -> Buf.slice dAtA i (len dAtA) = Some rest.
Proof.
  intros H. pose proof (cursor_range H) as [_ E]. rewrite <- E.
  rewrite <- (app_nil_r rest) in H. apply cursor_slice in H. exact H.
Qed.

(** * Bytes *)

Lemma unsigned_uint8 x : 0 <= x < 256 -> byte.unsigned (uint8 x) = x.
Proof.
  intros H. unfold uint8. rewrite byte.unsigned_of_Z. unfold byte.wrap.
  apply Z.mod_small. simpl. lia.
Qed.

Lemma unsigned_range b : 0 <= byte.unsigned b < 256.
Proof. pose proof (byte.unsigned_range b). simpl in *. lia. Qed.

Lemma low7_bound v : 0 <= Z.land v 127 < 128.
Proof.
  change 127 with (Z.ones 7). rewrite Z.land_ones by lia.
  apply Z.mod_pos_bound. reflexivity.
Qed.

Lemma cont_byte_bound v : 128 <= Z.lor (Z.land v 127) 128 < 256.
Proof.
  rewrite Z.or_to_plus.
  - pose proof (low7_bound v). lia.
  - change 127 with (Z.ones 7). change 128 with (2 ^ 7). Z.bitblast.
    destruct (Z.eqb_spec 7 i); [lia | btauto].
Qed.

Lemma cont_byte_low7 v : Z.land (Z.lor (Z.land v 127) 128) 127 = Z.land v 127.
Proof.
  change 127 with (Z.ones 7). change 128 with (2 ^ 7). Z.bitblast.
  destruct (Z.eqb_spec 7 i); [lia | btauto].
Qed.

Lemma small_low7 v : 0 <= v < 128 -> Z.land v 127 = v.
Proof.
  intros H. change 127 with (Z.ones 7). rewrite Z.land_ones by lia.
  apply Z.mod_small. exact H.
Qed.

(** * [sovTypes] *)

Lemma Len64_pos x : 0 < x -> Len64 x = Z.log2 x + 1.
Proof. intros H. unfold Len64. destruct (Z.eqb_spec x 0); lia. Qed.

Lemma lor_1_pos x : 0 <= x -> 0 < Z.lor x 1.
Proof.
  intros H. assert (0 <= Z.lor x 1) by (apply Z.lor_nonneg; lia).
  assert (Z.lor x 1 <> 0); [|lia].
  intros E. apply Z.lor_eq_0_iff in E. lia.
Qed.

Lemma log2_lor_1 x : 0 <= x -> Z.log2 (Z.lor x 1) = Z.log2 x.
Proof.
  intros H. rewrite Z.log2_lor by lia. simpl.
  pose proof (Z.log2_nonneg x). lia.
Qed.

Lemma sovTypes_log2 x : 0 <= x -> sovTypes x = (Z.log2 x + 7) / 7.
Proof.
  intros H. unfold sovTypes. rewrite Len64_pos by (apply lor_1_pos; exact H).
  rewrite log2_lor_1 by exact H. f_equal. lia.
Qed.

Lemma sovTypes_small x : 0 <= x < 128 -> sovTypes x = 1.
Proof.
  intros H. rewrite sovTypes_log2 by lia.
  assert (Z.log2 x < 7).
  { destruct (Z.eq_dec x 0) as [-> | ?]; [simpl; lia|].
    apply Z.log2_lt_pow2; simpl; lia. }
  pose proof (Z.log2_nonneg x).
  symmetry. apply Z.div_unique with (r := Z.log2 x); lia.
Qed.

Lemma sovTypes_step x : 128 <= x -> sovTypes x = 1 + sovTypes (Z.shiftr x 7).
Proof.
  intros H.
  assert (0 <= Z.shiftr x 7) by (apply Z.shiftr_nonneg; lia).
  rewrite !sovTypes_log2 by lia.
  rewrite Z.log2_shiftr by lia.
  assert (7 <= Z.log2 x) by (apply Z.log2_le_pow2; simpl; lia).
  rewrite Z.max_r by lia.
  replace (Z.log2 x + 7) with ((Z.log2 x - 7 + 7) + 1 * 7) by lia.
  rewrite Z.div_add by lia. lia.
Qed.

Lemma shiftr7_bound n v :
  (1 <= n)%nat -> 0 <= v < 2 ^ (7 * Z.of_nat (S n)) -> 0 <= Z.shiftr v 7 < 2 ^ (7 * Z.of_nat n).
Proof.
  intros Hn H. rewrite Z.shiftr_div_pow2 by lia. split.
  - apply Z.div_pos; lia.
  - apply Z.div_lt_upper_bound; [lia|].
    rewrite <- Z.pow_add_r by lia.
    replace (7 + 7 * Z.of_nat n) with (7 * Z.of_nat (S n)) by lia. lia.
Qed.

(** * The bytes of a varint *)

Lemma varintBytes_fuel_small n v :
  0 <= v < 128 -> varintBytes_fuel (S n) v = [uint8 v].
Proof.
  intros H. simpl. destruct (Z.geb_spec v 128); [lia | reflexivity].
Qed.

Lemma varintBytes_fuel_step n v :
  128 <= v ->
  varintBytes_fuel (S n) v
  = uint8 (Z.lor (Z.land v 127) 128) :: varintBytes_fuel n (Z.shiftr v 7).
Proof.
  intros H. simpl. destruct (Z.geb_spec v 128); [reflexivity | lia].
Qed.

Lemma fuel_pos_of_large n v : 128 <= v -> v < 2 ^ (7 * Z.of_nat (S n)) -> (1 <= n)%nat.
Proof.
  intros H1 H2. destruct n; [|lia]. simpl in H2. lia.
Qed.

(** The length of a varint is what [sovTypes] says. *)
Lemma len_varintBytes_fuel n v :
  (1 <= n)%nat -> 0 <= v < 2 ^ (7 * Z.of_nat n) ->
  len (varintBytes_fuel n v) = sovTypes v.
Proof.
  revert v. induction n as [|n IH]; intros v Hn Hv; [lia|].
  destruct (Z_lt_le_dec v 128) as [Hs | Hl].
  - rewrite varintBytes_fuel_small, sovTypes_small by lia. reflexivity.
  - pose proof (fuel_pos_of_large n Hl ltac:(lia)) as Hn'.
    rewrite varintBytes_fuel_step, sovTypes_step by lia.
    rewrite len_cons. f_equal. apply IH; [exact Hn'|].
    apply shiftr7_bound; [exact Hn' | lia].
Qed.

Lemma len_varintBytes v : 0 <= v < 2 ^ 64 -> len (varintBytes v) = sovTypes v.
Proof.
  intros H. apply len_varintBytes_fuel; [lia|]. simpl. lia.
Qed.

Lemma len_varintBytes_fuel_le n v : len (varintBytes_fuel n v) <= Z.of_nat n.
Proof.
  revert v. induction n as [|n IH]; intros v; [simpl; rewrite len_nil; lia|].
  simpl varintBytes_fuel. destruct (v >=? 128).
  - rewrite len_cons. specialize (IH (Z.shiftr v 7)). lia.
  - rewrite len_cons, len_nil. lia.
Qed.

Lemma sovTypes_bounds v : 0 <= v < 2 ^ 64 -> 1 <= sovTypes v <= 10.
Proof.
  intros H. split.
  - rewrite sovTypes_log2 by lia. pose proof (Z.log2_nonneg v).
    apply Z.div_le_lower_bound; lia.
  - rewrite <- len_varintBytes by exact H.
    pose proof (len_varintBytes_fuel_le 10 v). unfold varintBytes. lia.
Qed.

(** * [encodeVarintTypes] writes the varint *)

Lemma store_inside dAtA i b :
  0 <= i < len dAtA ->
  Buf.store dAtA i b = Some (Buf.take i dAtA ++ b :: Buf.drop (i + 1) dAtA).
Proof.
  intros H. unfold Buf.store.
  replace (0 <=? i) with true by (symmetry; apply Z.leb_le; lia).
  replace (i <? len dAtA) with true by (symmetry; apply Z.ltb_lt; lia).
  reflexivity.
Qed.

Lemma drop_drop (A : Type) (s : list A) a b :
  0 <= a -> 0 <= b -> Buf.drop a (Buf.drop b s) = Buf.drop (a + b) s.
Proof.
  intros Ha Hb. unfold Buf.drop. rewrite skipn_skipn. f_equal. lia.
Qed.

Lemma encodeVarint_loop_spec n v dAtA offset :
  (1 <= n)%nat -> 0 <= v < 2 ^ (7 * Z.of_nat n) ->
  0 <= offset -> offset + len (varintBytes_fuel n v) <= len dAtA ->
  encodeVarint_loop n dAtA offset v
  = Ok (Buf.take offset dAtA ++ varintBytes_fuel n v
        ++ Buf.drop (offset + len (varintBytes_fuel n v)) dAtA).
Proof.
  revert v dAtA offset. induction n as [|n IH]; intros v dAtA offset Hn Hv Ho Hl; [lia|].
  destruct (Z_lt_le_dec v 128) as [Hs | Hg].
  - rewrite varintBytes_fuel_small in * by lia.
    rewrite len_cons, len_nil in *.
    simpl. destruct (Z.geb_spec v 128); [lia|].
    rewrite store_inside by lia. simpl. do 3 f_equal; lia.
  - pose proof (fuel_pos_of_large n Hg ltac:(lia)) as Hn'.
    rewrite varintBytes_fuel_step in * by lia.
    rewrite len_cons in *.
    pose proof (len_nonneg (varintBytes_fuel n (Z.shiftr v 7))).
    cbn [encodeVarint_loop]. destruct (Z.geb_spec v 128); [|lia].
    rewrite store_inside by lia. cbn [orPanic bind].
    rewrite IH; [| exact Hn' | apply shiftr7_bound; [exact Hn' | lia] | lia | ].
    + f_equal.
      replace (Buf.take offset dAtA ++ uint8 (Z.lor (Z.land v 127) 128) :: Buf.drop (offset + 1) dAtA)
        with ((Buf.take offset dAtA ++ [uint8 (Z.lor (Z.land v 127) 128)]) ++ Buf.drop (offset + 1) dAtA)
        by (rewrite <- app_assoc; reflexivity).
      rewrite take_app_len by (rewrite len_app, len_take, len_cons, len_nil; lia).
      rewrite drop_app_ge with (k := len (varintBytes_fuel n (Z.shiftr v 7)))
        by (rewrite ?len_app, ?len_take, ?len_cons, ?len_nil; lia).
      rewrite drop_drop by lia.
      rewrite <- !app_assoc. cbn [app].
      replace (len (varintBytes_fuel n (Z.shiftr v 7)) + (offset + 1))
        with (offset + (1 + len (varintBytes_fuel n (Z.shiftr v 7)))) by lia.
      reflexivity.
    + rewrite len_app, len_cons, len_take, len_drop by lia. lia.
Qed.

Lemma encodeVarintTypes_spec dAtA offset v :
  0 <= v < 2 ^ 64 -> sovTypes v <= offset <= len dAtA ->
  encodeVarintTypes dAtA offset v
  = Ok (Buf.take (offset - sovTypes v) dAtA ++ varintBytes v ++ Buf.drop offset dAtA,
        offset - sovTypes v).
Proof.
  intros Hv Ho. unfold encodeVarintTypes.
  pose proof (len_varintBytes Hv) as Hlen. unfold varintBytes in *.
  rewrite encodeVarint_loop_spec; [| lia | simpl; lia | lia | lia].
  cbn [bind]. rewrite Hlen.
  replace (offset - sovTypes v + sovTypes v) with offset by lia. reflexivity.
Qed.

(** * Reading back a varint *)

Lemma groups_lor v s :
  0 <= s ->
  Z.lor (Z.shiftl (Z.land v 127) s) (Z.shiftl (Z.shiftr v 7) (s + 7)) = Z.shiftl v s.
Proof.
  intros Hs. change 127 with (Z.ones 7). Z.bitblast.
  rewrite (Z.testbit_neg_r v) by lia. reflexivity.
Qed.

Lemma decodeVarint_loop_bytes conv n :
  lor_morphism conv ->
  forall v fuel dAtA i shift acc rest,
    (1 <= n)%nat -> 0 <= v < 2 ^ (7 * Z.of_nat n) ->
    0 <= shift -> shift + 7 * Z.of_nat n <= 70 -> (n <= fuel)%nat ->
    cursor dAtA i (varintBytes_fuel n v ++ rest) ->
    decodeVarint_loop conv fuel dAtA (len dAtA) i shift acc
    = (Z.lor acc (conv (Z.shiftl v shift)), Ok (i + len (varintBytes_fuel n v))).
Proof.
  intros [Hc0 Hc]. induction n as [|n IH]; intros v fuel dAtA i shift acc rest Hn Hv Hs Hsh Hf Hcur;
    [lia|].
  destruct fuel as [|fuel]; [lia|].
  cbn [decodeVarint_loop].
  destruct (Z.geb_spec shift 64); [lia|].
  destruct (Z_lt_le_dec v 128) as [Hsm | Hg].
  - rewrite varintBytes_fuel_small in * by lia. simpl app in Hcur.
    pose proof (cursor_lt Hcur).
    destruct (Z.geb_spec i (len dAtA)); [lia|].
    rewrite (cursor_index Hcur).
    rewrite unsigned_uint8 by lia. rewrite small_low7 by lia.
    destruct (Z.ltb_spec v 128); [|lia].
    rewrite len_cons, len_nil. reflexivity.
  - pose proof (fuel_pos_of_large n Hg ltac:(lia)) as Hn'.
    rewrite varintBytes_fuel_step in * by lia. simpl app in Hcur.
    pose proof (cursor_lt Hcur).
    destruct (Z.geb_spec i (len dAtA)); [lia|].
    rewrite (cursor_index Hcur).
    pose proof (cont_byte_bound v).
    rewrite unsigned_uint8 by lia. rewrite cont_byte_low7.
    destruct (Z.ltb_spec (Z.lor (Z.land v 127) 128) 128); [lia|].
    rewrite (IH (Z.shiftr v 7) fuel dAtA (i + 1) (shift + 7) _ rest);
      [ | exact Hn' | apply shiftr7_bound; [exact Hn' | lia] | lia | lia | lia
        | apply (cursor_cons Hcur) ].
    rewrite len_cons. f_equal.
    + rewrite <- Z.lor_assoc, <- Hc, groups_lor by lia. reflexivity.
    + f_equal. lia.
Qed.

(** What [decodeVarint] makes of the varint of [v]: [v], converted. *)
Lemma decodeVarint_bytes conv v dAtA i rest :
  lor_morphism conv -> 0 <= v < 2 ^ 64 ->
  cursor dAtA i (varintBytes v ++ rest) ->
  decodeVarint conv dAtA (len dAtA) i = (conv v, Ok (i + len (varintBytes v))).
Proof.
  intros Hc Hv Hcur. unfold decodeVarint, varintBytes in *.
  rewrite (@decodeVarint_loop_bytes conv 10 Hc v 11%nat dAtA i 0 0 rest); try lia; try exact Hcur.
  rewrite Z.shiftl_0_r, Z.lor_0_l. reflexivity.
Qed.

(** A tag of one byte. *)
Lemma decodeVarint_byte dAtA i t rest :
  byte.unsigned t < 128 ->
  cursor dAtA i (t :: rest) ->
  decodeVarint uint64 dAtA (len dAtA) i = (byte.unsigned t, Ok (i + 1)).
Proof.
  intros Ht Hcur. unfold decodeVarint. cbn [decodeVarint_loop].
  destruct (Z.geb_spec 0 64); [lia|].
  pose proof (cursor_lt Hcur).
  destruct (Z.geb_spec i (len dAtA)); [lia|].
  rewrite (cursor_index Hcur).
  destruct (Z.ltb_spec (byte.unsigned t) 128); [|lia].
  pose proof (unsigned_range t).
  rewrite small_low7 by lia. rewrite Z.shiftl_0_r, Z.lor_0_l.
  rewrite uint64_small by lia. reflexivity.
Qed.

(** ** A varint cut short *)

Lemma strictPrefix_nil_l (A : Type) (x : A) s : strictPrefix [] (x :: s).
Proof. exists (x :: s). split; [reflexivity | discriminate]. Qed.

Lemma strictPrefix_cons_inv (A : Type) (x y : A) p s :
  strictPrefix (x :: p) (y :: s) -> x = y /\ strictPrefix p s.
Proof.
  intros (r & E & Hr). simpl in E. inversion E; subst.
  split; [reflexivity|]. exists r. auto.
Qed.

Lemma strictPrefix_nil_r (A : Type) (p : list A) : ~ strictPrefix p [].
Proof.
  intros (r & E & Hr). symmetry in E. apply app_eq_nil in E. tauto.
Qed.

Lemma strictPrefix_len (A : Type) (p s : list A) : strictPrefix p s -> len p < len s.
Proof.
  intros (r & -> & Hr). rewrite len_app. destruct r; [congruence|].
  rewrite len_cons. pose proof (len_nonneg r). lia.
Qed.

Lemma strictPrefix_varintBytes n v q :
  strictPrefix q (varintBytes_fuel n v) ->
  Forall continues q /\ len q < Z.of_nat n.
Proof.
  revert v q. induction n as [|n IH]; intros v q H.
  - simpl in H. apply strictPrefix_nil_r in H. tauto.
  - simpl varintBytes_fuel in H. destruct (v >=? 128).
    + destruct q as [|b q].
      * split; [constructor | rewrite len_nil; lia].
      * apply strictPrefix_cons_inv in H. destruct H as [-> H].
        apply IH in H. destruct H as [HF Hl]. split.
        -- constructor; [|exact HF]. unfold continues.
           pose proof (cont_byte_bound v). rewrite unsigned_uint8 by lia. lia.
        -- rewrite len_cons. lia.
    + destruct q as [|b q].
      * split; [constructor | rewrite len_nil; lia].
      * apply strictPrefix_cons_inv in H. destruct H as [_ H].
        apply strictPrefix_nil_r in H. tauto.
Qed.

Lemma decodeVarint_loop_truncated conv q :
  forall fuel dAtA i shift acc,
    Forall continues q -> cursor dAtA i q ->
    shift + 7 * len q < 64 -> (List.length q < fuel)%nat ->
    snd (decodeVarint_loop conv fuel dAtA (len dAtA) i shift acc) = Fail ErrUnexpectedEOF.
Proof.
  induction q as [|b q IH]; intros fuel dAtA i shift acc HF Hcur Hsh Hf;
    (destruct fuel as [|fuel]; [simpl in Hf; lia|]); cbn [decodeVarint_loop].
  - rewrite len_nil in Hsh.
    destruct (Z.geb_spec shift 64); [lia|].
    apply cursor_nil in Hcur.
    destruct (Z.geb_spec i (len dAtA)); [reflexivity | lia].
  - rewrite len_cons in Hsh. pose proof (len_nonneg q).
    destruct (Z.geb_spec shift 64); [lia|].
    pose proof (cursor_lt Hcur).
    destruct (Z.geb_spec i (len dAtA)); [lia|].
    rewrite (cursor_index Hcur).
    inversion HF as [|? ? Hb HF']; subst. unfold continues in Hb.
    destruct (Z.ltb_spec (byte.unsigned b) 128); [lia|].
    apply IH; [exact HF' | apply (cursor_cons Hcur) | lia | simpl in Hf; lia].
Qed.

Lemma decodeVarint_truncated conv v q dAtA i :
  strictPrefix q (varintBytes v) -> cursor dAtA i q ->
  snd (decodeVarint conv dAtA (len dAtA) i) = Fail ErrUnexpectedEOF.
Proof.
  intros Hq Hcur. apply strictPrefix_varintBytes in Hq. destruct Hq as [HF Hl].
  unfold decodeVarint. apply decodeVarint_loop_truncated with (q := q).
  - exact HF.
  - exact Hcur.
  - lia.
  - unfold len in Hl. lia.
Qed.

(** * Length-delimited payloads *)

Lemma lengthDelimited_complete dAtA i s rest :
  len dAtA < 2 ^ 63 ->
  cursor dAtA i (s ++ rest) ->
  lengthDelimited dAtA (len dAtA) i (len s) = Ok (s, i + len s).
Proof.
  intros Hl Hcur. unfold lengthDelimited.
  pose proof (len_nonneg s). pose proof (len_nonneg rest).
  pose proof (cursor_range Hcur) as [Hi Hr]. rewrite len_app in Hr.
  destruct (Z.ltb_spec (len s) 0); [lia|].
  rewrite int64_small by lia.
  destruct (Z.ltb_spec (i + len s) 0); [lia|].
  destruct (Z.gtb_spec (i + len s) (len dAtA)); [lia|].
  rewrite (@cursor_slice dAtA i s rest Hcur). reflexivity.
Qed.

Lemma lengthDelimited_truncated dAtA i q n :
  cursor dAtA i q -> len q < n -> i + n < 2 ^ 63 ->
  lengthDelimited dAtA (len dAtA) i n = Fail ErrUnexpectedEOF.
Proof.
  intros Hcur Hq Hn. unfold lengthDelimited.
  pose proof (len_nonneg q).
  pose proof (cursor_range Hcur) as [Hi Hr].
  destruct (Z.ltb_spec n 0); [lia|].
  rewrite int64_small by lia.
  destruct (Z.ltb_spec (i + n) 0); [lia|].
  destruct (Z.gtb_spec (i + n) (len dAtA)); [reflexivity | lia].
Qed.

(** * Chunks *)

Lemma encChunks_nil : encChunks [] = [].
Proof. reflexivity. Qed.

Lemma encChunks_cons c cs : encChunks (c :: cs) = encChunk c ++ encChunks cs.
Proof. reflexivity. Qed.

Lemma encChunks_app cs ds : encChunks (cs ++ ds) = encChunks cs ++ encChunks ds.
Proof. unfold encChunks. apply flat_map_app. Qed.

Lemma len_encChunk c : len (encChunk c) = 1 + len (chunkBody c).
Proof. unfold encChunk. apply len_cons. Qed.

Lemma length_encChunks cs : (List.length cs <= List.length (encChunks cs))%nat.
Proof.
  induction cs as [|c cs IH]; [simpl; lia|].
  rewrite encChunks_cons, length_app. unfold encChunk at 1. simpl. lia.
Qed.

(** A strict prefix of a sequence of chunks ends between two chunks or
    inside one, after its tag. *)
Lemma strictPrefix_encChunks cs p :
  strictPrefix p (encChunks cs) ->
  exists k,
    (k < List.length cs)%nat /\
    (p = encChunks (firstn k cs) \/
     exists c q, nth_error cs k = Some c /\ strictPrefix q (chunkBody c)
                 /\ p = encChunks (firstn k cs) ++ chunkTag c :: q).
Proof.
  revert p. induction cs as [|c cs IH]; intros p H.
  - apply strictPrefix_nil_r in H. tauto.
  - destruct H as (r & E & Hr). rewrite encChunks_cons in E.
    destruct p as [|t p].
    + exists 0%nat. simpl. split; [lia | left; reflexivity].
    + unfold encChunk in E. simpl in E. inversion E as [[Et E']]. subst t.
      (* does [p] end inside the body of [c], or not before its end? *)
      destruct (Z_lt_le_dec (len p) (len (chunkBody c))) as [Hin | Hout].
      * exists 0%nat. simpl. split; [lia|]. right. exists c, p. repeat split; auto.
        assert (Hp : p = Buf.take (len p) (chunkBody c)).
        { transitivity (Buf.take (len p) (p ++ r)).
          - symmetry. apply take_app_len. reflexivity.
          - rewrite <- E'. apply take_app_le. lia. }
        exists (Buf.drop (len p) (chunkBody c)). split.
        -- rewrite Hp at 1. symmetry. apply take_drop.
        -- intros E0. pose proof (len_nonneg p).
           assert (len (Buf.drop (len p) (chunkBody c)) = len (chunkBody c) - len p)
             by (apply len_drop; lia).
           rewrite E0, len_nil in *. lia.
      * assert (Hp : p = chunkBody c ++ Buf.drop (len (chunkBody c)) p).
        { rewrite <- (take_drop p (len (chunkBody c))) at 1. f_equal.
          transitivity (Buf.take (len (chunkBody c)) (p ++ r)).
          - symmetry. apply take_app_le. lia.
          - rewrite <- E'. apply take_app_len. reflexivity. }
        assert (Hs : strictPrefix (Buf.drop (len (chunkBody c)) p) (encChunks cs)).
        { exists r. split; [|exact Hr].
          rewrite Hp in E' at 1. rewrite <- app_assoc in E'.
          apply app_inv_head in E'. exact E'. }
        apply IH in Hs. destruct Hs as (k & Hk & Hcase).
        exists (S k). split; [simpl; lia|].
        destruct Hcase as [Hb | (c' & q & Hn & Hq & Hb)].
        -- left. simpl firstn. rewrite encChunks_cons. unfold encChunk. simpl.
           rewrite Hp, Hb. reflexivity.
        -- right. exists c', q. repeat split; auto.
           simpl firstn. rewrite encChunks_cons. unfold encChunk. simpl.
           rewrite Hp, Hb, <- app_assoc. reflexivity.
Qed.

(** * The decoding loop over a sequence of chunks *)

Section ChunkLoop.

Variable M : Type.
Variable msg : string.
Variable fields : M -> list byte -> Z -> Z -> Z -> Z -> Z -> M * outcome Z.

(** The chunks the switch knows, and what each does to the receiver. *)
Variable good : chunk -> Prop.
Variable upd : M -> chunk -> M.

Hypothesis good_tag : forall c, good c ->
  byte.unsigned (chunkTag c) < 128
  /\ (tagWireType (chunkTag c) =? 4) = false
  /\ (tagFieldNum (chunkTag c) <=? 0) = false.

Hypothesis fields_complete : forall c, good c ->
  forall m dAtA i rest,
    len dAtA < 2 ^ 63 ->
    cursor dAtA i (encChunk c ++ rest) ->
    fields m dAtA (len dAtA) i (tagFieldNum (chunkTag c)) (tagWireType (chunkTag c)) (i + 1)
    = (upd m c, Ok (i + len (encChunk c))).

Hypothesis fields_truncated : forall c, good c ->
  forall m dAtA i q,
    strictPrefix q (chunkBody c) ->
    i + len (encChunk c) < 2 ^ 63 ->
    cursor dAtA i (chunkTag c :: q) ->
    snd (fields m dAtA (len dAtA) i (tagFieldNum (chunkTag c))
           (tagWireType (chunkTag c)) (i + 1))
    = Fail ErrUnexpectedEOF.

Local Abbreviation loop := (unmarshal_loop msg fields).

Lemma loop_end fuel dAtA m i :
  cursor dAtA i [] -> loop fuel dAtA (len dAtA) m i = (m, Ok i).
Proof.
  intros H. apply cursor_nil in H. subst i.
  destruct fuel; simpl; rewrite Z.ltb_irrefl; reflexivity.
Qed.

(** One round of the loop on a one-byte tag. *)
Lemma loop_step fuel dAtA m i t rest :
  cursor dAtA i (t :: rest) ->
  byte.unsigned t < 128 ->
  (tagWireType t =? 4) = false ->
  (tagFieldNum t <=? 0) = false ->
  loop (S fuel) dAtA (len dAtA) m i
  = match fields m dAtA (len dAtA) i (tagFieldNum t) (tagWireType t) (i + 1) with
    | (m, Ok iNdEx) => loop fuel dAtA (len dAtA) m iNdEx
    | (m, Fail e) => (m, Fail e)
    | (m, Panic) => (m, Panic)
    | (m, OutOfFuel) => (m, OutOfFuel)
    end.
Proof.
  intros Hcur Ht Hw Hf. cbn [unmarshal_loop].
  pose proof (cursor_lt Hcur).
  destruct (Z.ltb_spec i (len dAtA)); [|lia].
  rewrite (decodeVarint_byte Ht Hcur).
  fold (tagFieldNum t). fold (tagWireType t).
  rewrite Hw, Hf. reflexivity.
Qed.

Lemma loop_chunks cs :
  forall fuel dAtA m i rest,
    Forall good cs -> len dAtA < 2 ^ 63 ->
    cursor dAtA i (encChunks cs ++ rest) ->
    (List.length cs <= fuel)%nat ->
    loop fuel dAtA (len dAtA) m i
    = loop (fuel - List.length cs) dAtA (len dAtA) (fold_left upd cs m)
        (i + len (encChunks cs)).
Proof.
  induction cs as [|c cs IH]; intros fuel dAtA m i rest Hg Hl Hcur Hf.
  - simpl. rewrite len_nil, Z.add_0_r, Nat.sub_0_r. reflexivity.
  - inversion Hg as [|? ? Hc Hcs]; subst.
    destruct fuel as [|fuel]; [simpl in Hf; lia|].
    rewrite encChunks_cons, <- app_assoc in Hcur.
    destruct (good_tag Hc) as (Ht & Hw & Hn).
    rewrite (@loop_step fuel dAtA m i (chunkTag c) (chunkBody c ++ encChunks cs ++ rest));
      [| exact Hcur | exact Ht | exact Hw | exact Hn].
    rewrite (fields_complete Hc m Hl Hcur).
    rewrite (IH fuel dAtA (upd m c) (i + len (encChunk c)) rest);
      [| exact Hcs | exact Hl | apply (cursor_app _ _ Hcur) | simpl in Hf; lia].
    rewrite encChunks_cons, len_app, Z.add_assoc. reflexivity.
Qed.

(** A buffer that is a sequence of known chunks decodes to the receiver
    updated by each of them in turn. *)
Lemma unmarshal_chunks cs m :
  Forall good cs -> len (encChunks cs) < 2 ^ 63 ->
  unmarshal msg fields m (encChunks cs) = (fold_left upd cs m, Ok tt).
Proof.
  intros Hg Hl. unfold unmarshal.
  rewrite (@loop_chunks cs _ (encChunks cs) m 0 []);
    [| exact Hg | exact Hl | rewrite app_nil_r; apply cursor_start | apply length_encChunks].
  rewrite loop_end.
  - simpl. destruct (Z.gtb_spec (len (encChunks cs)) (len (encChunks cs))); [lia | reflexivity].
  - exists (encChunks cs). rewrite app_nil_r. auto.
Qed.

(** The same buffer cut inside a chunk: the end of the input is unexpected. *)
Lemma unmarshal_chunks_truncated cs c q m :
  Forall good cs -> good c -> strictPrefix q (chunkBody c) ->
  len (encChunks cs ++ encChunk c) < 2 ^ 63 ->
  snd (unmarshal msg fields m (encChunks cs ++ chunkTag c :: q)) = Fail ErrUnexpectedEOF.
Proof.
  intros Hg Hc Hq Hl. unfold unmarshal.
  set (dAtA := encChunks cs ++ chunkTag c :: q).
  pose proof (strictPrefix_len Hq) as Hlq.
  rewrite len_app, len_encChunk in Hl.
  assert (Hd : len dAtA < 2 ^ 63).
  { unfold dAtA. rewrite len_app, len_cons. lia. }
  assert (Hfuel : (List.length cs < List.length dAtA)%nat).
  { unfold dAtA. rewrite length_app. pose proof (length_encChunks cs). simpl. lia. }
  rewrite (@loop_chunks cs _ dAtA m 0 (chunkTag c :: q));
    [| exact Hg | exact Hd | apply cursor_start | lia].
  destruct (List.length dAtA - List.length cs)%nat as [|fuel] eqn:Ef; [lia|].
  destruct (good_tag Hc) as (Ht & Hw & Hn).
  assert (Hcur : cursor dAtA (0 + len (encChunks cs)) (chunkTag c :: q)).
  { exists (encChunks cs). split; [reflexivity | lia]. }
  rewrite (loop_step fuel _ Hcur Ht Hw Hn).
  pose proof (@fields_truncated c Hc (fold_left upd cs m) dAtA (0 + len (encChunks cs)) q Hq) as Hf.
  rewrite len_encChunk in Hf. specialize (Hf ltac:(lia) Hcur).
  destruct (fields _ _ _ _ _ _ _) as [m' r]. simpl in Hf. subst r. reflexivity.
Qed.

(** Known chunks, then a field at which the switch returns an error. *)
Lemma unmarshal_chunks_fail cs t rest m m' e :
  Forall good cs ->
  len (encChunks cs ++ t :: rest) < 2 ^ 63 ->
  byte.unsigned t < 128 ->
  (tagWireType t =? 4) = false ->
  (tagFieldNum t <=? 0) = false ->
  fields (fold_left upd cs m) (encChunks cs ++ t :: rest)
    (len (encChunks cs ++ t :: rest)) (len (encChunks cs))
    (tagFieldNum t) (tagWireType t) (len (encChunks cs) + 1) = (m', Fail e) ->
  unmarshal msg fields m (encChunks cs ++ t :: rest) = (m', Fail e).
Proof.
  intros Hg Hl Ht Hw Hn Hf. unfold unmarshal.
  set (dAtA := encChunks cs ++ t :: rest) in *.
  assert (Hfuel : (List.length cs < List.length dAtA)%nat).
  { unfold dAtA. rewrite length_app. pose proof (length_encChunks cs). simpl. lia. }
  rewrite (@loop_chunks cs _ dAtA m 0 (t :: rest));
    [| exact Hg | exact Hl | apply cursor_start | lia].
  destruct (List.length dAtA - List.length cs)%nat as [|fuel] eqn:Ef; [lia|].
  assert (Hcur : cursor dAtA (0 + len (encChunks cs)) (t :: rest)).
  { exists (encChunks cs). split; [reflexivity | lia]. }
  rewrite (loop_step fuel _ Hcur Ht Hw Hn).
  rewrite Z.add_0_l, Hf. reflexivity.
Qed.

End ChunkLoop.

(** * The field readers on a chunk *)

Lemma strictPrefix_app_inv (A : Type) (q a b : list A) :
  strictPrefix q (a ++ b) ->
  strictPrefix q a \/ exists q', q = a ++ q' /\ strictPrefix q' b.
Proof.
  intros (r & E & Hr).
  destruct (Z_lt_le_dec (len q) (len a)) as [Hin | Hout].
  - left.
    assert (Hq : q = Buf.take (len q) a).
    { transitivity (Buf.take (len q) (q ++ r)).
      - symmetry. apply take_app_len. reflexivity.
      - rewrite <- E. apply take_app_le. lia. }
    exists (Buf.drop (len q) a). split.
    + rewrite Hq at 1. symmetry. apply take_drop.
    + intros E0. pose proof (len_nonneg q).
      assert (len (Buf.drop (len q) a) = len a - len q) by (apply len_drop; lia).
      rewrite E0, len_nil in *. lia.
  - right. exists (Buf.drop (len a) q).
    assert (Hq : q = a ++ Buf.drop (len a) q).
    { rewrite <- (take_drop q (len a)) at 1. f_equal.
      transitivity (Buf.take (len a) (q ++ r)).
      - symmetry. apply take_app_le. lia.
      - rewrite <- E. apply take_app_len. reflexivity. }
    split; [exact Hq|].
    exists r. split; [|exact Hr].
    rewrite Hq in E at 1. rewrite <- app_assoc in E.
    apply app_inv_head in E. exact E.
Qed.

Section Readers.

Variable M : Type.

Lemma scalarField_complete conv (set : M -> Z -> M) m dAtA i t v rest :
  lor_morphism conv -> 0 <= v < 2 ^ 64 ->
  cursor dAtA i (encChunk (CVarint t v) ++ rest) ->
  scalarField conv set m dAtA (len dAtA) (i + 1)
  = (set m (conv v), Ok (i + len (encChunk (CVarint t v)))).
Proof.
  intros Hc Hv Hcur. unfold scalarField.
  unfold encChunk in *. cbn [chunkTag chunkBody app] in *.
  apply cursor_cons in Hcur.
  erewrite decodeVarint_bytes by eauto.
  rewrite len_cons. do 2 f_equal. lia.
Qed.

Lemma scalarField_truncated conv (set : M -> Z -> M) m dAtA i t v q :
  strictPrefix q (varintBytes v) ->
  cursor dAtA i (t :: q) ->
  snd (scalarField conv set m dAtA (len dAtA) (i + 1)) = Fail ErrUnexpectedEOF.
Proof.
  intros Hq Hcur. unfold scalarField. apply cursor_cons in Hcur.
  assert (H : snd (decodeVarint conv dAtA (len dAtA) (i + 1)) = Fail ErrUnexpectedEOF)
    by (eapply decodeVarint_truncated; eauto).
  destruct (decodeVarint conv dAtA (len dAtA) (i + 1)) as [a r]. exact H.
Qed.

(** The length and the payload of a length-delimited chunk, read with
    either conversion of the length. *)
Lemma delimited_complete conv dAtA i t p rest :
  lor_morphism conv -> (forall x, 0 <= x < 2 ^ 63 -> conv x = x) ->
  len dAtA < 2 ^ 63 ->
  cursor dAtA i (encChunk (CBytes t p) ++ rest) ->
  let j := i + 1 + len (varintBytes (len p)) in
  decodeVarint conv dAtA (len dAtA) (i + 1) = (len p, Ok j)
  /\ int64 (len p) = len p
  /\ lengthDelimited dAtA (len dAtA) j (len p) = Ok (p, i + len (encChunk (CBytes t p))).
Proof.
  intros Hc Hid Hl Hcur j.
  pose proof (cursor_range Hcur) as [Hi Hr].
  unfold encChunk in *. cbn [chunkTag chunkBody app] in *.
  rewrite !len_cons, !len_app in *.
  pose proof (len_nonneg p). pose proof (len_nonneg rest).
  pose proof (len_nonneg (varintBytes (len p))).
  apply cursor_cons in Hcur. rewrite <- app_assoc in Hcur.
  erewrite decodeVarint_bytes; [| exact Hc | | exact Hcur]; [|lia].
  rewrite Hid by lia. rewrite int64_small by lia.
  apply cursor_app in Hcur.
  erewrite lengthDelimited_complete by eauto.
  repeat split; do 2 f_equal; lia.
Qed.

Lemma delimited_truncated conv dAtA i t p q :
  lor_morphism conv -> (forall x, 0 <= x < 2 ^ 63 -> conv x = x) ->
  strictPrefix q (chunkBody (CBytes t p)) ->
  i + len (encChunk (CBytes t p)) < 2 ^ 63 ->
  cursor dAtA i (t :: q) ->
  snd (decodeVarint conv dAtA (len dAtA) (i + 1)) = Fail ErrUnexpectedEOF
  \/ exists j,
      decodeVarint conv dAtA (len dAtA) (i + 1) = (len p, Ok j)
      /\ int64 (len p) = len p
      /\ lengthDelimited dAtA (len dAtA) j (len p) = Fail ErrUnexpectedEOF.
Proof.
  intros Hc Hid Hq Hl Hcur.
  pose proof (cursor_range Hcur) as [Hi Hr].
  unfold encChunk in *. cbn [chunkTag chunkBody app] in *.
  rewrite !len_cons, ?len_app in *.
  pose proof (len_nonneg p). pose proof (len_nonneg q).
  pose proof (len_nonneg (varintBytes (len p))).
  apply cursor_cons in Hcur.
  apply strictPrefix_app_inv in Hq. destruct Hq as [Hq | (q' & -> & Hq)].
  - left. eapply decodeVarint_truncated; eauto.
  - right. exists (i + 1 + len (varintBytes (len p))).
    rewrite len_app in *.
    erewrite decodeVarint_bytes; [| exact Hc | | exact Hcur]; [|lia].
    rewrite Hid by lia. rewrite int64_small by lia.
    repeat split. apply cursor_app in Hcur.
    eapply lengthDelimited_truncated; [exact Hcur | | lia].
    apply (strictPrefix_len Hq).
Qed.

Lemma stringField_complete (set : M -> string -> M) m dAtA i t p rest :
  len dAtA < 2 ^ 63 ->
  cursor dAtA i (encChunk (CBytes t p) ++ rest) ->
  stringField set m dAtA (len dAtA) (i + 1)
  = (set m (stringOf p), Ok (i + len (encChunk (CBytes t p)))).
Proof.
  intros Hl Hcur. unfold stringField.
  edestruct (@delimited_complete uint64) as (E1 & E2 & E3);
    [exact uint64_lor | intros x Hx; apply uint64_small; lia | exact Hl | exact Hcur |].
  rewrite E1, E2, E3. reflexivity.
Qed.

Lemma stringField_truncated (set : M -> string -> M) m dAtA i t p q :
  strictPrefix q (chunkBody (CBytes t p)) ->
  i + len (encChunk (CBytes t p)) < 2 ^ 63 ->
  cursor dAtA i (t :: q) ->
  snd (stringField set m dAtA (len dAtA) (i + 1)) = Fail ErrUnexpectedEOF.
Proof.
  intros Hq Hl Hcur. unfold stringField.
  edestruct (@delimited_truncated uint64) as [E | (j & E1 & E2 & E3)];
    [exact uint64_lor | intros x Hx; apply uint64_small; lia | exact Hq | exact Hl | exact Hcur | |].
  - destruct (decodeVarint uint64 dAtA (len dAtA) (i + 1)) as [a r].
    simpl in E. subst r. reflexivity.
  - rewrite E1, E2, E3. reflexivity.
Qed.

End Readers.

Lemma int64_id_small x : 0 <= x < 2 ^ 63 -> int64 x = x.
Proof. apply int64_small. Qed.

(** * BridgeValidator *)

Lemma BridgeValidator_good_tag c :
  BridgeValidator_good c ->
  byte.unsigned (chunkTag c) < 128
  /\ (tagWireType (chunkTag c) =? 4) = false
  /\ (tagFieldNum (chunkTag c) <=? 0) = false.
Proof.
  destruct c as [t v | t p]; simpl.
  - intros [-> _]. repeat split; reflexivity.
  - intros ->. repeat split; reflexivity.
Qed.

Lemma BridgeValidator_fields_complete c :
  BridgeValidator_good c ->
  forall m dAtA i rest,
    len dAtA < 2 ^ 63 ->
    cursor dAtA i (encChunk c ++ rest) ->
    BridgeValidator_fields m dAtA (len dAtA) i
      (tagFieldNum (chunkTag c)) (tagWireType (chunkTag c)) (i + 1)
    = (BridgeValidator_upd m c, Ok (i + len (encChunk c))).
Proof.
  destruct c as [t v | t p]; simpl BridgeValidator_good; intros Hg m dAtA i rest Hl Hcur.
  - destruct Hg as [-> Hv].
    change (tagFieldNum (chunkTag (CVarint Byte.x08 v))) with 1.
    change (tagWireType (chunkTag (CVarint Byte.x08 v))) with 0.
    unfold BridgeValidator_fields. cbv beta iota. change (negb (0 =? 0)) with false. cbv iota.
    erewrite scalarField_complete; [| exact uint64_lor | exact Hv | exact Hcur].
    rewrite uint64_small by exact Hv. reflexivity.
  - subst t.
    change (tagFieldNum (chunkTag (CBytes Byte.x12 p))) with 2.
    change (tagWireType (chunkTag (CBytes Byte.x12 p))) with 2.
    unfold BridgeValidator_fields. cbv beta iota. change (negb (2 =? 2)) with false. cbv iota.
    erewrite stringField_complete by eauto. reflexivity.
Qed.

Lemma BridgeValidator_fields_truncated c :
  BridgeValidator_good c ->
  forall m dAtA i q,
    strictPrefix q (chunkBody c) ->
    i + len (encChunk c) < 2 ^ 63 ->
    cursor dAtA i (chunkTag c :: q) ->
    snd (BridgeValidator_fields m dAtA (len dAtA) i
           (tagFieldNum (chunkTag c)) (tagWireType (chunkTag c)) (i + 1))
    = Fail ErrUnexpectedEOF.
Proof.
  destruct c as [t v | t p]; simpl BridgeValidator_good; intros Hg m dAtA i q Hq Hl Hcur.
  - destruct Hg as [-> Hv].
    change (tagFieldNum (chunkTag (CVarint Byte.x08 v))) with 1.
    change (tagWireType (chunkTag (CVarint Byte.x08 v))) with 0.
    unfold BridgeValidator_fields. cbv beta iota. change (negb (0 =? 0)) with false. cbv iota.
    eapply scalarField_truncated; eauto.
  - subst t.
    change (tagFieldNum (chunkTag (CBytes Byte.x12 p))) with 2.
    change (tagWireType (chunkTag (CBytes Byte.x12 p))) with 2.
    unfold BridgeValidator_fields. cbv beta iota. change (negb (2 =? 2)) with false. cbv iota.
    eapply stringField_truncated; eauto.
Qed.

(** * Valset *)

Lemma Valset_good_tag c :
  Valset_good c ->
  byte.unsigned (chunkTag c) < 128
  /\ (tagWireType (chunkTag c) =? 4) = false
  /\ (tagFieldNum (chunkTag c) <=? 0) = false.
Proof.
  destruct c as [t v | t p]; simpl.
  - intros [[-> | ->] _]; repeat split; reflexivity.
  - intros [-> _]. repeat split; reflexivity.
Qed.

Lemma Valset_fields_complete c :
  Valset_good c ->
  forall m dAtA i rest,
    len dAtA < 2 ^ 63 ->
    cursor dAtA i (encChunk c ++ rest) ->
    Valset_fields m dAtA (len dAtA) i
      (tagFieldNum (chunkTag c)) (tagWireType (chunkTag c)) (i + 1)
    = (Valset_upd m c, Ok (i + len (encChunk c))).
Proof.
  destruct c as [t v | t p]; simpl Valset_good; intros Hg m dAtA i rest Hl Hcur.
  - destruct Hg as [[-> | ->] Hv].
    + change (tagFieldNum (chunkTag (CVarint Byte.x08 v))) with 1.
      change (tagWireType (chunkTag (CVarint Byte.x08 v))) with 0.
      unfold Valset_fields. cbv beta iota. change (negb (0 =? 0)) with false. cbv iota.
      erewrite scalarField_complete; [| exact uint64_lor | exact Hv | exact Hcur].
      rewrite uint64_small by exact Hv. reflexivity.
    + change (tagFieldNum (chunkTag (CVarint Byte.x18 v))) with 3.
      change (tagWireType (chunkTag (CVarint Byte.x18 v))) with 0.
      unfold Valset_fields. cbv beta iota. change (negb (0 =? 0)) with false. cbv iota.
      erewrite scalarField_complete; [| exact uint64_lor | exact Hv | exact Hcur].
      rewrite uint64_small by exact Hv. reflexivity.
  - destruct Hg as [-> Hok].
    change (tagFieldNum (chunkTag (CBytes Byte.x12 p))) with 2.
    change (tagWireType (chunkTag (CBytes Byte.x12 p))) with 2.
    unfold Valset_fields. cbv beta iota. change (negb (2 =? 2)) with false. cbv iota.
    edestruct (@delimited_complete int64) as (E1 & E2 & E3);
      [exact int64_lor | exact int64_id_small | exact Hl | exact Hcur |].
    rewrite E1, E3. cbv beta iota.
    unfold Valset_upd.
    destruct (BridgeValidator_Unmarshal BridgeValidator_zero p) as [e r].
    simpl in Hok. subst r. reflexivity.
Qed.

Lemma Valset_fields_truncated c :
  Valset_good c ->
  forall m dAtA i q,
    strictPrefix q (chunkBody c) ->
    i + len (encChunk c) < 2 ^ 63 ->
    cursor dAtA i (chunkTag c :: q) ->
    snd (Valset_fields m dAtA (len dAtA) i
           (tagFieldNum (chunkTag c)) (tagWireType (chunkTag c)) (i + 1))
    = Fail ErrUnexpectedEOF.
Proof.
  destruct c as [t v | t p]; simpl Valset_good; intros Hg m dAtA i q Hq Hl Hcur.
  - destruct Hg as [[-> | ->] Hv].
    + change (tagFieldNum (chunkTag (CVarint Byte.x08 v))) with 1.
      change (tagWireType (chunkTag (CVarint Byte.x08 v))) with 0.
      unfold Valset_fields. cbv beta iota. change (negb (0 =? 0)) with false. cbv iota.
      eapply scalarField_truncated; eauto.
    + change (tagFieldNum (chunkTag (CVarint Byte.x18 v))) with 3.
      change (tagWireType (chunkTag (CVarint Byte.x18 v))) with 0.
      unfold Valset_fields. cbv beta iota. change (negb (0 =? 0)) with false. cbv iota.
      eapply scalarField_truncated; eauto.
  - destruct Hg as [-> Hok].
    change (tagFieldNum (chunkTag (CBytes Byte.x12 p))) with 2.
    change (tagWireType (chunkTag (CBytes Byte.x12 p))) with 2.
    unfold Valset_fields. cbv beta iota. change (negb (2 =? 2)) with false. cbv iota.
    edestruct (@delimited_truncated int64) as [E | (j & E1 & E2 & E3)];
      [exact int64_lor | exact int64_id_small | exact Hq | exact Hl | exact Hcur | |].
    + destruct (decodeVarint int64 dAtA (len dAtA) (i + 1)) as [a r].
      simpl in E. subst r. reflexivity.
    + rewrite E1, E3. reflexivity.
Qed.

(** * GenericClaim *)

Lemma GenericClaim_good_tag c :
  GenericClaim_good c ->
  byte.unsigned (chunkTag c) < 128
  /\ (tagWireType (chunkTag c) =? 4) = false
  /\ (tagFieldNum (chunkTag c) <=? 0) = false.
Proof.
  destruct c as [t v | t p]; simpl.
  - intros [[-> | ->] _]; repeat split; reflexivity.
  - intros [-> | ->]; repeat split; reflexivity.
Qed.

Lemma hash_assigned (h : slice byte) (s : list byte) :
  match appendReset h s with None => Some [] | Some _ => appendReset h s end = Some s.
Proof. destruct h, s; reflexivity. Qed.

Lemma GenericClaim_fields_complete c :
  GenericClaim_good c ->
  forall m dAtA i rest,
    len dAtA < 2 ^ 63 ->
    cursor dAtA i (encChunk c ++ rest) ->
    GenericClaim_fields m dAtA (len dAtA) i
      (tagFieldNum (chunkTag c)) (tagWireType (chunkTag c)) (i + 1)
    = (GenericClaim_upd m c, Ok (i + len (encChunk c))).
Proof.
  destruct c as [t v | t p]; simpl GenericClaim_good; intros Hg m dAtA i rest Hl Hcur.
  - destruct Hg as [[-> | ->] Hv].
    + change (tagFieldNum (chunkTag (CVarint Byte.x08 v))) with 1.
      change (tagWireType (chunkTag (CVarint Byte.x08 v))) with 0.
      unfold GenericClaim_fields. cbv beta iota. change (negb (0 =? 0)) with false. cbv iota.
      erewrite scalarField_complete; [| exact uint64_lor | exact Hv | exact Hcur].
      rewrite uint64_small by exact Hv. reflexivity.
    + change (tagFieldNum (chunkTag (CVarint Byte.x10 v))) with 2.
      change (tagWireType (chunkTag (CVarint Byte.x10 v))) with 0.
      unfold GenericClaim_fields. cbv beta iota. change (negb (0 =? 0)) with false. cbv iota.
      erewrite scalarField_complete; [| exact int32_lor | exact Hv | exact Hcur].
      reflexivity.
  - destruct Hg as [-> | ->].
    + change (tagFieldNum (chunkTag (CBytes Byte.x1a p))) with 3.
      change (tagWireType (chunkTag (CBytes Byte.x1a p))) with 2.
      unfold GenericClaim_fields. cbv beta iota. change (negb (2 =? 2)) with false. cbv iota.
      edestruct (@delimited_complete int64) as (E1 & E2 & E3);
        [exact int64_lor | exact int64_id_small | exact Hl | exact Hcur |].
      rewrite E1, E3. cbv beta iota. rewrite hash_assigned. reflexivity.
    + change (tagFieldNum (chunkTag (CBytes Byte.x22 p))) with 4.
      change (tagWireType (chunkTag (CBytes Byte.x22 p))) with 2.
      unfold GenericClaim_fields. cbv beta iota. change (negb (2 =? 2)) with false. cbv iota.
      erewrite stringField_complete by eauto. reflexivity.
Qed.

Lemma GenericClaim_fields_truncated c :
  GenericClaim_good c ->
  forall m dAtA i q,
    strictPrefix q (chunkBody c) ->
    i + len (encChunk c) < 2 ^ 63 ->
    cursor dAtA i (chunkTag c :: q) ->
    snd (GenericClaim_fields m dAtA (len dAtA) i
           (tagFieldNum (chunkTag c)) (tagWireType (chunkTag c)) (i + 1))
    = Fail ErrUnexpectedEOF.
Proof.
  destruct c as [t v | t p]; simpl GenericClaim_good; intros Hg m dAtA i q Hq Hl Hcur.
  - destruct Hg as [[-> | ->] Hv].
    + change (tagFieldNum (chunkTag (CVarint Byte.x08 v))) with 1.
      change (tagWireType (chunkTag (CVarint Byte.x08 v))) with 0.
      unfold GenericClaim_fields. cbv beta iota. change (negb (0 =? 0)) with false. cbv iota.
      eapply scalarField_truncated; eauto.
    + change (tagFieldNum (chunkTag (CVarint Byte.x10 v))) with 2.
      change (tagWireType (chunkTag (CVarint Byte.x10 v))) with 0.
      unfold GenericClaim_fields. cbv beta iota. change (negb (0 =? 0)) with false. cbv iota.
      eapply scalarField_truncated; eauto.
  - destruct Hg as [-> | ->].
    + change (tagFieldNum (chunkTag (CBytes Byte.x1a p))) with 3.
      change (tagWireType (chunkTag (CBytes Byte.x1a p))) with 2.
      unfold GenericClaim_fields. cbv beta iota. change (negb (2 =? 2)) with false. cbv iota.
      edestruct (@delimited_truncated int64) as [E | (j & E1 & E2 & E3)];
        [exact int64_lor | exact int64_id_small | exact Hq | exact Hl | exact Hcur | |].
      * destruct (decodeVarint int64 dAtA (len dAtA) (i + 1)) as [a r].
        simpl in E. subst r. reflexivity.
      * rewrite E1, E3. reflexivity.
    + change (tagFieldNum (chunkTag (CBytes Byte.x22 p))) with 4.
      change (tagWireType (chunkTag (CBytes Byte.x22 p))) with 2.
      unfold GenericClaim_fields. cbv beta iota. change (negb (2 =? 2)) with false. cbv iota.
      eapply stringField_truncated; eauto.
Qed.

(** * Decoding a sequence of chunks, record by record *)

Lemma BridgeValidator_Unmarshal_chunks cs m :
  Forall BridgeValidator_good cs -> len (encChunks cs) < 2 ^ 63 ->
  BridgeValidator_Unmarshal m (encChunks cs) = (fold_left BridgeValidator_upd cs m, Ok tt).
Proof.
  apply unmarshal_chunks.
  - exact BridgeValidator_good_tag.
  - exact BridgeValidator_fields_complete.
Qed.

Lemma Valset_Unmarshal_chunks cs m :
  Forall Valset_good cs -> len (encChunks cs) < 2 ^ 63 ->
  Valset_Unmarshal m (encChunks cs) = (fold_left Valset_upd cs m, Ok tt).
Proof.
  apply unmarshal_chunks.
  - exact Valset_good_tag.
  - exact Valset_fields_complete.
Qed.

Lemma GenericClaim_Unmarshal_chunks cs m :
  Forall GenericClaim_good cs -> len (encChunks cs) < 2 ^ 63 ->
  GenericClaim_Unmarshal m (encChunks cs) = (fold_left GenericClaim_upd cs m, Ok tt).
Proof.
  apply unmarshal_chunks.
  - exact GenericClaim_good_tag.
  - exact GenericClaim_fields_complete.
Qed.

(** * The chunks of a valid record *)

Lemma stringOf_bytesOf s : stringOf (bytesOf s) = s.
Proof. apply string_of_list_byte_of_string. Qed.

Lemma bytesOf_empty s : (len (bytesOf s) >? 0) = false -> s = ""%string.
Proof.
  intros H. destruct (Z.gtb_spec (len (bytesOf s)) 0); [discriminate|].
  pose proof (len_nonneg (bytesOf s)).
  assert (E : bytesOf s = []) by (apply len_zero_nil; lia).
  rewrite <- (stringOf_bytesOf s), E. reflexivity.
Qed.

Lemma isUint64_range x : isUint64 x = true -> 0 <= x < 2 ^ 64.
Proof.
  unfold isUint64. rewrite andb_true_iff, Z.leb_le, Z.ltb_lt. tauto.
Qed.

Lemma isInt32_range x : isInt32 x = true -> - 2 ^ 31 <= x < 2 ^ 31.
Proof.
  unfold isInt32. rewrite andb_true_iff, Z.leb_le, Z.ltb_lt. tauto.
Qed.

Lemma fitsInt_range (A : Type) (s : list A) : fitsInt s = true -> len s < 2 ^ 63.
Proof. unfold fitsInt. rewrite Z.ltb_lt. tauto. Qed.

Lemma BridgeValidator_valid_inv m :
  BridgeValidator_valid m = true ->
  0 <= Power m < 2 ^ 64 /\ len (BridgeValidator_wire m) < 2 ^ 63.
Proof.
  unfold BridgeValidator_valid. rewrite andb_true_iff. intros [H1 H2].
  split; [apply isUint64_range | apply fitsInt_range]; assumption.
Qed.

Lemma varintChunk_good (good : chunk -> Prop) t v :
  (forall x, 0 <= x < 2 ^ 64 -> good (CVarint t x)) ->
  Forall good (varintChunk t v).
Proof.
  intros H. unfold varintChunk. destruct (v =? 0); constructor; [|constructor].
  apply H. apply uint64_range.
Qed.

Lemma bytesChunk_good (good : chunk -> Prop) t s :
  good (CBytes t s) -> Forall good (bytesChunk t s).
Proof.
  intros H. unfold bytesChunk. destruct (len s >? 0); constructor; [exact H | constructor].
Qed.

Lemma BridgeValidator_chunks_good m : Forall BridgeValidator_good (BridgeValidator_chunks m).
Proof.
  unfold BridgeValidator_chunks. apply Forall_app. split.
  - apply varintChunk_good. intros x Hx. simpl. auto.
  - apply bytesChunk_good. reflexivity.
Qed.

Lemma fold_varintChunk (M : Type) (upd : M -> chunk -> M) t v m :
  fold_left upd (varintChunk t v) m = if v =? 0 then m else upd m (CVarint t (uint64 v)).
Proof. unfold varintChunk. destruct (v =? 0); reflexivity. Qed.

Lemma fold_bytesChunk (M : Type) (upd : M -> chunk -> M) t s m :
  fold_left upd (bytesChunk t s) m = if len s >? 0 then upd m (CBytes t s) else m.
Proof. unfold bytesChunk. destruct (len s >? 0); reflexivity. Qed.

Lemma BridgeValidator_fold m :
  0 <= Power m < 2 ^ 64 ->
  fold_left BridgeValidator_upd (BridgeValidator_chunks m) BridgeValidator_zero = m.
Proof.
  intros Hp. unfold BridgeValidator_chunks.
  rewrite fold_left_app, fold_varintChunk, fold_bytesChunk.
  destruct m as [p a]. simpl in *.
  destruct (len (bytesOf a) >? 0) eqn:Ea; destruct (Z.eqb_spec p 0) as [-> | Hp0]; simpl;
    rewrite ?stringOf_bytesOf, ?uint64_small by lia;
    try (apply bytesOf_empty in Ea; subst a); reflexivity.
Qed.

(** Decoding the wire form of a valid BridgeValidator gives it back. *)
Lemma BridgeValidator_Unmarshal_wire m :
  BridgeValidator_valid m = true ->
  BridgeValidator_Unmarshal BridgeValidator_zero (BridgeValidator_wire m) = (m, Ok tt).
Proof.
  intros Hv. apply BridgeValidator_valid_inv in Hv. destruct Hv as [Hp Hl].
  unfold BridgeValidator_wire in *.
  rewrite BridgeValidator_Unmarshal_chunks;
    [| apply BridgeValidator_chunks_good | exact Hl].
  rewrite BridgeValidator_fold by exact Hp. reflexivity.
Qed.

(** * Valset: the wire form decodes to the record *)

Lemma member_valid_inv e :
  member_valid e = true -> exists m, e = Some m /\ BridgeValidator_valid m = true.
Proof. destruct e as [m|]; simpl; [eauto | discriminate]. Qed.

Lemma memberChunk_good e : member_valid e = true -> Valset_good (memberChunk e).
Proof.
  intros H. apply member_valid_inv in H. destruct H as (m & -> & Hm).
  simpl. split; [reflexivity|].
  rewrite BridgeValidator_Unmarshal_wire by exact Hm. reflexivity.
Qed.

Lemma Valset_valid_inv m :
  Valset_valid m = true ->
  0 <= Nonce m < 2 ^ 64 /\ 0 <= Height m < 2 ^ 64
  /\ Forall (fun e => member_valid e = true) (elems (Members m))
  /\ len (Valset_wire m) < 2 ^ 63.
Proof.
  unfold Valset_valid. rewrite !andb_true_iff. intros [[[H1 H2] H3] H4].
  repeat split; try (apply isUint64_range; assumption).
  - apply Forall_forall. apply forallb_forall. exact H3.
  - apply fitsInt_range. exact H4.
Qed.

Lemma Valset_chunks_good m :
  Forall (fun e => member_valid e = true) (elems (Members m)) ->
  Forall Valset_good (Valset_chunks m).
Proof.
  intros Hm. unfold Valset_chunks. rewrite !Forall_app. repeat split.
  - apply varintChunk_good. intros x Hx. simpl. auto.
  - apply Forall_map. eapply Forall_impl; [|exact Hm].
    intros e He. apply memberChunk_good. exact He.
  - apply varintChunk_good. intros x Hx. simpl. auto.
Qed.

Lemma Valset_fold_members ms :
  Forall (fun e => member_valid e = true) ms ->
  forall m,
    fold_left Valset_upd (map memberChunk ms) m
    = mkValset (Nonce m)
        (match ms with [] => Members m | _ => Some (elems (Members m) ++ ms) end)
        (Height m).
Proof.
  induction 1 as [|e ms He Hms IH]; intros m.
  - destruct m; reflexivity.
  - apply member_valid_inv in He. destruct He as (b & -> & Hb).
    cbn [map fold_left]. rewrite IH.
    cbn [Valset_upd memberChunk Nonce Members Height].
    rewrite BridgeValidator_Unmarshal_wire by exact Hb.
    cbn [fst append1 elems]. f_equal.
    destruct ms; [reflexivity|]. rewrite <- app_assoc. reflexivity.
Qed.

Lemma Valset_fold m :
  0 <= Nonce m < 2 ^ 64 -> 0 <= Height m < 2 ^ 64 ->
  Forall (fun e => member_valid e = true) (elems (Members m)) ->
  fold_left Valset_upd (Valset_chunks m) Valset_zero
  = mkValset (Nonce m) (nilIfEmpty (Members m)) (Height m).
Proof.
  intros Hn Hh Hm. unfold Valset_chunks.
  rewrite !fold_left_app, !fold_varintChunk, Valset_fold_members by exact Hm.
  destruct m as [n ms h]. cbn [Nonce Members Height] in *.
  destruct (Z.eqb_spec n 0) as [-> | Hn0]; destruct (Z.eqb_spec h 0) as [-> | Hh0];
    cbn [Valset_upd Valset_zero Nonce Members Height elems app];
    change (tagFieldNum Byte.x08 =? 1) with true;
    change (tagFieldNum Byte.x18 =? 1) with false; cbv iota;
    cbn [Nonce Members Height elems app];
    rewrite ?uint64_small by lia; f_equal; destruct ms as [[|? ?]|]; reflexivity.
Qed.

Lemma Valset_Unmarshal_wire m :
  Valset_valid m = true ->
  Valset_Unmarshal Valset_zero (Valset_wire m)
  = (mkValset (Nonce m) (nilIfEmpty (Members m)) (Height m), Ok tt).
Proof.
  intros Hv. apply Valset_valid_inv in Hv. destruct Hv as (Hn & Hh & Hm & Hl).
  unfold Valset_wire in *.
  rewrite Valset_Unmarshal_chunks; [| apply Valset_chunks_good; exact Hm | exact Hl].
  rewrite Valset_fold by assumption. reflexivity.
Qed.

(** * GenericClaim: the wire form decodes to the record *)

Lemma GenericClaim_valid_inv m :
  GenericClaim_valid m = true ->
  0 <= EventNonce m < 2 ^ 64 /\ - 2 ^ 31 <= ClaimType m < 2 ^ 31
  /\ len (GenericClaim_wire m) < 2 ^ 63.
Proof.
  unfold GenericClaim_valid. rewrite !andb_true_iff. intros [[H1 H2] H3].
  repeat split; try (apply isUint64_range; assumption);
    try (apply isInt32_range; assumption).
  apply fitsInt_range. exact H3.
Qed.

Lemma GenericClaim_chunks_good m : Forall GenericClaim_good (GenericClaim_chunks m).
Proof.
  unfold GenericClaim_chunks. rewrite !Forall_app. repeat split.
  - apply varintChunk_good. intros x Hx. simpl. auto.
  - apply varintChunk_good. intros x Hx. simpl. auto.
  - apply bytesChunk_good. simpl. auto.
  - apply bytesChunk_good. simpl. auto.
Qed.

Lemma elems_empty (A : Type) (s : slice A) : (len (elems s) >? 0) = false -> nilIfEmpty s = None.
Proof.
  destruct s as [[|x l]|]; simpl; try reflexivity.
  rewrite len_cons. pose proof (len_nonneg l).
  destruct (Z.gtb_spec (1 + len l) 0); [discriminate | lia].
Qed.

Lemma elems_nonempty (A : Type) (s : slice A) :
  (len (elems s) >? 0) = true -> Some (elems s) = nilIfEmpty s.
Proof.
  destruct s as [[|x l]|]; simpl; try reflexivity; rewrite len_nil; discriminate.
Qed.

Lemma GenericClaim_fold m :
  0 <= EventNonce m < 2 ^ 64 -> - 2 ^ 31 <= ClaimType m < 2 ^ 31 ->
  fold_left GenericClaim_upd (GenericClaim_chunks m) GenericClaim_zero
  = mkGenericClaim (EventNonce m) (ClaimType m) (nilIfEmpty (Hash m)) (EventClaimer m).
Proof.
  intros Hn Hc. unfold GenericClaim_chunks.
  rewrite !fold_left_app, !fold_varintChunk, !fold_bytesChunk.
  destruct m as [n c h s]. cbn [EventNonce ClaimType Hash EventClaimer] in *.
  destruct (Z.eqb_spec n 0) as [-> | Hn0]; destruct (Z.eqb_spec c 0) as [-> | Hc0];
    destruct (len (elems h) >? 0) eqn:Eh; destruct (len (bytesOf s) >? 0) eqn:Es;
    cbn [GenericClaim_upd GenericClaim_zero EventNonce ClaimType Hash EventClaimer];
    change (tagFieldNum Byte.x08 =? 1) with true;
    change (tagFieldNum Byte.x10 =? 1) with false;
    change (tagFieldNum Byte.x1a =? 3) with true;
    change (tagFieldNum Byte.x22 =? 3) with false; cbv iota;
    cbn [EventNonce ClaimType Hash EventClaimer];
    rewrite ?stringOf_bytesOf, ?int32_uint64, ?uint64_small by lia;
    try (apply bytesOf_empty in Es; subst s);
    try (apply elems_empty in Eh; rewrite Eh);
    try (apply elems_nonempty in Eh; rewrite <- Eh);
    reflexivity.
Qed.

Lemma GenericClaim_Unmarshal_wire m :
  GenericClaim_valid m = true ->
  GenericClaim_Unmarshal GenericClaim_zero (GenericClaim_wire m)
  = (mkGenericClaim (EventNonce m) (ClaimType m) (nilIfEmpty (Hash m)) (EventClaimer m), Ok tt).
Proof.
  intros Hv. apply GenericClaim_valid_inv in Hv. destruct Hv as (Hn & Hc & Hl).
  unfold GenericClaim_wire in *.
  rewrite GenericClaim_Unmarshal_chunks; [| apply GenericClaim_chunks_good | exact Hl].
  rewrite GenericClaim_fold by assumption. reflexivity.
Qed.

(** * The writer leaves the wire form in the buffer *)

Lemma pushed_refl w : 0 <= snd w -> pushed w [] w.
Proof. intros H. unfold pushed. rewrite len_nil. repeat split; auto; lia. Qed.

Lemma pushed_trans w a w1 b w2 :
  pushed w a w1 -> pushed w1 b w2 -> pushed w (b ++ a) w2.
Proof.
  intros (L1 & I1 & P1 & D1) (L2 & I2 & P2 & D2). unfold pushed.
  rewrite len_app, <- app_assoc, <- D1, D2. repeat split; auto; lia.
Qed.

Lemma store_pushed dAtA i b :
  1 <= i <= len dAtA ->
  exists d, Buf.store dAtA (i - 1) b = Some d /\ pushed (dAtA, i) [b] (d, i - 1).
Proof.
  intros H. rewrite store_inside by lia. eexists. split; [reflexivity|].
  unfold pushed. cbn [fst snd]. rewrite len_cons, len_nil.
  replace (i - 1 + 1) with i by lia.
  repeat split; try lia.
  - rewrite len_app, len_cons, len_take, len_drop by lia. lia.
  - rewrite drop_app_len by (rewrite len_take; lia). reflexivity.
Qed.

Lemma copyAt_pushed dAtA i src :
  len src <= i <= len dAtA ->
  exists d, Buf.copyAt dAtA (i - len src) src = Some d /\ pushed (dAtA, i) src (d, i - len src).
Proof.
  intros H. pose proof (len_nonneg src). unfold Buf.copyAt.
  replace (0 <=? i - len src) with true by (symmetry; apply Z.leb_le; lia).
  replace (i - len src <=? len dAtA) with true by (symmetry; apply Z.leb_le; lia).
  cbn [andb]. rewrite Z.min_r by lia. rewrite (@take_all _ src (len src)) by lia.
  replace (i - len src + len src) with i by lia.
  eexists. split; [reflexivity|].
  unfold pushed. cbn [fst snd].
  repeat split; try lia.
  - rewrite !len_app, len_take, len_drop by lia. lia.
  - rewrite drop_app_len by (rewrite len_take; lia). reflexivity.
Qed.

Lemma encodeVarintTypes_pushed dAtA i v :
  0 <= v < 2 ^ 64 -> sovTypes v <= i <= len dAtA ->
  exists d, encodeVarintTypes dAtA i v = Ok (d, i - sovTypes v)
            /\ pushed (dAtA, i) (varintBytes v) (d, i - sovTypes v).
Proof.
  intros Hv Hi. pose proof (sovTypes_bounds Hv). pose proof (len_varintBytes Hv) as Hlen.
  rewrite encodeVarintTypes_spec by assumption.
  eexists. split; [reflexivity|].
  unfold pushed. cbn [fst snd].
  repeat split; try lia.
  - rewrite !len_app, len_take, len_drop by lia. lia.
  - rewrite drop_app_len by (rewrite len_take; lia). reflexivity.
Qed.

Lemma putVarintField_pushed t v dAtA i :
  0 <= v < 2 ^ 64 -> len (encChunk (CVarint t v)) <= i <= len dAtA ->
  exists w', putVarintField t v (dAtA, i) = Ok w'
             /\ pushed (dAtA, i) (encChunk (CVarint t v)) w'.
Proof.
  intros Hv Hi. unfold encChunk in *. cbn [chunkTag chunkBody] in *.
  rewrite len_cons, len_varintBytes in Hi by exact Hv.
  pose proof (sovTypes_bounds Hv).
  unfold putVarintField.
  destruct (@encodeVarintTypes_pushed dAtA i v Hv ltac:(lia)) as (d & E & P).
  rewrite E. cbn [bind].
  destruct P as (L1 & I1 & P1 & D1). cbn [fst snd] in *.
  destruct (@store_pushed d (i - sovTypes v) t ltac:(lia)) as (d' & E' & P').
  rewrite E'. cbn [orPanic bind].
  eexists. split; [reflexivity|].
  apply (pushed_trans (w1 := (d, i - sovTypes v)) (a := varintBytes v) (b := [t])).
  - unfold pushed. cbn [fst snd]. rewrite len_varintBytes by exact Hv. auto.
  - exact P'.
Qed.

Lemma putBytesField_pushed t p dAtA i :
  len (encChunk (CBytes t p)) <= i <= len dAtA -> len dAtA < 2 ^ 63 ->
  exists w', putBytesField t p (dAtA, i) = Ok w'
             /\ pushed (dAtA, i) (encChunk (CBytes t p)) w'.
Proof.
  intros Hi Hl. pose proof (len_nonneg p).
  assert (Hi' : len (encChunk (CVarint t (len p))) + len p <= i).
  { unfold encChunk in *. cbn [chunkTag chunkBody] in *.
    rewrite !len_cons, ?len_app in *. lia. }
  pose proof (len_nonneg (encChunk (CVarint t (len p)))).
  unfold putBytesField.
  destruct (@copyAt_pushed dAtA i p ltac:(lia)) as (d & E & P).
  rewrite E. cbn [orPanic bind].
  rewrite uint64_small by lia.
  destruct P as (L1 & I1 & P1 & D1). cbn [fst snd] in *.
  destruct (@putVarintField_pushed t (len p) d (i - len p) ltac:(lia) ltac:(lia))
    as (w' & E' & P').
  rewrite E'. exists w'. split; [reflexivity|].
  replace (encChunk (CBytes t p)) with (encChunk (CVarint t (len p)) ++ p)
    by (unfold encChunk; cbn [chunkTag chunkBody app]; reflexivity).
  apply (pushed_trans (w1 := (d, i - len p)) (a := p)).
  - unfold pushed. cbn [fst snd]. auto.
  - exact P'.
Qed.

Lemma pushed_wf w bs w' :
  snd w <= len (fst w) -> pushed w bs w' -> 0 <= snd w' <= len (fst w').
Proof.
  intros H (L1 & I1 & P1 & D1). pose proof (len_nonneg bs). lia.
Qed.

(** A varint field, written unless it is zero. *)
Lemma put_varintChunk t v w :
  len (encChunks (varintChunk t v)) <= snd w <= len (fst w) ->
  exists w', (if negb (v =? 0) then putVarintField t (uint64 v) w else Ok w) = Ok w'
             /\ pushed w (encChunks (varintChunk t v)) w'.
Proof.
  intros H. unfold varintChunk in *. destruct w as [dAtA i]. cbn [fst snd] in *.
  destruct (v =? 0); cbn [negb].
  - exists (dAtA, i). split; [reflexivity|]. apply pushed_refl.
    simpl in H. rewrite len_nil in H. simpl. lia.
  - cbn [encChunks flat_map] in *. rewrite app_nil_r in *.
    apply putVarintField_pushed; [apply uint64_range | exact H].
Qed.

(** A string or bytes field, written unless it is empty. *)
Lemma put_bytesChunk t p w :
  len (encChunks (bytesChunk t p)) <= snd w <= len (fst w) -> len (fst w) < 2 ^ 63 ->
  exists w', (if len p >? 0 then putBytesField t p w else Ok w) = Ok w'
             /\ pushed w (encChunks (bytesChunk t p)) w'.
Proof.
  intros H Hl. unfold bytesChunk in *. destruct w as [dAtA i]. cbn [fst snd] in *.
  destruct (len p >? 0).
  - cbn [encChunks flat_map] in *. rewrite app_nil_r in *.
    apply putBytesField_pushed; assumption.
  - exists (dAtA, i). split; [reflexivity|]. apply pushed_refl.
    simpl in H. rewrite len_nil in H. simpl. lia.
Qed.

(** The result of [MarshalToSizedBuffer], from what the writer pushed. *)
Lemma pushed_result dAtA bs w :
  pushed (dAtA, len dAtA) bs w ->
  len dAtA - snd w = len bs
  /\ len (fst w) = len dAtA
  /\ Buf.drop (len dAtA - len bs) (fst w) = bs.
Proof.
  intros (L1 & I1 & P1 & D1). cbn [fst snd] in *.
  rewrite (@drop_all _ dAtA (len dAtA)) in D1 by lia. rewrite app_nil_r in D1.
  rewrite <- I1. repeat split; auto; lia.
Qed.

Lemma BridgeValidator_MarshalToSizedBuffer_spec m dAtA :
  len (BridgeValidator_wire m) <= len dAtA -> len dAtA < 2 ^ 63 ->
  exists d, BridgeValidator_MarshalToSizedBuffer m dAtA = Ok (d, len (BridgeValidator_wire m))
            /\ len d = len dAtA
            /\ Buf.drop (len dAtA - len (BridgeValidator_wire m)) d = BridgeValidator_wire m.
Proof.
  intros Hw Hl. unfold BridgeValidator_wire, BridgeValidator_chunks in *.
  rewrite encChunks_app, len_app in Hw.
  pose proof (len_nonneg (encChunks (varintChunk Byte.x08 (Power m)))).
  pose proof (len_nonneg (encChunks (bytesChunk Byte.x12 (bytesOf (EthereumAddress m))))).
  unfold BridgeValidator_MarshalToSizedBuffer.
  destruct (@put_bytesChunk Byte.x12 (bytesOf (EthereumAddress m)) (dAtA, len dAtA))
    as (w1 & E1 & P1); [cbn [fst snd]; lia | exact Hl |].
  rewrite E1. cbn [bind].
  pose proof P1 as (L1 & I1 & _). cbn [fst snd] in *.
  destruct (@put_varintChunk Byte.x08 (Power m) w1) as (w2 & E2 & P2); [lia|].
  rewrite E2. cbn [bind].
  pose proof (pushed_trans P1 P2) as P. rewrite <- encChunks_app in P.
  apply pushed_result in P. destruct P as (R1 & R2 & R3).
  exists (fst w2). rewrite R1. auto.
Qed.

Lemma GenericClaim_MarshalToSizedBuffer_spec m dAtA :
  len (GenericClaim_wire m) <= len dAtA -> len dAtA < 2 ^ 63 ->
  exists d, GenericClaim_MarshalToSizedBuffer m dAtA = Ok (d, len (GenericClaim_wire m))
            /\ len d = len dAtA
            /\ Buf.drop (len dAtA - len (GenericClaim_wire m)) d = GenericClaim_wire m.
Proof.
  intros Hw Hl. unfold GenericClaim_wire, GenericClaim_chunks in *.
  rewrite !encChunks_app, !len_app in Hw.
  pose proof (len_nonneg (encChunks (varintChunk Byte.x08 (EventNonce m)))).
  pose proof (len_nonneg (encChunks (varintChunk Byte.x10 (ClaimType m)))).
  pose proof (len_nonneg (encChunks (bytesChunk Byte.x1a (elems (Hash m))))).
  pose proof (len_nonneg (encChunks (bytesChunk Byte.x22 (bytesOf (EventClaimer m))))).
  unfold GenericClaim_MarshalToSizedBuffer.
  destruct (@put_bytesChunk Byte.x22 (bytesOf (EventClaimer m)) (dAtA, len dAtA))
    as (w1 & E1 & P1); [cbn [fst snd]; lia | exact Hl |].
  rewrite E1. cbn [bind].
  pose proof P1 as (L1 & I1 & _). cbn [fst snd] in *.
  destruct (@put_bytesChunk Byte.x1a (elems (Hash m)) w1) as (w2 & E2 & P2); [lia | lia |].
  rewrite E2. cbn [bind].
  pose proof P2 as (L2 & I2 & _).
  destruct (@put_varintChunk Byte.x10 (ClaimType m) w2) as (w3 & E3 & P3); [lia|].
  rewrite E3. cbn [bind].
  pose proof P3 as (L3 & I3 & _).
  destruct (@put_varintChunk Byte.x08 (EventNonce m) w3) as (w4 & E4 & P4); [lia|].
  rewrite E4. cbn [bind].
  pose proof (pushed_trans (pushed_trans (pushed_trans P1 P2) P3) P4) as P.
  rewrite <- !encChunks_app in P.
  apply pushed_result in P. destruct P as (R1 & R2 & R3).
  exists (fst w4). rewrite R1. auto.
Qed.

(** * The members of a Valset *)

Lemma slice_prefix dAtA i :
  0 <= i <= len dAtA -> Buf.slice dAtA 0 i = Some (Buf.take i dAtA).
Proof.
  intros H. unfold Buf.slice.
  replace (0 <=? i) with true by (symmetry; apply Z.leb_le; lia).
  replace (i <=? len dAtA) with true by (symmetry; apply Z.leb_le; lia).
  simpl. rewrite Z.sub_0_r. reflexivity.
Qed.

Lemma drop_app_le (A : Type) (s t : list A) n :
  0 <= n <= len s -> Buf.drop n (s ++ t) = Buf.drop n s ++ t.
Proof.
  intros H. unfold Buf.drop, len in *. rewrite skipn_app.
  replace (Z.to_nat n - List.length s)%nat with 0%nat by lia. reflexivity.
Qed.

Lemma putMember_pushed m ms dAtA i :
  BridgeValidator_valid m = true ->
  len (encChunk (memberChunk (Some m))) <= i <= len dAtA -> len dAtA < 2 ^ 63 ->
  exists w', putMembers (Some m :: ms) (dAtA, i) = putMembers ms w'
             /\ pushed (dAtA, i) (encChunk (memberChunk (Some m))) w'.
Proof.
  intros Hv Hi Hl. apply BridgeValidator_valid_inv in Hv. destruct Hv as [Hp Hw].
  pose proof (len_nonneg (BridgeValidator_wire m)) as Hw0.
  assert (Hs : 0 <= len (BridgeValidator_wire m) < 2 ^ 64) by lia.
  pose proof (sovTypes_bounds Hs).
  unfold memberChunk, encChunk in Hi. cbn [chunkTag chunkBody] in Hi.
  rewrite len_cons, len_app, len_varintBytes in Hi by exact Hs.
  cbn [putMembers orPanic bind].
  rewrite slice_prefix by lia. cbn [orPanic bind].
  destruct (@BridgeValidator_MarshalToSizedBuffer_spec m (Buf.take i dAtA))
    as (d & E & Ld & Dd); [rewrite len_take by lia; lia | rewrite len_take by lia; lia |].
  rewrite len_take in * by lia.
  rewrite E. cbn [bind]. rewrite uint64_small by exact Hs.
  set (size := len (BridgeValidator_wire m)) in *.
  assert (P0 : pushed (dAtA, i) (BridgeValidator_wire m) (d ++ Buf.drop i dAtA, i - size)).
  { unfold pushed. cbn [fst snd]. repeat split; try lia.
    - rewrite len_app, len_drop by lia. lia.
    - rewrite drop_app_le by lia. rewrite Dd. reflexivity. }
  destruct (@encodeVarintTypes_pushed (d ++ Buf.drop i dAtA) (i - size) size Hs)
    as (d1 & E1 & P1); [rewrite len_app, len_drop by lia; lia |].
  rewrite E1. cbn [bind].
  pose proof P1 as (L1 & _). cbn [fst snd] in L1.
  rewrite len_app, len_drop in L1 by lia.
  destruct (@store_pushed d1 (i - size - sovTypes size) Byte.x12 ltac:(lia)) as (d2 & E2 & P2).
  rewrite E2. cbn [orPanic bind].
  eexists. split; [reflexivity|].
  apply (pushed_trans (pushed_trans P0 P1) P2).
Qed.

Lemma putMembers_pushed ms :
  forall w,
    Forall (fun e => member_valid e = true) ms ->
    len (encChunks (map memberChunk (rev ms))) <= snd w <= len (fst w) ->
    len (fst w) < 2 ^ 63 ->
    exists w', putMembers ms w = Ok w'
               /\ pushed w (encChunks (map memberChunk (rev ms))) w'.
Proof.
  induction ms as [|e ms IH]; intros w Hv Hi Hl.
  - exists w. split; [reflexivity|]. apply pushed_refl.
    simpl in Hi. rewrite len_nil in Hi. lia.
  - inversion Hv as [|? ? He Hms]; subst.
    apply member_valid_inv in He. destruct He as (m & -> & Hm).
    destruct w as [dAtA i]. cbn [fst snd] in *.
    cbn [rev] in *. rewrite map_app, encChunks_app in *. cbn [map] in *.
    rewrite encChunks_cons, encChunks_nil, app_nil_r in *.
    rewrite len_app in Hi.
    pose proof (len_nonneg (encChunks (map memberChunk (rev ms)))).
    pose proof (len_nonneg (encChunk (memberChunk (Some m)))).
    destruct (@putMember_pushed m ms dAtA i Hm ltac:(lia) Hl) as (w1 & E1 & P1).
    rewrite E1.
    pose proof P1 as (L1 & I1 & _). cbn [fst snd] in *.
    destruct (IH w1 Hms ltac:(lia) ltac:(lia)) as (w2 & E2 & P2).
    exists w2. split; [exact E2|].
    apply (pushed_trans P1 P2).
Qed.

Lemma Valset_MarshalToSizedBuffer_spec m dAtA :
  Forall (fun e => member_valid e = true) (elems (Members m)) ->
  len (Valset_wire m) <= len dAtA -> len dAtA < 2 ^ 63 ->
  exists d, Valset_MarshalToSizedBuffer m dAtA = Ok (d, len (Valset_wire m))
            /\ len d = len dAtA
            /\ Buf.drop (len dAtA - len (Valset_wire m)) d = Valset_wire m.
Proof.
  intros Hv Hw Hl. unfold Valset_wire, Valset_chunks in *.
  rewrite !encChunks_app, !len_app in Hw.
  pose proof (len_nonneg (encChunks (varintChunk Byte.x08 (Nonce m)))).
  pose proof (len_nonneg (encChunks (varintChunk Byte.x18 (Height m)))).
  pose proof (len_nonneg (encChunks (map memberChunk (elems (Members m))))).
  unfold Valset_MarshalToSizedBuffer.
  destruct (@put_varintChunk Byte.x18 (Height m) (dAtA, len dAtA))
    as (w1 & E1 & P1); [cbn [fst snd]; lia |].
  rewrite E1. cbn [bind].
  pose proof P1 as (L1 & I1 & _). cbn [fst snd] in *.
  assert (exists w2,
            (if len (elems (Members m)) >? 0
             then putMembers (rev (elems (Members m))) w1 else Ok w1) = Ok w2
            /\ pushed w1 (encChunks (map memberChunk (elems (Members m)))) w2)
    as (w2 & E2 & P2).
  { destruct (@putMembers_pushed (rev (elems (Members m))) w1) as (w2 & E2 & P2).
    - apply Forall_rev. exact Hv.
    - rewrite rev_involutive. lia.
    - lia.
    - rewrite rev_involutive in P2.
      destruct (elems (Members m)) as [|e l] eqn:El.
      + simpl in E2. exists w2. auto.
      + replace (len (e :: l) >? 0) with true; [exists w2; auto|].
        rewrite len_cons. pose proof (len_nonneg l). symmetry. apply Z.gtb_lt. lia. }
  rewrite E2. cbn [bind].
  pose proof P2 as (L2 & I2 & _).
  destruct (@put_varintChunk Byte.x08 (Nonce m) w2) as (w3 & E3 & P3); [lia|].
  rewrite E3. cbn [bind].
  pose proof (pushed_trans (pushed_trans P1 P2) P3) as P.
  rewrite <- !encChunks_app in P.
  apply pushed_result in P. destruct P as (R1 & R2 & R3).
  exists (fst w3). rewrite R1. auto.
Qed.

(** * [Size] is the length of the wire form *)

Lemma addInt_small a b : 0 <= a + b < 2 ^ 63 -> addInt a b = a + b.
Proof. apply int64_small. Qed.

Lemma len_varintChunk t v :
  len (encChunks (varintChunk t v)) = if v =? 0 then 0 else 1 + sovTypes (uint64 v).
Proof.
  unfold varintChunk. destruct (v =? 0); [reflexivity|].
  cbn [encChunks flat_map]. rewrite app_nil_r. unfold encChunk. cbn [chunkTag chunkBody].
  rewrite len_cons, len_varintBytes by apply uint64_range. reflexivity.
Qed.

Lemma len_bytesChunk t s :
  len s < 2 ^ 64 ->
  len (encChunks (bytesChunk t s))
  = if len s >? 0 then 1 + len s + sovTypes (len s) else 0.
Proof.
  intros Hs. pose proof (len_nonneg s).
  unfold bytesChunk. destruct (len s >? 0); [|reflexivity].
  cbn [encChunks flat_map]. rewrite app_nil_r. unfold encChunk. cbn [chunkTag chunkBody].
  rewrite len_cons, len_app, len_varintBytes by lia. lia.
Qed.

(** The two statements of [Size] for a varint field and for a string or
    bytes field. *)
Lemma size_varint n t v :
  0 <= n -> n + len (encChunks (varintChunk t v)) < 2 ^ 63 ->
  (if negb (v =? 0) then addInt n (addInt 1 (sovTypes (uint64 v))) else n)
  = n + len (encChunks (varintChunk t v)).
Proof.
  intros Hn H. rewrite len_varintChunk in *.
  destruct (v =? 0); cbn [negb]; [lia|].
  pose proof (sovTypes_bounds (uint64_range v)).
  rewrite (@addInt_small 1 _) by lia. rewrite addInt_small by lia. reflexivity.
Qed.

Lemma size_bytes n t s :
  0 <= n -> n + len (encChunks (bytesChunk t s)) < 2 ^ 63 ->
  (if len s >? 0 then addInt n (addInt (addInt 1 (len s)) (sovTypes (uint64 (len s)))) else n)
  = n + len (encChunks (bytesChunk t s)).
Proof.
  intros Hn H. pose proof (len_nonneg s).
  assert (Hs : len s < 2 ^ 64).
  { unfold bytesChunk in H. destruct (len s >? 0) eqn:E.
    - cbn [encChunks flat_map] in H. rewrite app_nil_r in H. unfold encChunk in H.
      cbn [chunkTag chunkBody] in H. rewrite len_cons, len_app in H.
      pose proof (len_nonneg (varintBytes (len s))). lia.
    - destruct (Z.gtb_spec (len s) 0); [discriminate | lia]. }
  rewrite len_bytesChunk in * by exact Hs.
  destruct (len s >? 0); [|lia].
  rewrite uint64_small by lia.
  pose proof (@sovTypes_bounds (len s) ltac:(lia)).
  rewrite (@addInt_small 1 (len s)) by lia.
  rewrite (@addInt_small (1 + len s) _) by lia.
  rewrite addInt_small by lia. lia.
Qed.

Lemma BridgeValidator_Size_wire m :
  len (BridgeValidator_wire m) < 2 ^ 63 ->
  BridgeValidator_Size m = len (BridgeValidator_wire m).
Proof.
  intros H. unfold BridgeValidator_wire, BridgeValidator_chunks in *.
  rewrite encChunks_app, len_app in *.
  pose proof (len_nonneg (encChunks (varintChunk Byte.x08 (Power m)))).
  pose proof (len_nonneg (encChunks (bytesChunk Byte.x12 (bytesOf (EthereumAddress m))))).
  unfold BridgeValidator_Size. cbv zeta.
  rewrite size_varint with (t := Byte.x08) by lia.
  rewrite size_bytes with (t := Byte.x12) by lia. lia.
Qed.

Lemma GenericClaim_Size_wire m :
  len (GenericClaim_wire m) < 2 ^ 63 ->
  GenericClaim_Size m = len (GenericClaim_wire m).
Proof.
  intros H. unfold GenericClaim_wire, GenericClaim_chunks in *.
  rewrite !encChunks_app, !len_app in *.
  pose proof (len_nonneg (encChunks (varintChunk Byte.x08 (EventNonce m)))).
  pose proof (len_nonneg (encChunks (varintChunk Byte.x10 (ClaimType m)))).
  pose proof (len_nonneg (encChunks (bytesChunk Byte.x1a (elems (Hash m))))).
  pose proof (len_nonneg (encChunks (bytesChunk Byte.x22 (bytesOf (EventClaimer m))))).
  unfold GenericClaim_Size. cbv zeta.
  rewrite size_varint with (n := 0) (t := Byte.x08) (v := EventNonce m) by lia.
  rewrite size_varint with (t := Byte.x10) by lia.
  rewrite size_bytes with (t := Byte.x1a) (s := elems (Hash m)) by lia.
  rewrite size_bytes with (t := Byte.x22) by lia. lia.
Qed.

Lemma size_members ms :
  forall n,
    Forall (fun e => member_valid e = true) ms ->
    0 <= n -> n + len (encChunks (map memberChunk ms)) < 2 ^ 63 ->
    fold_left
      (fun n e =>
         let l := BridgeValidator_Size_ptr e in
         addInt n (addInt (addInt 1 l) (sovTypes (uint64 l))))
      ms n
    = n + len (encChunks (map memberChunk ms)).
Proof.
  induction ms as [|e ms IH]; intros n Hv Hn H.
  - simpl. rewrite len_nil. lia.
  - inversion Hv as [|? ? He Hms]; subst.
    apply member_valid_inv in He. destruct He as (m & -> & Hm).
    apply BridgeValidator_valid_inv in Hm. destruct Hm as [_ Hw].
    cbn [map fold_left] in *. rewrite encChunks_cons, len_app in H.
    unfold memberChunk at 1, encChunk at 1 in H. cbn [chunkTag chunkBody] in H.
    pose proof (len_nonneg (BridgeValidator_wire m)).
    rewrite len_cons, len_app, len_varintBytes in H by lia.
    pose proof (@sovTypes_bounds (len (BridgeValidator_wire m)) ltac:(lia)).
    pose proof (len_nonneg (encChunks (map memberChunk ms))).
    cbv zeta. cbn [BridgeValidator_Size_ptr].
    rewrite BridgeValidator_Size_wire by exact Hw.
    rewrite uint64_small by lia.
    rewrite (@addInt_small 1 (len (BridgeValidator_wire m))) by lia.
    rewrite (@addInt_small (1 + len (BridgeValidator_wire m)) _) by lia.
    rewrite addInt_small by lia.
    rewrite IH by (try assumption; lia).
    rewrite encChunks_cons, len_app.
    change (encChunk (memberChunk (Some m)))
      with (Byte.x12 :: varintBytes (len (BridgeValidator_wire m)) ++ BridgeValidator_wire m).
    rewrite len_cons, len_app, len_varintBytes by lia. lia.
Qed.

Lemma Valset_Size_wire m :
  Forall (fun e => member_valid e = true) (elems (Members m)) ->
  len (Valset_wire m) < 2 ^ 63 ->
  Valset_Size m = len (Valset_wire m).
Proof.
  intros Hv H. unfold Valset_wire, Valset_chunks in *.
  rewrite !encChunks_app, !len_app in *.
  pose proof (len_nonneg (encChunks (varintChunk Byte.x08 (Nonce m)))).
  pose proof (len_nonneg (encChunks (varintChunk Byte.x18 (Height m)))).
  pose proof (len_nonneg (encChunks (map memberChunk (elems (Members m))))).
  unfold Valset_Size. cbv zeta.
  rewrite size_varint with (n := 0) (t := Byte.x08) (v := Nonce m) by lia.
  rewrite size_members by (try assumption; lia).
  replace (if len (elems (Members m)) >? 0
           then 0 + len (encChunks (varintChunk Byte.x08 (Nonce m)))
                + len (encChunks (map memberChunk (elems (Members m))))
           else 0 + len (encChunks (varintChunk Byte.x08 (Nonce m))))
    with (0 + len (encChunks (varintChunk Byte.x08 (Nonce m)))
          + len (encChunks (map memberChunk (elems (Members m))))).
  2:{ destruct (elems (Members m)) as [|e l]; [simpl; rewrite len_nil; lia|].
      replace (len (e :: l) >? 0) with true; [reflexivity|].
      rewrite len_cons. pose proof (len_nonneg l). symmetry. apply Z.gtb_lt. lia. }
  rewrite size_varint with (t := Byte.x18) by lia. lia.
Qed.

(** * [Marshal] returns the wire form *)

Lemma marshalWith_wire (M : Type) (Size : M -> Z)
  (MarshalToSizedBuffer : M -> list byte -> outcome (list byte * Z)) m wire :
  Size m = len wire -> len wire < 2 ^ 63 ->
  (forall dAtA, len wire <= len dAtA -> len dAtA < 2 ^ 63 ->
     exists d, MarshalToSizedBuffer m dAtA = Ok (d, len wire)
               /\ len d = len dAtA /\ Buf.drop (len dAtA - len wire) d = wire) ->
  marshalWith Size MarshalToSizedBuffer m = Ok wire.
Proof.
  intros Hs Hl Hm. pose proof (len_nonneg wire). unfold marshalWith. rewrite Hs.
  unfold Buf.make. replace (0 <=? len wire) with true by (symmetry; apply Z.leb_le; lia).
  cbn [orPanic bind].
  set (buf := repeat Byte.x00 (Z.to_nat (len wire))).
  assert (Hb : len buf = len wire) by (unfold buf; rewrite len_repeat; lia).
  rewrite slice_prefix by lia. rewrite take_all by lia. cbn [orPanic bind].
  destruct (Hm buf ltac:(lia) ltac:(lia)) as (d & E & Ld & Dd).
  rewrite E. cbn [bind].
  rewrite Hb, Z.sub_diag, drop_zero in Dd. subst d.
  rewrite slice_prefix by lia. rewrite take_all by lia. reflexivity.
Qed.

Lemma BridgeValidator_Marshal_wire m :
  BridgeValidator_valid m = true ->
  BridgeValidator_Marshal m = Ok (BridgeValidator_wire m).
Proof.
  intros Hv. apply BridgeValidator_valid_inv in Hv. destruct Hv as [_ Hl].
  apply marshalWith_wire.
  - apply BridgeValidator_Size_wire. exact Hl.
  - exact Hl.
  - intros dAtA. apply BridgeValidator_MarshalToSizedBuffer_spec.
Qed.

Lemma Valset_Marshal_wire m :
  Valset_valid m = true -> Valset_Marshal m = Ok (Valset_wire m).
Proof.
  intros Hv. apply Valset_valid_inv in Hv. destruct Hv as (_ & _ & Hm & Hl).
  apply marshalWith_wire.
  - apply Valset_Size_wire; assumption.
  - exact Hl.
  - intros dAtA. apply Valset_MarshalToSizedBuffer_spec. exact Hm.
Qed.

Lemma GenericClaim_Marshal_wire m :
  GenericClaim_valid m = true -> GenericClaim_Marshal m = Ok (GenericClaim_wire m).
Proof.
  intros Hv. apply GenericClaim_valid_inv in Hv. destruct Hv as (_ & _ & Hl).
  apply marshalWith_wire.
  - apply GenericClaim_Size_wire. exact Hl.
  - exact Hl.
  - intros dAtA. apply GenericClaim_MarshalToSizedBuffer_spec.
Qed.

(** * The three kinds together *)

Lemma fold_assign_BridgeValidator cs m :
  fold_left assign cs (RBridgeValidator m)
  = RBridgeValidator (fold_left BridgeValidator_upd cs m).
Proof. revert m. induction cs as [|c cs IH]; intros m; [reflexivity | apply IH]. Qed.

Lemma fold_assign_Valset cs m :
  fold_left assign cs (RValset m) = RValset (fold_left Valset_upd cs m).
Proof. revert m. induction cs as [|c cs IH]; intros m; [reflexivity | apply IH]. Qed.

Lemma fold_assign_GenericClaim cs m :
  fold_left assign cs (RGenericClaim m) = RGenericClaim (fold_left GenericClaim_upd cs m).
Proof. revert m. induction cs as [|c cs IH]; intros m; [reflexivity | apply IH]. Qed.

Lemma Unmarshal_chunks r cs :
  Forall (known r) cs -> len (encChunks cs) < 2 ^ 63 ->
  Unmarshal r (encChunks cs) = (fold_left assign cs r, Ok tt).
Proof.
  intros Hk Hl. destruct r as [m | m | m]; cbn [Unmarshal known] in *.
  - rewrite BridgeValidator_Unmarshal_chunks, fold_assign_BridgeValidator by assumption.
    reflexivity.
  - rewrite Valset_Unmarshal_chunks, fold_assign_Valset by assumption. reflexivity.
  - rewrite GenericClaim_Unmarshal_chunks, fold_assign_GenericClaim by assumption.
    reflexivity.
Qed.

Lemma snd_let_pair (A B C : Type) (p : A * B) (f : A -> C) :
  snd (let '(a, b) := p in (f a, b)) = snd p.
Proof. destruct p; reflexivity. Qed.

Lemma Unmarshal_truncated r cs c q :
  Forall (known r) cs -> known r c -> strictPrefix q (chunkBody c) ->
  len (encChunks cs ++ encChunk c) < 2 ^ 63 ->
  snd (Unmarshal r (encChunks cs ++ chunkTag c :: q)) = Fail ErrUnexpectedEOF.
Proof.
  intros Hk Hc Hq Hl. destruct r as [m | m | m]; cbn [Unmarshal known] in *;
    rewrite snd_let_pair.
  - apply unmarshal_chunks_truncated
      with (good := BridgeValidator_good) (upd := BridgeValidator_upd); auto.
    + exact BridgeValidator_good_tag.
    + exact BridgeValidator_fields_complete.
    + exact BridgeValidator_fields_truncated.
  - apply unmarshal_chunks_truncated with (good := Valset_good) (upd := Valset_upd); auto.
    + exact Valset_good_tag.
    + exact Valset_fields_complete.
    + exact Valset_fields_truncated.
  - apply unmarshal_chunks_truncated
      with (good := GenericClaim_good) (upd := GenericClaim_upd); auto.
    + exact GenericClaim_good_tag.
    + exact GenericClaim_fields_complete.
    + exact GenericClaim_fields_truncated.
Qed.

Lemma valid_fits r : valid r = true -> len (wireOf r) < 2 ^ 63.
Proof.
  destruct r as [m | m | m]; cbn [valid]; intros H.
  - apply BridgeValidator_valid_inv in H. tauto.
  - apply Valset_valid_inv in H. tauto.
  - apply GenericClaim_valid_inv in H. tauto.
Qed.

Lemma chunksOf_known r : valid r = true -> Forall (known (fresh r)) (chunksOf r).
Proof.
  destruct r as [m | m | m]; cbn [valid known fresh chunksOf]; intros H.
  - apply BridgeValidator_chunks_good.
  - apply Valset_chunks_good. apply Valset_valid_inv in H. tauto.
  - apply GenericClaim_chunks_good.
Qed.

Lemma Marshal_wire r : valid r = true -> Marshal r = Ok (wireOf r).
Proof.
  destruct r as [m | m | m]; cbn [valid Marshal]; intros H.
  - apply BridgeValidator_Marshal_wire. exact H.
  - apply Valset_Marshal_wire. exact H.
  - apply GenericClaim_Marshal_wire. exact H.
Qed.

Lemma Unmarshal_wire r :
  valid r = true -> Unmarshal (fresh r) (wireOf r) = (emptyToNil r, Ok tt).
Proof.
  destruct r as [m | m | m]; cbn [valid Unmarshal fresh emptyToNil]; intros H.
  - change (wireOf (RBridgeValidator m)) with (BridgeValidator_wire m).
    rewrite BridgeValidator_Unmarshal_wire by exact H. reflexivity.
  - change (wireOf (RValset m)) with (Valset_wire m).
    rewrite Valset_Unmarshal_wire by exact H. reflexivity.
  - change (wireOf (RGenericClaim m)) with (GenericClaim_wire m).
    rewrite GenericClaim_Unmarshal_wire by exact H. reflexivity.
Qed.

Lemma len_encChunks_firstn k cs : len (encChunks (firstn k cs)) <= len (encChunks cs).
Proof.
  rewrite <- (firstn_skipn k cs) at 2. rewrite encChunks_app, len_app.
  pose proof (len_nonneg (encChunks (skipn k cs))). lia.
Qed.

Lemma Forall_firstn_of (A : Type) (P : A -> Prop) k l :
  Forall P l -> Forall P (firstn k l).
Proof.
  intros H. revert k. induction H as [|x l Hx Hl IH]; intros k; destruct k; simpl;
    constructor; auto.
Qed.

Lemma skipn_nth_error (A : Type) (l : list A) k c :
  nth_error l k = Some c -> skipn k l = c :: skipn (S k) l.
Proof.
  revert k. induction l as [|a l IH]; intros k Hn.
  - destruct k; discriminate.
  - destruct k; simpl in *; [congruence | apply IH; exact Hn].
Qed.

Lemma len_encChunks_upto k cs c :
  nth_error cs k = Some c ->
  len (encChunks (firstn k cs) ++ encChunk c) <= len (encChunks cs).
Proof.
  intros Hn. rewrite <- (firstn_skipn k cs) at 2.
  rewrite (skipn_nth_error _ _ Hn), encChunks_app, encChunks_cons, !len_app.
  pose proof (len_nonneg (encChunks (skipn (S k) cs))). lia.
Qed.

(** * The claims *)

(** ** C2: round trip *)

(** C2, as stated, fails: a Valset whose [Members] is an empty, non-nil
    slice is encoded as no bytes at all, and decoding no bytes leaves the
    nil slice of the fresh record. *)
Lemma roundtrip_empty_members_counterexample :
  let r := mkValset 0 (Some []) 0 in
  Valset_valid r = true
  /\ Valset_Marshal r = Ok []
  /\ Valset_Unmarshal Valset_zero [] = (mkValset 0 None 0, Ok tt)
  /\ fst (Valset_Unmarshal Valset_zero []) <> r.
Proof.
  cbv zeta. repeat split; try reflexivity.
  vm_compute. discriminate.
Qed.

(** C2 (amended): for every record [r] the code can be given, of any of the
    three kinds, [Marshal] succeeds and decoding its bytes into a fresh
    record succeeds with [r] field for field, except that a slice field
    ([Members], [Hash]) without elements comes back nil. *)
Theorem roundtrip (r : record) :
  valid r = true ->
  exists dAtA,
    Marshal r = Ok dAtA /\ Unmarshal (fresh r) dAtA = (emptyToNil r, Ok tt).
Proof.
  intros H. exists (wireOf r). split.
  - apply Marshal_wire. exact H.
  - apply Unmarshal_wire. exact H.
Qed.

Lemma roundtrip_witness :
  exists dAtA,
    Marshal (RValset (mkValset 7 (Some [Some (mkBridgeValidator 300 "0xabc");
                                        Some (mkBridgeValidator 0 "")]) 9)) = Ok dAtA
    /\ Unmarshal (RValset Valset_zero) dAtA
       = (RValset (mkValset 7 (Some [Some (mkBridgeValidator 300 "0xabc");
                                     Some (mkBridgeValidator 0 "")]) 9), Ok tt).
Proof.
  apply (@roundtrip (RValset (mkValset 7 (Some [Some (mkBridgeValidator 300 "0xabc");
                                                 Some (mkBridgeValidator 0 "")]) 9))).
  vm_compute. reflexivity.
Defined.

(** ** C3: truncation *)

(** C3, as stated, fails: the first three bytes of the encoding of
    [BridgeValidator{300, "0xabc"}] are themselves the encoding of
    [BridgeValidator{300, ""}], and decode as such. *)
Lemma truncation_counterexample :
  let r := mkBridgeValidator 300 "0xabc" in
  let p := [Byte.x08; Byte.xac; Byte.x02] in
  BridgeValidator_valid r = true
  /\ BridgeValidator_Marshal r
     = Ok (p ++ [Byte.x12; Byte.x05; Byte.x30; Byte.x78; Byte.x61; Byte.x62; Byte.x63])
  /\ BridgeValidator_Unmarshal BridgeValidator_zero p = (mkBridgeValidator 300 "", Ok tt)
  /\ snd (BridgeValidator_Unmarshal BridgeValidator_zero p) <> Fail ErrUnexpectedEOF.
Proof.
  cbv zeta. repeat split; try (vm_compute; reflexivity).
  vm_compute. discriminate.
Qed.

(** C3 (amended): for every valid record [r] of the three kinds and every
    strict prefix [p] of its encoding, decoding [p] neither panics nor
    returns any error but [io.ErrUnexpectedEOF]: it succeeds exactly when [p]
    ends between two fields of the encoding (the empty prefix included),
    with the record that holds the fields of [p], and fails with
    [io.ErrUnexpectedEOF] when [p] ends inside a field. *)
Theorem truncation (r : record) (p : list byte) :
  valid r = true ->
  strictPrefix p (wireOf r) ->
  Marshal r = Ok (wireOf r)
  /\ (snd (Unmarshal (fresh r) p) = Ok tt
      \/ snd (Unmarshal (fresh r) p) = Fail ErrUnexpectedEOF)
  /\ (snd (Unmarshal (fresh r) p) = Ok tt
      <-> exists k, p = encChunks (firstn k (chunksOf r)))
  /\ (forall k, p = encChunks (firstn k (chunksOf r)) ->
       Unmarshal (fresh r) p = (fold_left assign (firstn k (chunksOf r)) (fresh r), Ok tt)).
Proof.
  intros Hv Hp.
  pose proof (chunksOf_known r Hv) as Hk.
  pose proof (valid_fits r Hv) as Hl. unfold wireOf in *.
  assert (Hfull : forall k,
             Unmarshal (fresh r) (encChunks (firstn k (chunksOf r)))
             = (fold_left assign (firstn k (chunksOf r)) (fresh r), Ok tt)).
  { intros k. apply Unmarshal_chunks.
    - apply Forall_firstn_of. exact Hk.
    - pose proof (len_encChunks_firstn k (chunksOf r)). lia. }
  assert (Hb : forall k, snd (Unmarshal (fresh r) (encChunks (firstn k (chunksOf r)))) = Ok tt).
  { intros k. rewrite Hfull. reflexivity. }
  split; [apply Marshal_wire; exact Hv|].
  assert (Hlast : forall k, p = encChunks (firstn k (chunksOf r)) ->
            Unmarshal (fresh r) p
            = (fold_left assign (firstn k (chunksOf r)) (fresh r), Ok tt)).
  { intros k ->. apply Hfull. }
  destruct (@strictPrefix_encChunks _ _ Hp) as (k & Hlt & [E | (c & q & Hn & Hq & E)]).
  - subst p. split; [left; apply Hb|]. split; [|exact Hlast]. split; [eauto | intros _; apply Hb].
  - assert (Ht : snd (Unmarshal (fresh r) p) = Fail ErrUnexpectedEOF).
    { subst p. apply Unmarshal_truncated.
      - apply Forall_firstn_of. exact Hk.
      - rewrite Forall_forall in Hk. apply Hk. eapply nth_error_In. exact Hn.
      - exact Hq.
      - pose proof (len_encChunks_upto _ _ Hn). lia. }
    split; [right; exact Ht|]. split; [|exact Hlast]. split.
    + intros E'. rewrite Ht in E'. discriminate.
    + intros [k' ->]. apply Hb.
Qed.

Lemma truncation_witness :
  let r := RBridgeValidator (mkBridgeValidator 300 "0xabc") in
  let p := [Byte.x08; Byte.xac; Byte.x02; Byte.x12; Byte.x05; Byte.x30] in
  Marshal r = Ok (wireOf r)
  /\ (snd (Unmarshal (fresh r) p) = Ok tt
      \/ snd (Unmarshal (fresh r) p) = Fail ErrUnexpectedEOF)
  /\ (snd (Unmarshal (fresh r) p) = Ok tt
      <-> exists k, p = encChunks (firstn k (chunksOf r)))
  /\ (forall k, p = encChunks (firstn k (chunksOf r)) ->
       Unmarshal (fresh r) p = (fold_left assign (firstn k (chunksOf r)) (fresh r), Ok tt)).
Proof.
  cbv zeta.
  apply (@truncation (RBridgeValidator (mkBridgeValidator 300 "0xabc"))
           [Byte.x08; Byte.xac; Byte.x02; Byte.x12; Byte.x05; Byte.x30]).
  - vm_compute. reflexivity.
  - exists [Byte.x78; Byte.x61; Byte.x62; Byte.x63]. split; [vm_compute; reflexivity | discriminate].
Defined.

(** ** C8: the concrete scenario *)

(** C8: [BridgeValidator{300, "0xabc"}] is encoded as the ten bytes
    [08 AC 02 12 05 30 78 61 62 63], and these decode to it. *)
Theorem concrete_scenario :
  BridgeValidator_Marshal (mkBridgeValidator 300 "0xabc")
  = Ok [Byte.x08; Byte.xac; Byte.x02; Byte.x12; Byte.x05;
        Byte.x30; Byte.x78; Byte.x61; Byte.x62; Byte.x63]
  /\ BridgeValidator_Unmarshal BridgeValidator_zero
       [Byte.x08; Byte.xac; Byte.x02; Byte.x12; Byte.x05;
        Byte.x30; Byte.x78; Byte.x61; Byte.x62; Byte.x63]
     = (mkBridgeValidator 300 "0xabc", Ok tt).
Proof. split; vm_compute; reflexivity. Qed.

(** ** C4: the length of a varint *)

Lemma sovTypes_max v : 0 <= v -> sovTypes (Z.max v 1) = sovTypes v.
Proof.
  intros H. destruct (Z.eq_dec v 0) as [-> | Hv].
  - rewrite !sovTypes_small by (simpl; lia). reflexivity.
  - rewrite Z.max_l by lia. reflexivity.
Qed.

Lemma sovTypes_log2_bounds w :
  1 <= w -> 7 * (sovTypes w - 1) <= Z.log2 w < 7 * sovTypes w.
Proof.
  intros H. rewrite sovTypes_log2 by lia.
  pose proof (Z.log2_nonneg w).
  pose proof (Z.mul_div_le (Z.log2 w + 7) 7 ltac:(lia)).
  pose proof (Z.mul_succ_div_gt (Z.log2 w + 7) 7 ltac:(lia)).
  lia.
Qed.

Lemma sovTypes_large v : 2 ^ 63 <= v < 2 ^ 64 -> sovTypes v = 10.
Proof.
  intros H. rewrite sovTypes_log2 by lia.
  rewrite (Z.log2_unique v 63) by (simpl; lia). reflexivity.
Qed.

(** C4: [sovTypes v] is [ceil(bit_length(max(v,1)) / 7)], the number of
    7-bit groups of [v] and at least one, and [encodeVarintTypes] writes
    exactly that many bytes: whatever the buffer held, the [sovTypes v]
    bytes just below [offset] are afterwards the bytes of the varint of [v]
    ([varintBytes v], low group first, the continuation bit on all but the
    last), the rest of the buffer is as it was and the position returned is
    that of the first of them. *)
Theorem varint_length_law (v : Z) (dAtA : list byte) (offset : Z) :
  0 <= v < 2 ^ 64 ->
  sovTypes v <= offset <= len dAtA ->
  (sovTypes 0 = 1 /\ sovTypes 127 = 1 /\ sovTypes 128 = 2 /\ sovTypes (2 ^ 63) = 10)
  /\ 7 * (sovTypes v - 1) < Len64 (Z.max v 1) <= 7 * sovTypes v
  /\ 2 ^ (7 * (sovTypes v - 1)) <= Z.max v 1 < 2 ^ (7 * sovTypes v)
  /\ len (varintBytes v) = sovTypes v
  /\ encodeVarintTypes dAtA offset v
     = Ok (Buf.take (offset - sovTypes v) dAtA ++ varintBytes v ++ Buf.drop offset dAtA,
           offset - sovTypes v).
Proof.
  intros Hv Ho. split; [repeat split; reflexivity|].
  assert (Hw : 1 <= Z.max v 1) by lia.
  pose proof (sovTypes_log2_bounds Hw) as Hb. rewrite sovTypes_max in Hb by lia.
  pose proof (sovTypes_bounds Hv) as Hn.
  destruct (Z.log2_spec (Z.max v 1) ltac:(lia)) as [Hlo Hhi].
  split; [|split].
  - rewrite Len64_pos by lia. lia.
  - split.
    + eapply Z.le_trans; [|exact Hlo]. apply Z.pow_le_mono_r; lia.
    + eapply Z.lt_le_trans; [exact Hhi|]. apply Z.pow_le_mono_r; lia.
  - split.
    + apply len_varintBytes. exact Hv.
    + apply encodeVarintTypes_spec; assumption.
Qed.

Lemma varint_length_law_witness :
  (sovTypes 0 = 1 /\ sovTypes 127 = 1 /\ sovTypes 128 = 2 /\ sovTypes (2 ^ 63) = 10)
  /\ 7 * (sovTypes 300 - 1) < Len64 (Z.max 300 1) <= 7 * sovTypes 300
  /\ 2 ^ (7 * (sovTypes 300 - 1)) <= Z.max 300 1 < 2 ^ (7 * sovTypes 300)
  /\ len (varintBytes 300) = sovTypes 300
  /\ encodeVarintTypes [Byte.x00; Byte.x00; Byte.x00] 3 300
     = Ok (Buf.take (3 - sovTypes 300) [Byte.x00; Byte.x00; Byte.x00] ++ varintBytes 300
           ++ Buf.drop 3 [Byte.x00; Byte.x00; Byte.x00],
           3 - sovTypes 300).
Proof.
  apply (@varint_length_law 300 [Byte.x00; Byte.x00; Byte.x00] 3).
  - lia.
  - vm_compute. split; discriminate.
Defined.

(** ** C7: a negative claim type *)

Lemma encChunks_two_varints t a t' b :
  encChunks [CVarint t a; CVarint t' b] = t :: varintBytes a ++ t' :: varintBytes b.
Proof.
  unfold encChunks, encChunk. cbn [flat_map chunkTag chunkBody app].
  rewrite app_nil_r. reflexivity.
Qed.

Lemma len_varintBytes_le v : len (varintBytes v) <= 10.
Proof. apply (len_varintBytes_fuel_le 10 v). Qed.

(** C7: a GenericClaim with a negative [ClaimType] carries it on the wire as
    tag [0x10] followed by the varint of its 64-bit two's-complement value
    [2^64 + ClaimType], ten bytes long and written by [encodeVarintTypes]
    without any zigzag step, and decoding gives the negative value back. *)
Theorem negative_claim_type (m : GenericClaim) :
  GenericClaim_valid m = true ->
  ClaimType m < 0 ->
  let v := 2 ^ 64 + ClaimType m in
  uint64 (ClaimType m) = v
  /\ len (varintBytes v) = 10
  /\ encodeVarintTypes (repeat Byte.x00 10) 10 v = Ok (varintBytes v, 0)
  /\ GenericClaim_Marshal m
     = Ok (encChunks (varintChunk Byte.x08 (EventNonce m))
           ++ (Byte.x10 :: varintBytes v)
           ++ encChunks (bytesChunk Byte.x1a (elems (Hash m))
                         ++ bytesChunk Byte.x22 (bytesOf (EventClaimer m))))
  /\ forall dAtA,
       GenericClaim_Marshal m = Ok dAtA ->
       exists m', GenericClaim_Unmarshal GenericClaim_zero dAtA = (m', Ok tt)
                  /\ ClaimType m' = ClaimType m.
Proof.
  intros Hv Hneg v.
  pose proof (GenericClaim_valid_inv m Hv) as (Hn & Hc & Hl).
  assert (Hu : uint64 (ClaimType m) = v).
  { unfold uint64, v. rewrite <- (Z.mod_add _ 1) by lia.
    rewrite Z.mod_small by lia. lia. }
  assert (Hr : 2 ^ 63 <= v < 2 ^ 64) by (unfold v; lia).
  assert (Hlen : len (varintBytes v) = 10).
  { rewrite len_varintBytes by lia. apply sovTypes_large. exact Hr. }
  split; [exact Hu|]. split; [exact Hlen|]. split; [|split].
  - rewrite encodeVarintTypes_spec; rewrite ?sovTypes_large by exact Hr;
      [| lia | rewrite len_repeat; lia].
    rewrite (@drop_all _ (repeat Byte.x00 10) 10) by (rewrite len_repeat; lia).
    rewrite app_nil_r. reflexivity.
  - rewrite GenericClaim_Marshal_wire by exact Hv.
    unfold GenericClaim_wire, GenericClaim_chunks. rewrite !encChunks_app.
    do 2 f_equal. f_equal.
    unfold varintChunk. destruct (Z.eqb_spec (ClaimType m) 0); [lia|].
    rewrite Hu. cbn [encChunks flat_map]. rewrite app_nil_r. reflexivity.
  - intros dAtA E. rewrite GenericClaim_Marshal_wire in E by exact Hv.
    inversion E; subst dAtA.
    rewrite GenericClaim_Unmarshal_wire by exact Hv.
    eexists. split; reflexivity.
Qed.

Lemma negative_claim_type_witness :
  let m := mkGenericClaim 5 (-2) (Some [Byte.x01]) "ab" in
  let v := 2 ^ 64 + ClaimType m in
  uint64 (ClaimType m) = v
  /\ len (varintBytes v) = 10
  /\ encodeVarintTypes (repeat Byte.x00 10) 10 v = Ok (varintBytes v, 0)
  /\ GenericClaim_Marshal m
     = Ok (encChunks (varintChunk Byte.x08 (EventNonce m))
           ++ (Byte.x10 :: varintBytes v)
           ++ encChunks (bytesChunk Byte.x1a (elems (Hash m))
                         ++ bytesChunk Byte.x22 (bytesOf (EventClaimer m))))
  /\ forall dAtA,
       GenericClaim_Marshal m = Ok dAtA ->
       exists m', GenericClaim_Unmarshal GenericClaim_zero dAtA = (m', Ok tt)
                  /\ ClaimType m' = ClaimType m.
Proof.
  cbv zeta.
  apply (@negative_claim_type (mkGenericClaim 5 (-2) (Some [Byte.x01]) "ab")).
  - vm_compute. reflexivity.
  - simpl. lia.
Defined.

(** ** C10: a scalar field given twice *)

Lemma two_varints_fit t a t' b : len (encChunks [CVarint t a; CVarint t' b]) < 2 ^ 63.
Proof.
  rewrite encChunks_two_varints, len_cons, len_app, len_cons.
  pose proof (len_varintBytes_le a). pose proof (len_varintBytes_le b). lia.
Qed.

(** C10: when a buffer holds the same scalar field twice, with [v1] and
    then [v2], decoding succeeds and the field is [v2], whatever the
    receiver held: each occurrence starts from zero.  So for [Power],
    [Nonce], [Height], [EventNonce] and, with values of type [int32],
    [ClaimType]. *)
Theorem duplicate_scalar_last_wins (v1 v2 c1 c2 : Z) :
  0 <= v1 < 2 ^ 64 -> 0 <= v2 < 2 ^ 64 ->
  - 2 ^ 31 <= c1 < 2 ^ 31 -> - 2 ^ 31 <= c2 < 2 ^ 31 ->
  (forall m,
     BridgeValidator_Unmarshal m (Byte.x08 :: varintBytes v1 ++ Byte.x08 :: varintBytes v2)
     = (mkBridgeValidator v2 (EthereumAddress m), Ok tt))
  /\ (forall m,
        Valset_Unmarshal m (Byte.x08 :: varintBytes v1 ++ Byte.x08 :: varintBytes v2)
        = (mkValset v2 (Members m) (Height m), Ok tt))
  /\ (forall m,
        Valset_Unmarshal m (Byte.x18 :: varintBytes v1 ++ Byte.x18 :: varintBytes v2)
        = (mkValset (Nonce m) (Members m) v2, Ok tt))
  /\ (forall m,
        GenericClaim_Unmarshal m (Byte.x08 :: varintBytes v1 ++ Byte.x08 :: varintBytes v2)
        = (mkGenericClaim v2 (ClaimType m) (Hash m) (EventClaimer m), Ok tt))
  /\ (forall m,
        GenericClaim_Unmarshal m
          (Byte.x10 :: varintBytes (uint64 c1) ++ Byte.x10 :: varintBytes (uint64 c2))
        = (mkGenericClaim (EventNonce m) c2 (Hash m) (EventClaimer m), Ok tt)).
Proof.
  intros H1 H2 H3 H4. repeat split; intros m; rewrite <- encChunks_two_varints.
  - rewrite BridgeValidator_Unmarshal_chunks; [reflexivity | | apply two_varints_fit].
    apply Forall_cons; [|apply Forall_cons; [|apply Forall_nil]]; simpl; auto.
  - rewrite Valset_Unmarshal_chunks; [reflexivity | | apply two_varints_fit].
    apply Forall_cons; [|apply Forall_cons; [|apply Forall_nil]]; simpl; auto.
  - rewrite Valset_Unmarshal_chunks; [reflexivity | | apply two_varints_fit].
    apply Forall_cons; [|apply Forall_cons; [|apply Forall_nil]]; simpl; auto.
  - rewrite GenericClaim_Unmarshal_chunks; [reflexivity | | apply two_varints_fit].
    apply Forall_cons; [|apply Forall_cons; [|apply Forall_nil]]; simpl; auto.
  - rewrite GenericClaim_Unmarshal_chunks; [| | apply two_varints_fit].
    + cbn [fold_left GenericClaim_upd EventNonce ClaimType Hash EventClaimer].
      change (tagFieldNum Byte.x10 =? 1) with false. cbv iota.
      cbn [EventNonce ClaimType Hash EventClaimer].
      rewrite int32_uint64 by exact H4. reflexivity.
    + apply Forall_cons; [|apply Forall_cons; [|apply Forall_nil]]; simpl;
        auto using uint64_range.
Qed.

Lemma duplicate_scalar_last_wins_witness :
  (forall m,
     BridgeValidator_Unmarshal m (Byte.x08 :: varintBytes 300 ++ Byte.x08 :: varintBytes 7)
     = (mkBridgeValidator 7 (EthereumAddress m), Ok tt))
  /\ (forall m,
        Valset_Unmarshal m (Byte.x08 :: varintBytes 300 ++ Byte.x08 :: varintBytes 7)
        = (mkValset 7 (Members m) (Height m), Ok tt))
  /\ (forall m,
        Valset_Unmarshal m (Byte.x18 :: varintBytes 300 ++ Byte.x18 :: varintBytes 7)
        = (mkValset (Nonce m) (Members m) 7, Ok tt))
  /\ (forall m,
        GenericClaim_Unmarshal m (Byte.x08 :: varintBytes 300 ++ Byte.x08 :: varintBytes 7)
        = (mkGenericClaim 7 (ClaimType m) (Hash m) (EventClaimer m), Ok tt))
  /\ (forall m,
        GenericClaim_Unmarshal m
          (Byte.x10 :: varintBytes (uint64 (-1)) ++ Byte.x10 :: varintBytes (uint64 (-3)))
        = (mkGenericClaim (EventNonce m) (-3) (Hash m) (EventClaimer m), Ok tt)).
Proof.
  apply (@duplicate_scalar_last_wins 300 7 (-1) (-3)); lia.
Defined.

(** ** C9: the receiver after an error *)

Lemma BridgeValidator_Unmarshal_fail cs t rest m m' e :
  Forall BridgeValidator_good cs ->
  len (encChunks cs ++ t :: rest) < 2 ^ 63 ->
  byte.unsigned t < 128 ->
  (tagWireType t =? 4) = false ->
  (tagFieldNum t <=? 0) = false ->
  BridgeValidator_fields (fold_left BridgeValidator_upd cs m) (encChunks cs ++ t :: rest)
    (len (encChunks cs ++ t :: rest)) (len (encChunks cs))
    (tagFieldNum t) (tagWireType t) (len (encChunks cs) + 1) = (m', Fail e) ->
  BridgeValidator_Unmarshal m (encChunks cs ++ t :: rest) = (m', Fail e).
Proof.
  apply unmarshal_chunks_fail.
  - exact BridgeValidator_good_tag.
  - exact BridgeValidator_fields_complete.
Qed.

Lemma Valset_Unmarshal_fail cs t rest m m' e :
  Forall Valset_good cs ->
  len (encChunks cs ++ t :: rest) < 2 ^ 63 ->
  byte.unsigned t < 128 ->
  (tagWireType t =? 4) = false ->
  (tagFieldNum t <=? 0) = false ->
  Valset_fields (fold_left Valset_upd cs m) (encChunks cs ++ t :: rest)
    (len (encChunks cs ++ t :: rest)) (len (encChunks cs))
    (tagFieldNum t) (tagWireType t) (len (encChunks cs) + 1) = (m', Fail e) ->
  Valset_Unmarshal m (encChunks cs ++ t :: rest) = (m', Fail e).
Proof.
  apply unmarshal_chunks_fail.
  - exact Valset_good_tag.
  - exact Valset_fields_complete.
Qed.

Lemma GenericClaim_Unmarshal_fail cs t rest m m' e :
  Forall GenericClaim_good cs ->
  len (encChunks cs ++ t :: rest) < 2 ^ 63 ->
  byte.unsigned t < 128 ->
  (tagWireType t =? 4) = false ->
  (tagFieldNum t <=? 0) = false ->
  GenericClaim_fields (fold_left GenericClaim_upd cs m) (encChunks cs ++ t :: rest)
    (len (encChunks cs ++ t :: rest)) (len (encChunks cs))
    (tagFieldNum t) (tagWireType t) (len (encChunks cs) + 1) = (m', Fail e) ->
  GenericClaim_Unmarshal m (encChunks cs ++ t :: rest) = (m', Fail e).
Proof.
  apply unmarshal_chunks_fail.
  - exact GenericClaim_good_tag.
  - exact GenericClaim_fields_complete.
Qed.

(** C9: [Unmarshal] is not atomic.  On a buffer with a complete [power]
    field [p] followed by an [ethereum_address] field whose payload [q] is
    shorter than the length [n] it announces, [BridgeValidator.Unmarshal]
    returns [io.ErrUnexpectedEOF] and leaves [p] assigned to [Power] in the
    receiver. *)
Theorem decode_not_atomic (m : BridgeValidator) (p n : Z) (q : list byte) :
  0 <= p < 2 ^ 64 ->
  len q < n < 2 ^ 62 ->
  BridgeValidator_Unmarshal m
    (Byte.x08 :: varintBytes p ++ Byte.x12 :: varintBytes n ++ q)
  = (mkBridgeValidator p (EthereumAddress m), Fail ErrUnexpectedEOF).
Proof.
  intros Hp Hn. pose proof (len_nonneg q).
  pose proof (len_varintBytes_le p). pose proof (len_varintBytes_le n).
  replace (Byte.x08 :: varintBytes p ++ Byte.x12 :: varintBytes n ++ q)
    with (encChunks [CVarint Byte.x08 p] ++ Byte.x12 :: varintBytes n ++ q)
    by (unfold encChunks, encChunk; cbn [flat_map chunkTag chunkBody app];
        rewrite app_nil_r; reflexivity).
  set (dAtA := encChunks [CVarint Byte.x08 p] ++ Byte.x12 :: varintBytes n ++ q).
  assert (He : len (encChunks [CVarint Byte.x08 p]) <= 11).
  { unfold encChunks, encChunk. cbn [flat_map chunkTag chunkBody].
    rewrite app_nil_r, len_cons. lia. }
  assert (Hl : len dAtA < 2 ^ 63).
  { unfold dAtA. rewrite !len_app, !len_cons, !len_app. lia. }
  apply BridgeValidator_Unmarshal_fail; try reflexivity.
  - apply Forall_cons; [|apply Forall_nil]. simpl. auto.
  - exact Hl.
  - change (tagFieldNum Byte.x12) with 2. change (tagWireType Byte.x12) with 2.
    fold dAtA.
    unfold BridgeValidator_fields. cbv beta iota. change (negb (2 =? 2)) with false. cbv iota.
    assert (Hcur : cursor dAtA (len (encChunks [CVarint Byte.x08 p]) + 1)
                     (varintBytes n ++ q)).
    { exists (encChunks [CVarint Byte.x08 p] ++ [Byte.x12]). split.
      - unfold dAtA. rewrite <- app_assoc. reflexivity.
      - rewrite len_app, len_cons, len_nil. lia. }
    pose proof (cursor_range Hcur) as [_ Hr]. rewrite len_app in Hr.
    unfold stringField.
    erewrite decodeVarint_bytes; [| exact uint64_lor | | exact Hcur]; [|lia].
    rewrite uint64_small by lia. rewrite int64_small by lia.
    apply cursor_app in Hcur.
    erewrite lengthDelimited_truncated; [reflexivity | exact Hcur | lia | lia].
Qed.

Lemma decode_not_atomic_witness :
  BridgeValidator_Unmarshal BridgeValidator_zero
    (Byte.x08 :: varintBytes 300 ++ Byte.x12 :: varintBytes 5 ++ [Byte.x30; Byte.x78])
  = (mkBridgeValidator 300 "", Fail ErrUnexpectedEOF).
Proof.
  apply (@decode_not_atomic BridgeValidator_zero 300 5 [Byte.x30; Byte.x78]).
  - lia.
  - vm_compute. split; reflexivity.
Defined.

(** ** C1: a known field with another wire type *)

(** C1, as stated, fails: field 1 of a BridgeValidator with wire type 2 (a
    well-formed, empty length-delimited field) is not skipped: [Unmarshal]
    returns the error "wrong wireType = 2 for field Power". *)
Lemma wrong_wire_type_counterexample :
  BridgeValidator_Unmarshal BridgeValidator_zero [Byte.x0a; Byte.x00]
  = (BridgeValidator_zero, Fail (ErrWrongWireType 2 "Power"))
  /\ snd (BridgeValidator_Unmarshal BridgeValidator_zero [Byte.x0a; Byte.x00]) <> Ok tt.
Proof. split; [vm_compute; reflexivity | vm_compute; discriminate]. Qed.

Lemma fieldOf_positive r fn wt name : fieldOf r fn = Some (wt, name) -> (fn <=? 0) = false.
Proof.
  intros H. destruct fn as [|p|p]; [| reflexivity |]; destruct r; discriminate.
Qed.

Lemma fields_wrong_wire_type r fn wt wt0 name dAtA l pre i :
  fieldOf r fn = Some (wt0, name) -> wt <> wt0 ->
  match r with
  | RBridgeValidator m =>
    BridgeValidator_fields m dAtA l pre fn wt i = (m, Fail (ErrWrongWireType wt name))
  | RValset m =>
    Valset_fields m dAtA l pre fn wt i = (m, Fail (ErrWrongWireType wt name))
  | RGenericClaim m =>
    GenericClaim_fields m dAtA l pre fn wt i = (m, Fail (ErrWrongWireType wt name))
  end.
Proof.
  intros H Hw.
  assert (Hne : forall w, w = wt0 -> negb (wt =? w) = true).
  { intros w ->. destruct (Z.eqb_spec wt wt0); [contradiction | reflexivity]. }
  destruct r as [m | m | m]; cbn [fieldOf] in H;
    (destruct fn as [|p|p]; try discriminate);
    repeat (destruct p as [p|p|]; try discriminate);
    inversion H; subst;
    cbn [BridgeValidator_fields Valset_fields GenericClaim_fields];
    rewrite Hne by reflexivity; reflexivity.
Qed.

(** C1 (amended): for every record kind, when the decoder, having taken any
    number of fields it knows, reaches a one-byte tag that carries a field
    number of the record with a wire type other than the one the field has
    (and other than 4, refused before as an end of group), [Unmarshal]
    stops with the error "wrong wireType = <wire type> for field <name>";
    the receiver keeps what the fields before had assigned. *)
Theorem wrong_wire_type_is_error (r : record) (cs : list chunk) (t : byte)
  (rest : list byte) (wt : Z) (name : string) :
  Forall (known r) cs ->
  byte.unsigned t < 128 ->
  fieldOf r (tagFieldNum t) = Some (wt, name) ->
  tagWireType t <> wt ->
  tagWireType t <> 4 ->
  len (encChunks cs ++ t :: rest) < 2 ^ 63 ->
  Unmarshal r (encChunks cs ++ t :: rest)
  = (fold_left assign cs r, Fail (ErrWrongWireType (tagWireType t) name)).
Proof.
  intros Hk Ht Hf Hw H4 Hl.
  pose proof (fieldOf_positive _ _ Hf) as Hpos.
  assert (H4' : (tagWireType t =? 4) = false)
    by (destruct (Z.eqb_spec (tagWireType t) 4); [contradiction | reflexivity]).
  destruct r as [m | m | m]; cbn [Unmarshal known] in *.
  - pose proof (@fields_wrong_wire_type
                  (RBridgeValidator (fold_left BridgeValidator_upd cs m))
                  _ _ _ _ (encChunks cs ++ t :: rest)
                  (len (encChunks cs ++ t :: rest)) (len (encChunks cs))
                  (len (encChunks cs) + 1) Hf Hw) as E.
    cbv beta iota in E.
    rewrite fold_assign_BridgeValidator.
    erewrite BridgeValidator_Unmarshal_fail;
      [reflexivity | exact Hk | exact Hl | exact Ht | exact H4' | exact Hpos | exact E].
  - pose proof (@fields_wrong_wire_type
                  (RValset (fold_left Valset_upd cs m))
                  _ _ _ _ (encChunks cs ++ t :: rest)
                  (len (encChunks cs ++ t :: rest)) (len (encChunks cs))
                  (len (encChunks cs) + 1) Hf Hw) as E.
    cbv beta iota in E.
    rewrite fold_assign_Valset.
    erewrite Valset_Unmarshal_fail;
      [reflexivity | exact Hk | exact Hl | exact Ht | exact H4' | exact Hpos | exact E].
  - pose proof (@fields_wrong_wire_type
                  (RGenericClaim (fold_left GenericClaim_upd cs m))
                  _ _ _ _ (encChunks cs ++ t :: rest)
                  (len (encChunks cs ++ t :: rest)) (len (encChunks cs))
                  (len (encChunks cs) + 1) Hf Hw) as E.
    cbv beta iota in E.
    rewrite fold_assign_GenericClaim.
    erewrite GenericClaim_Unmarshal_fail;
      [reflexivity | exact Hk | exact Hl | exact Ht | exact H4' | exact Hpos | exact E].
Qed.

Lemma wrong_wire_type_is_error_witness :
  let r := RValset (mkValset 0 None 0) in
  let cs := [CVarint Byte.x08 7] in
  Unmarshal r (encChunks cs ++ Byte.x1a :: [Byte.x00])
  = (fold_left assign cs r, Fail (ErrWrongWireType (tagWireType Byte.x1a) "Height")).
Proof.
  cbv zeta.
  apply (@wrong_wire_type_is_error (RValset (mkValset 0 None 0)) [CVarint Byte.x08 7]
           Byte.x1a [Byte.x00] 0 "Height").
  - apply Forall_cons; [|apply Forall_nil]. simpl. split; [left; reflexivity | lia].
  - vm_compute. reflexivity.
  - reflexivity.
  - vm_compute. discriminate.
  - vm_compute. discriminate.
  - vm_compute. reflexivity.
Defined.

(** ** C5: the hash after decoding *)

(** C5, as stated, fails: decoding a buffer without a hash field leaves the
    hash of a fresh record nil, while a hash field with an empty payload
    makes it empty and not nil.  The two are told apart after decoding. *)
Lemma hash_absent_counterexample :
  GenericClaim_Unmarshal GenericClaim_zero [] = (mkGenericClaim 0 0 None "", Ok tt)
  /\ GenericClaim_Unmarshal GenericClaim_zero [Byte.x1a; Byte.x00]
     = (mkGenericClaim 0 0 (Some []) "", Ok tt)
  /\ Hash (fst (GenericClaim_Unmarshal GenericClaim_zero [])) <> Some [].
Proof. repeat split; vm_compute; try reflexivity; discriminate. Qed.

Lemma GenericClaim_fold_no_hash cs :
  Forall (fun c => chunkTag c <> Byte.x1a) cs ->
  Forall GenericClaim_good cs ->
  forall m, Hash (fold_left GenericClaim_upd cs m) = Hash m.
Proof.
  induction 1 as [|c cs Hc Hcs IH]; intros Hg m; [reflexivity|].
  inversion Hg as [|? ? Hgc Hgcs]; subst.
  cbn [fold_left]. rewrite IH by exact Hgcs.
  destruct c as [t v | t p]; simpl in *.
  - destruct (tagFieldNum t =? 1); reflexivity.
  - destruct Hgc as [-> | ->]; [contradiction | reflexivity].
Qed.

(** C5 (amended): decoding a GenericClaim makes the hash non-nil only when
    the buffer carries a hash field: after known fields [cs] without a hash
    field the hash of the receiver is what it was (nil for a fresh record),
    and after a hash field with payload [p] it is [p], the empty and non-nil
    slice when [p] is empty. *)
Theorem hash_nil_unless_on_wire (m : GenericClaim) (cs : list chunk) (p : list byte) :
  Forall GenericClaim_good cs ->
  Forall (fun c => chunkTag c <> Byte.x1a) cs ->
  len (encChunks cs ++ Byte.x1a :: varintBytes (len p) ++ p) < 2 ^ 63 ->
  (exists m', GenericClaim_Unmarshal m (encChunks cs) = (m', Ok tt)
              /\ Hash m' = Hash m)
  /\ (exists m', GenericClaim_Unmarshal m
                   (encChunks cs ++ Byte.x1a :: varintBytes (len p) ++ p) = (m', Ok tt)
                 /\ Hash m' = Some p).
Proof.
  intros Hg Hn Hl. split.
  - rewrite len_app in Hl.
    pose proof (len_nonneg (Byte.x1a :: varintBytes (len p) ++ p)).
    rewrite GenericClaim_Unmarshal_chunks by (try assumption; lia).
    eexists. split; [reflexivity|]. apply GenericClaim_fold_no_hash; assumption.
  - replace (encChunks cs ++ Byte.x1a :: varintBytes (len p) ++ p)
      with (encChunks (cs ++ [CBytes Byte.x1a p])) in *
      by (rewrite encChunks_app; unfold encChunks at 2, encChunk;
          cbn [flat_map chunkTag chunkBody]; rewrite app_nil_r; reflexivity).
    rewrite GenericClaim_Unmarshal_chunks; [| | exact Hl].
    + eexists. split; [reflexivity|]. rewrite fold_left_app. reflexivity.
    + apply Forall_app. split; [exact Hg|].
      apply Forall_cons; [|apply Forall_nil]. simpl. auto.
Qed.

Lemma hash_nil_unless_on_wire_witness :
  let m := GenericClaim_zero in
  let cs := [CVarint Byte.x08 5] in
  (exists m', GenericClaim_Unmarshal m (encChunks cs) = (m', Ok tt)
              /\ Hash m' = Hash m)
  /\ (exists m', GenericClaim_Unmarshal m
                   (encChunks cs ++ Byte.x1a :: varintBytes (len (@nil byte)) ++ []) = (m', Ok tt)
                 /\ Hash m' = Some []).
Proof.
  cbv zeta.
  apply (@hash_nil_unless_on_wire GenericClaim_zero [CVarint Byte.x08 5] []).
  - apply Forall_cons; [|apply Forall_nil]. simpl. split; [left; reflexivity | lia].
  - apply Forall_cons; [|apply Forall_nil]. simpl. discriminate.
  - vm_compute. reflexivity.
Defined.

(** ** C6: groups in [skipTypes] *)









(** * No input makes [Unmarshal] panic *)

Lemma advances_weaken lo lo' hi hi' o :
  lo' <= lo -> hi <= hi' -> advances lo hi o -> advances lo' hi' o.
Proof. destruct o; simpl; auto. lia. Qed.

Lemma index_inside dAtA i :
  0 <= i < len dAtA -> exists b, Buf.index dAtA i = Some b.
Proof.
  intros H. unfold Buf.index.
  replace (0 <=? i) with true by (symmetry; apply Z.leb_le; lia).
  replace (i <? len dAtA) with true by (symmetry; apply Z.ltb_lt; lia).
  cbn [andb]. destruct (nth_error dAtA (Z.to_nat i)) as [b|] eqn:E; [eauto|].
  apply nth_error_None in E. unfold len in H. lia.
Qed.

Lemma signed_id n x : 0 < n -> - 2 ^ (n - 1) <= x < 2 ^ (n - 1) -> signed n x = x.
Proof.
  intros Hn H. unfold signed.
  assert (E : 2 ^ n = 2 * 2 ^ (n - 1)).
  { rewrite <- Z.pow_succ_r by lia. f_equal. lia. }
  destruct (Z_lt_le_dec x 0) as [Hneg | Hpos].
  - replace (x mod 2 ^ n) with (x + 2 ^ n).
    + destruct (Z.ltb_spec (x + 2 ^ n) (2 ^ (n - 1))); lia.
    + symmetry. rewrite <- (Z.mod_add x 1 (2 ^ n)) by lia.
      rewrite Z.mul_1_l. apply Z.mod_small. lia.
  - rewrite Z.mod_small by lia.
    destruct (Z.ltb_spec x (2 ^ (n - 1))); lia.
Qed.

Lemma lor_int64_range a b :
  - 2 ^ 63 <= a < 2 ^ 63 -> - 2 ^ 63 <= b < 2 ^ 63 -> - 2 ^ 63 <= Z.lor a b < 2 ^ 63.
Proof.
  intros Ha Hb.
  rewrite <- (@signed_id 64 a), <- (@signed_id 64 b) by (simpl; lia).
  destruct int64_lor as [_ Hl]. unfold int64 in Hl. rewrite <- Hl.
  apply (@signed_range 64). lia.
Qed.

Lemma int64_range x : - 2 ^ 63 <= int64 x < 2 ^ 63.
Proof. apply (@signed_range 64). lia. Qed.

Lemma int64_nonneg_inv x : 0 <= x < 2 ^ 64 -> 0 <= int64 x -> int64 x = x.
Proof.
  intros Hx H. unfold int64, signed in *. rewrite Z.mod_small in * by lia.
  destruct (Z.ltb_spec x (2 ^ (64 - 1))); simpl in *; lia.
Qed.

Lemma decodeVarint_loop_advances conv fuel :
  forall dAtA i shift acc,
    0 <= i -> 0 <= shift <= 70 -> 70 < shift + 7 * Z.of_nat fuel ->
    advances i (len dAtA) (snd (decodeVarint_loop conv fuel dAtA (len dAtA) i shift acc)).
Proof.
  induction fuel as [|fuel IH]; intros dAtA i shift acc Hi Hs Hf; [lia|].
  cbn [decodeVarint_loop].
  destruct (Z.geb_spec shift 64); [exact I|].
  destruct (Z.geb_spec i (len dAtA)); [exact I|].
  destruct (@index_inside dAtA i ltac:(lia)) as [b ->].
  destruct (byte.unsigned b <? 128).
  - simpl. lia.
  - eapply advances_weaken; [| | apply IH]; lia.
Qed.

Lemma decodeVarint_advances conv dAtA i :
  0 <= i -> advances i (len dAtA) (snd (decodeVarint conv dAtA (len dAtA) i)).
Proof. intros H. apply decodeVarint_loop_advances; lia. Qed.

Lemma decodeVarint_loop_int64_range fuel :
  forall dAtA l i shift acc,
    - 2 ^ 63 <= acc < 2 ^ 63 ->
    - 2 ^ 63 <= fst (decodeVarint_loop int64 fuel dAtA l i shift acc) < 2 ^ 63.
Proof.
  induction fuel as [|fuel IH]; intros dAtA l i shift acc Ha; [exact Ha|].
  cbn [decodeVarint_loop].
  destruct (shift >=? 64); [exact Ha|].
  destruct (i >=? l); [exact Ha|].
  destruct (Buf.index dAtA i) as [b|]; [|exact Ha].
  assert (Hacc : - 2 ^ 63 <= Z.lor acc (int64 (Z.shiftl (Z.land (byte.unsigned b) 127) shift))
                 < 2 ^ 63) by (apply lor_int64_range; [exact Ha | apply int64_range]).
  destruct (byte.unsigned b <? 128); [exact Hacc | apply IH; exact Hacc].
Qed.

Lemma decodeVarint_int64_range dAtA l i :
  - 2 ^ 63 <= fst (decodeVarint int64 dAtA l i) < 2 ^ 63.
Proof. apply decodeVarint_loop_int64_range. lia. Qed.

Lemma skipVarint_loop_advances fuel :
  forall dAtA i shift,
    0 <= i -> 0 <= shift <= 70 -> 70 < shift + 7 * Z.of_nat fuel ->
    advances i (len dAtA) (skipVarint_loop fuel dAtA (len dAtA) i shift).
Proof.
  induction fuel as [|fuel IH]; intros dAtA i shift Hi Hs Hf; [lia|].
  cbn [skipVarint_loop].
  destruct (Z.geb_spec shift 64); [exact I|].
  destruct (Z.geb_spec i (len dAtA)); [exact I|].
  replace (i + 1 - 1) with i by lia.
  destruct (@index_inside dAtA i ltac:(lia)) as [b ->].
  destruct (byte.unsigned b <? 128).
  - simpl. lia.
  - eapply advances_weaken; [| | apply IH]; lia.
Qed.

(** What [lengthDelimited] returns lies in the buffer, after [iNdEx]. *)
Lemma lengthDelimited_returns dAtA i length :
  0 <= i <= len dAtA -> len dAtA < 2 ^ 63 -> length < 2 ^ 63 ->
  match lengthDelimited dAtA (len dAtA) i length with
  | Ok (s, postIndex) => i <= postIndex <= len dAtA /\ len s <= len dAtA
  | Fail _ => True
  | Panic | OutOfFuel => False
  end.
Proof.
  intros Hi Hl Hn. unfold lengthDelimited.
  destruct (Z.ltb_spec length 0); [exact I|].
  destruct (Z.ltb_spec (int64 (i + length)) 0); [exact I|].
  destruct (Z.gtb_spec (int64 (i + length)) (len dAtA)); [exact I|].
  rewrite int64_nonneg_inv in * by lia.
  unfold Buf.slice.
  replace (0 <=? i) with true by (symmetry; apply Z.leb_le; lia).
  replace (i <=? i + length) with true by (symmetry; apply Z.leb_le; lia).
  replace (i + length <=? len dAtA) with true by (symmetry; apply Z.leb_le; lia).
  cbn [andb orPanic bind]. split; [lia|].
  unfold Buf.take, Buf.drop, len. rewrite length_firstn, length_skipn. lia.
Qed.

Lemma int64_add_after i c :
  0 <= i < 2 ^ 63 -> 0 <= c < 2 ^ 63 ->
  int64 (i + c) < 2 ^ 63 /\ (0 <= int64 (i + c) -> i <= int64 (i + c)).
Proof.
  intros Hi Hc. split; [apply int64_range|].
  intros H. rewrite int64_nonneg_inv by lia. lia.
Qed.

Lemma skipTypes_loop_advances fuel :
  forall dAtA i depth,
    0 <= i -> len dAtA < 2 ^ 63 -> len dAtA - i <= Z.of_nat fuel ->
    advances i (2 ^ 63 - 1) (skipTypes_loop fuel dAtA (len dAtA) i depth).
Proof.
  induction fuel as [|fuel IH]; intros dAtA i depth Hi Hl Hf.
  - cbn [skipTypes_loop]. destruct (Z.ltb_spec i (len dAtA)); [lia | exact I].
  - cbn [skipTypes_loop]. destruct (Z.ltb_spec i (len dAtA)); [|exact I].
    pose proof (decodeVarint_advances uint64 dAtA Hi) as Hd.
    destruct (decodeVarint uint64 dAtA (len dAtA) i) as [wire [i1 | e | |]];
      simpl in Hd; try contradiction; try exact I.
    match goal with
    | |- advances _ _ (bind ?c _) =>
      assert (Hstep : match c with
                      | Ok (i2, _) => i2 < 2 ^ 63 /\ (0 <= i2 -> i1 <= i2)
                      | Fail _ => True
                      | Panic | OutOfFuel => False
                      end)
    end.
    { destruct (Z.land wire 7 =? 0).
      { pose proof (@skipVarint_loop_advances 11 dAtA i1 0 ltac:(lia) ltac:(lia) ltac:(lia)) as Hs.
        destruct (skipVarint_loop 11 dAtA (len dAtA) i1 0); simpl in *; auto. lia. }
      destruct (Z.land wire 7 =? 1).
      { apply int64_add_after; lia. }
      destruct (Z.land wire 7 =? 2).
      { pose proof (@decodeVarint_advances int64 dAtA i1 ltac:(lia)) as Hs.
        pose proof (decodeVarint_int64_range dAtA (len dAtA) i1) as Hr.
        destruct (decodeVarint int64 dAtA (len dAtA) i1) as [length [i2 | e | |]];
          simpl in *; auto.
        destruct (Z.ltb_spec length 0); [exact I|].
        destruct (@int64_add_after i2 length ltac:(lia) ltac:(lia)) as [H1 H2].
        split; [exact H1 | intros Hnn; specialize (H2 Hnn); lia]. }
      destruct (Z.land wire 7 =? 3).
      { simpl. lia. }
      destruct (Z.land wire 7 =? 4).
      { destruct (depth =? 0); simpl; auto. lia. }
      destruct (Z.land wire 7 =? 5).
      { apply int64_add_after; lia. }
      exact I. }
    match goal with
    | |- advances _ _ (bind ?c _) => destruct c as [[i2 d2] | e | |]
    end; cbn [bind]; try contradiction; try exact I.
    destruct Hstep as [Hu Hge].
    destruct (Z.ltb_spec i2 0); [exact I|].
    specialize (Hge ltac:(lia)).
    destruct (d2 =? 0).
    + simpl. lia.
    + eapply advances_weaken; [| | apply IH]; lia.
Qed.

Lemma skipTypes_advances dAtA :
  len dAtA < 2 ^ 63 -> advances 0 (2 ^ 63 - 1) (skipTypes dAtA).
Proof.
  intros H. unfold skipTypes. apply skipTypes_loop_advances; unfold len in *; lia.
Qed.

Lemma skipUnknown_advances dAtA pre :
  0 <= pre <= len dAtA -> len dAtA < 2 ^ 63 ->
  advances pre (len dAtA) (skipUnknown dAtA (len dAtA) pre).
Proof.
  intros Hp Hl. unfold skipUnknown, Buf.slice.
  replace (0 <=? pre) with true by (symmetry; apply Z.leb_le; lia).
  replace (pre <=? len dAtA) with true by (symmetry; apply Z.leb_le; lia).
  rewrite Z.leb_refl. cbn [andb orPanic bind].
  set (sub := Buf.take (len dAtA - pre) (Buf.drop pre dAtA)).
  assert (Hs : len sub < 2 ^ 63).
  { unfold sub, Buf.take, Buf.drop, len in *. rewrite length_firstn, length_skipn. lia. }
  pose proof (@skipTypes_advances sub Hs) as Ha.
  destruct (skipTypes sub) as [skippy | e | |]; simpl in Ha; try contradiction; try exact I.
  cbn [bind].
  destruct (Z.ltb_spec skippy 0); [exact I|].
  destruct (Z.ltb_spec (int64 (pre + skippy)) 0); [exact I|].
  destruct (Z.gtb_spec (int64 (pre + skippy)) (len dAtA)); [exact I|].
  rewrite int64_nonneg_inv in * by lia. simpl. lia.
Qed.

(** * The readers of one field return *)

Lemma scalarField_advances (M : Type) conv (set : M -> Z -> M) m dAtA i :
  0 <= i -> advances i (len dAtA) (snd (scalarField conv set m dAtA (len dAtA) i)).
Proof.
  intros Hi. unfold scalarField.
  pose proof (decodeVarint_advances conv dAtA Hi) as H.
  destruct (decodeVarint conv dAtA (len dAtA) i) as [v r]. exact H.
Qed.

Lemma stringField_advances (M : Type) (set : M -> string -> M) m dAtA i :
  0 <= i -> len dAtA < 2 ^ 63 ->
  advances i (len dAtA) (snd (stringField set m dAtA (len dAtA) i)).
Proof.
  intros Hi Hl. unfold stringField.
  pose proof (decodeVarint_advances uint64 dAtA Hi) as H.
  destruct (decodeVarint uint64 dAtA (len dAtA) i) as [v [i1 | e | |]];
    simpl in H; try contradiction; try exact I.
  pose proof (@lengthDelimited_returns dAtA i1 (int64 v) ltac:(lia) Hl
                ltac:(apply int64_range)) as Hd.
  destruct (lengthDelimited dAtA (len dAtA) i1 (int64 v)) as [[s post] | e | |];
    try contradiction; try exact I.
  simpl. lia.
Qed.

Lemma skipField_advances (M : Type) (m : M) dAtA pre :
  0 <= pre <= len dAtA -> len dAtA < 2 ^ 63 ->
  advances pre (len dAtA)
    (snd match skipUnknown dAtA (len dAtA) pre with
         | Ok iNdEx => (m, Ok iNdEx)
         | Fail e => (m, Fail e)
         | Panic => (m, Panic)
         | OutOfFuel => (m, OutOfFuel)
         end).
Proof.
  intros Hp Hl. pose proof (@skipUnknown_advances dAtA pre Hp Hl) as H.
  destruct (skipUnknown dAtA (len dAtA) pre); exact H.
Qed.

(** * The loop returns *)

Section LoopReturns.

Variable M : Type.
Variable msg : string.
Variable fields : M -> list byte -> Z -> Z -> Z -> Z -> Z -> M * outcome Z.

(** Every case of the switch leaves [iNdEx] after the tag and in the
    buffer, or returns an error. *)
Hypothesis fields_advance : forall m dAtA pre fieldNum wireType i,
  0 <= pre < i -> i <= len dAtA -> len dAtA < 2 ^ 63 ->
  advances pre (len dAtA) (snd (fields m dAtA (len dAtA) pre fieldNum wireType i)).

Lemma unmarshal_loop_returns fuel :
  forall dAtA m i,
    0 <= i -> len dAtA < 2 ^ 63 -> len dAtA - i <= Z.of_nat fuel ->
    returns (snd (unmarshal_loop msg fields fuel dAtA (len dAtA) m i)).
Proof.
  induction fuel as [|fuel IH]; intros dAtA m i Hi Hl Hf.
  - cbn [unmarshal_loop]. destruct (Z.ltb_spec i (len dAtA)); [lia | exact I].
  - cbn [unmarshal_loop]. destruct (Z.ltb_spec i (len dAtA)); [|exact I].
    pose proof (decodeVarint_advances uint64 dAtA Hi) as Hd.
    destruct (decodeVarint uint64 dAtA (len dAtA) i) as [wire [i1 | e | |]];
      simpl in Hd; try contradiction; try exact I.
    destruct (int64 (Z.land wire 7) =? 4); [exact I|].
    destruct (int32 (Z.shiftr wire 3) <=? 0); [exact I|].
    pose proof (@fields_advance m dAtA i (int32 (Z.shiftr wire 3)) (int64 (Z.land wire 7)) i1
                  ltac:(lia) ltac:(lia) Hl) as Ha.
    destruct (fields m dAtA (len dAtA) i (int32 (Z.shiftr wire 3)) (int64 (Z.land wire 7)) i1)
      as [m' [i2 | e | |]]; simpl in Ha; try contradiction; try exact I.
    apply IH; lia.
Qed.

Lemma unmarshal_returns m dAtA :
  len dAtA < 2 ^ 63 -> returns (snd (unmarshal msg fields m dAtA)).
Proof.
  intros Hl. unfold unmarshal.
  pose proof (@unmarshal_loop_returns (List.length dAtA) dAtA m 0 ltac:(lia) Hl
                ltac:(unfold len; lia)) as H.
  destruct (unmarshal_loop msg fields (List.length dAtA) dAtA (len dAtA) m 0)
    as [m' [j | e | |]]; simpl in H; try contradiction; try exact I.
  destruct (j >? len dAtA); exact I.
Qed.

End LoopReturns.

(** The cases of a switch other than those of its fields. *)
Ltac other_fieldNum fn :=
  destruct fn as [|p|p];
  try (destruct p as [p|p|]; try (destruct p as [p|p|]; try (destruct p as [p|p|])));
  try congruence.

Lemma BridgeValidator_fields_advance m dAtA pre fieldNum wireType i :
  0 <= pre < i -> i <= len dAtA -> len dAtA < 2 ^ 63 ->
  advances pre (len dAtA)
    (snd (BridgeValidator_fields m dAtA (len dAtA) pre fieldNum wireType i)).
Proof.
  intros Hp Hi Hl.
  destruct (Z.eq_dec fieldNum 1) as [-> | N1].
  { cbn [BridgeValidator_fields]. destruct (negb (wireType =? 0)); [exact I|].
    eapply advances_weaken; [| | apply scalarField_advances]; lia. }
  destruct (Z.eq_dec fieldNum 2) as [-> | N2].
  { cbn [BridgeValidator_fields]. destruct (negb (wireType =? 2)); [exact I|].
    eapply advances_weaken; [| | apply stringField_advances]; lia. }
  other_fieldNum fieldNum; cbn [BridgeValidator_fields]; apply skipField_advances; lia.
Qed.

Lemma BridgeValidator_Unmarshal_returns m dAtA :
  len dAtA < 2 ^ 63 -> returns (snd (BridgeValidator_Unmarshal m dAtA)).
Proof. apply unmarshal_returns. exact BridgeValidator_fields_advance. Qed.

Lemma Valset_fields_advance m dAtA pre fieldNum wireType i :
  0 <= pre < i -> i <= len dAtA -> len dAtA < 2 ^ 63 ->
  advances pre (len dAtA) (snd (Valset_fields m dAtA (len dAtA) pre fieldNum wireType i)).
Proof.
  intros Hp Hi Hl.
  destruct (Z.eq_dec fieldNum 1) as [-> | N1].
  { cbn [Valset_fields]. destruct (negb (wireType =? 0)); [exact I|].
    eapply advances_weaken; [| | apply scalarField_advances]; lia. }
  destruct (Z.eq_dec fieldNum 2) as [-> | N2].
  { cbn [Valset_fields]. destruct (negb (wireType =? 2)); [exact I|].
    pose proof (@decodeVarint_advances int64 dAtA i ltac:(lia)) as Hd.
    pose proof (decodeVarint_int64_range dAtA (len dAtA) i) as Hr.
    destruct (decodeVarint int64 dAtA (len dAtA) i) as [msglen [i1 | e | |]];
      simpl in Hd, Hr; try contradiction; try exact I.
    pose proof (@lengthDelimited_returns dAtA i1 msglen ltac:(lia) Hl ltac:(lia)) as Hs.
    destruct (lengthDelimited dAtA (len dAtA) i1 msglen) as [[s post] | e | |];
      try contradiction; try exact I.
    pose proof (@BridgeValidator_Unmarshal_returns BridgeValidator_zero s ltac:(lia)) as Hu.
    destruct (BridgeValidator_Unmarshal BridgeValidator_zero s) as [e [[] | err | |]];
      simpl in Hu; try contradiction; try exact I.
    simpl. lia. }
  destruct (Z.eq_dec fieldNum 3) as [-> | N3].
  { cbn [Valset_fields]. destruct (negb (wireType =? 0)); [exact I|].
    eapply advances_weaken; [| | apply scalarField_advances]; lia. }
  other_fieldNum fieldNum; cbn [Valset_fields]; apply skipField_advances; lia.
Qed.

Lemma Valset_Unmarshal_returns m dAtA :
  len dAtA < 2 ^ 63 -> returns (snd (Valset_Unmarshal m dAtA)).
Proof. apply unmarshal_returns. exact Valset_fields_advance. Qed.

Lemma GenericClaim_fields_advance m dAtA pre fieldNum wireType i :
  0 <= pre < i -> i <= len dAtA -> len dAtA < 2 ^ 63 ->
  advances pre (len dAtA)
    (snd (GenericClaim_fields m dAtA (len dAtA) pre fieldNum wireType i)).
Proof.
  intros Hp Hi Hl.
  destruct (Z.eq_dec fieldNum 1) as [-> | N1].
  { cbn [GenericClaim_fields]. destruct (negb (wireType =? 0)); [exact I|].
    eapply advances_weaken; [| | apply scalarField_advances]; lia. }
  destruct (Z.eq_dec fieldNum 2) as [-> | N2].
  { cbn [GenericClaim_fields]. destruct (negb (wireType =? 0)); [exact I|].
    eapply advances_weaken; [| | apply scalarField_advances]; lia. }
  destruct (Z.eq_dec fieldNum 3) as [-> | N3].
  { cbn [GenericClaim_fields]. destruct (negb (wireType =? 2)); [exact I|].
    pose proof (@decodeVarint_advances int64 dAtA i ltac:(lia)) as Hd.
    pose proof (decodeVarint_int64_range dAtA (len dAtA) i) as Hr.
    destruct (decodeVarint int64 dAtA (len dAtA) i) as [byteLen [i1 | e | |]];
      simpl in Hd, Hr; try contradiction; try exact I.
    pose proof (@lengthDelimited_returns dAtA i1 byteLen ltac:(lia) Hl ltac:(lia)) as Hs.
    destruct (lengthDelimited dAtA (len dAtA) i1 byteLen) as [[s post] | e | |];
      try contradiction; try exact I.
    simpl. lia. }
  destruct (Z.eq_dec fieldNum 4) as [-> | N4].
  { cbn [GenericClaim_fields]. destruct (negb (wireType =? 2)); [exact I|].
    eapply advances_weaken; [| | apply stringField_advances]; lia. }
  other_fieldNum fieldNum; cbn [GenericClaim_fields]; apply skipField_advances; lia.
Qed.

Lemma GenericClaim_Unmarshal_returns m dAtA :
  len dAtA < 2 ^ 63 -> returns (snd (GenericClaim_Unmarshal m dAtA)).
Proof. apply unmarshal_returns. exact GenericClaim_fields_advance. Qed.

(** X1: [Unmarshal] returns on every buffer a Go program can hold: the bounds
    checks of the generated code keep every index and every slice inside
    the buffer, and each round of its loops moves forward, so that the fuel
    the entry points pass is never used up. *)
Theorem unmarshal_total (r : record) (dAtA : list byte) :
  len dAtA < 2 ^ 63 -> returns (snd (Unmarshal r dAtA)).
Proof.
  intros Hl. destruct r as [m | m | m]; cbn [Unmarshal]; rewrite snd_let_pair.
  - apply BridgeValidator_Unmarshal_returns. exact Hl.
  - apply Valset_Unmarshal_returns. exact Hl.
  - apply GenericClaim_Unmarshal_returns. exact Hl.
Qed.

Lemma unmarshal_total_witness :
  returns (snd (Unmarshal (RValset Valset_zero)
                  [Byte.x12; Byte.x02; Byte.x08; Byte.xff; Byte.x2b; Byte.x0a; Byte.xff])).
Proof.
  apply (@unmarshal_total (RValset Valset_zero)
           [Byte.x12; Byte.x02; Byte.x08; Byte.xff; Byte.x2b; Byte.x0a; Byte.xff]).
  vm_compute. reflexivity.
Defined.

(** * [Size], the empty encoding, and encodings put end to end *)

Lemma SizeOf_wire r : valid r = true -> SizeOf r = len (wireOf r).
Proof.
  destruct r as [m | m | m]; cbn [valid SizeOf]; intros H.
  - apply BridgeValidator_valid_inv in H. apply BridgeValidator_Size_wire. tauto.
  - apply Valset_valid_inv in H. apply Valset_Size_wire; tauto.
  - apply GenericClaim_valid_inv in H. apply GenericClaim_Size_wire. tauto.
Qed.

(** X2: [Size] is the length of what [Marshal] returns, for every record the
    code can be given: the buffer [Marshal] allocates is filled exactly. *)
Theorem size_is_marshal_length (r : record) :
  valid r = true ->
  exists dAtA, Marshal r = Ok dAtA /\ SizeOf r = len dAtA.
Proof.
  intros H. exists (wireOf r). split.
  - apply Marshal_wire. exact H.
  - apply SizeOf_wire. exact H.
Qed.

Lemma size_is_marshal_length_witness :
  exists dAtA,
    Marshal (RGenericClaim (mkGenericClaim 5 (-1) (Some [Byte.xde; Byte.xad]) "cosmos1")) = Ok dAtA
    /\ SizeOf (RGenericClaim (mkGenericClaim 5 (-1) (Some [Byte.xde; Byte.xad]) "cosmos1"))
       = len dAtA.
Proof.
  apply (@size_is_marshal_length
           (RGenericClaim (mkGenericClaim 5 (-1) (Some [Byte.xde; Byte.xad]) "cosmos1"))).
  vm_compute. reflexivity.
Defined.

(** ** The empty encoding *)

Lemma Unmarshal_nothing r : Unmarshal r [] = (r, Ok tt).
Proof. destruct r; reflexivity. Qed.

Lemma nilIfEmpty_elems (A : Type) (s : slice A) : nilIfEmpty s = None -> elems s = [].
Proof. destruct s as [[|x l]|]; simpl; congruence. Qed.

Lemma zero_wire r : emptyToNil r = fresh r -> wireOf r = [].
Proof.
  destruct r as [[p a] | [n ms h] | [n c hs s]]; cbn [emptyToNil fresh]; intros E.
  - inversion E; subst. reflexivity.
  - inversion E as [[En Em Eh]]. subst.
    unfold wireOf, chunksOf, Valset_chunks. cbn [Nonce Members Height].
    rewrite (nilIfEmpty_elems _ Em). reflexivity.
  - inversion E as [[En Ec Eh Es]]. subst.
    unfold wireOf, chunksOf, GenericClaim_chunks. cbn [EventNonce ClaimType Hash EventClaimer].
    rewrite (nilIfEmpty_elems _ Eh). reflexivity.
Qed.

(** X3: zero-value suppression, both ways.  A record the code can be given
    is encoded as no bytes at all exactly when every field of it has its
    zero value (a slice without elements counting as nil). *)
Theorem marshal_empty_iff_zero (r : record) :
  valid r = true ->
  (Marshal r = Ok [] <-> emptyToNil r = fresh r).
Proof.
  intros H. rewrite (Marshal_wire _ H). split.
  - intros E. injection E as E.
    pose proof (Unmarshal_wire _ H) as U. rewrite E, Unmarshal_nothing in U.
    injection U as U. symmetry. exact U.
  - intros E. rewrite (zero_wire _ E). reflexivity.
Qed.

Lemma marshal_empty_iff_zero_witness :
  Marshal (RValset (mkValset 0 (Some []) 0)) = Ok []
  <-> emptyToNil (RValset (mkValset 0 (Some []) 0)) = fresh (RValset (mkValset 0 (Some []) 0)).
Proof.
  apply (@marshal_empty_iff_zero (RValset (mkValset 0 (Some []) 0))).
  vm_compute. reflexivity.
Defined.

(** X4: two records of the same kind with the same encoding are the same
    record, up to empty slices being nil: [Marshal] loses nothing else. *)
Theorem marshal_injective (a b : record) :
  valid a = true -> valid b = true -> fresh a = fresh b ->
  Marshal a = Marshal b ->
  emptyToNil a = emptyToNil b.
Proof.
  intros Ha Hb Hk E. rewrite (Marshal_wire _ Ha), (Marshal_wire _ Hb) in E.
  injection E as E.
  pose proof (Unmarshal_wire _ Ha) as Ua. pose proof (Unmarshal_wire _ Hb) as Ub.
  rewrite Hk, E, Ub in Ua. injection Ua as Ua. symmetry. exact Ua.
Qed.

Lemma marshal_injective_witness :
  emptyToNil (RValset (mkValset 3 None 0)) = emptyToNil (RValset (mkValset 3 (Some []) 0)).
Proof.
  apply (@marshal_injective (RValset (mkValset 3 None 0)) (RValset (mkValset 3 (Some []) 0)));
    vm_compute; reflexivity.
Defined.

(** ** Two encodings end to end *)

Lemma known_fresh r c : known (fresh r) c <-> known r c.
Proof. destruct r; reflexivity. Qed.

Lemma fresh_assign r c : fresh (assign r c) = fresh r.
Proof. destruct r; reflexivity. Qed.

Lemma fresh_fold_assign cs : forall r, fresh (fold_left assign cs r) = fresh r.
Proof.
  induction cs as [|c cs IH]; intros r; [reflexivity|].
  cbn [fold_left]. rewrite IH. apply fresh_assign.
Qed.

Lemma known_same_kind r r' : fresh r = fresh r' -> forall c, known r c -> known r' c.
Proof.
  intros E c H. apply known_fresh. rewrite <- E. apply known_fresh. exact H.
Qed.

Lemma chunksOf_known_for r a :
  valid a = true -> fresh a = fresh r -> Forall (known r) (chunksOf a).
Proof.
  intros Ha E. eapply Forall_impl; [|apply (chunksOf_known _ Ha)].
  intros c Hc. apply known_fresh. rewrite <- E. exact Hc.
Qed.

Lemma Unmarshal_marshalled r a :
  valid a = true -> fresh a = fresh r ->
  Unmarshal r (wireOf a) = (fold_left assign (chunksOf a) r, Ok tt).
Proof.
  intros Ha E. apply Unmarshal_chunks.
  - apply chunksOf_known_for; assumption.
  - apply valid_fits. exact Ha.
Qed.

Lemma Unmarshal_two r a b :
  valid a = true -> valid b = true -> fresh a = fresh r -> fresh b = fresh r ->
  len (wireOf a ++ wireOf b) < 2 ^ 63 ->
  Unmarshal r (wireOf a ++ wireOf b)
  = (fold_left assign (chunksOf b) (fold_left assign (chunksOf a) r), Ok tt).
Proof.
  intros Ha Hb Ea Eb Hl. unfold wireOf in *.
  rewrite <- encChunks_app in *. rewrite Unmarshal_chunks.
  - rewrite fold_left_app. reflexivity.
  - apply Forall_app. split; apply chunksOf_known_for; assumption.
  - exact Hl.
Qed.

(** X5: decoding two encodings put end to end is decoding the first and
    then decoding the second into the same receiver, for every receiver of
    their kind: [Unmarshal] merges what it reads into what is there. *)
Theorem unmarshal_concat (r a b : record) (da db : list byte) :
  valid a = true -> valid b = true -> fresh a = fresh r -> fresh b = fresh r ->
  Marshal a = Ok da -> Marshal b = Ok db ->
  len (da ++ db) < 2 ^ 63 ->
  snd (Unmarshal r da) = Ok tt
  /\ Unmarshal r (da ++ db) = Unmarshal (fst (Unmarshal r da)) db.
Proof.
  intros Ha Hb Ea Eb Ma Mb Hl.
  rewrite (Marshal_wire _ Ha) in Ma. rewrite (Marshal_wire _ Hb) in Mb.
  injection Ma as <-. injection Mb as <-.
  rewrite (@Unmarshal_marshalled r a Ha Ea). cbn [fst snd]. split; [reflexivity|].
  rewrite (@Unmarshal_two r a b Ha Hb Ea Eb Hl).
  rewrite (@Unmarshal_marshalled (fold_left assign (chunksOf a) r) b Hb).
  - reflexivity.
  - rewrite fresh_fold_assign. exact Eb.
Qed.

Lemma unmarshal_concat_witness :
  snd (Unmarshal (RBridgeValidator (mkBridgeValidator 1 "x"))
         [Byte.x08; Byte.x05]) = Ok tt
  /\ Unmarshal (RBridgeValidator (mkBridgeValidator 1 "x"))
       ([Byte.x08; Byte.x05] ++ [Byte.x12; Byte.x01; Byte.x61])
     = Unmarshal (fst (Unmarshal (RBridgeValidator (mkBridgeValidator 1 "x"))
                         [Byte.x08; Byte.x05]))
         [Byte.x12; Byte.x01; Byte.x61].
Proof.
  apply (@unmarshal_concat (RBridgeValidator (mkBridgeValidator 1 "x"))
           (RBridgeValidator (mkBridgeValidator 5 ""))
           (RBridgeValidator (mkBridgeValidator 0 "a")));
    vm_compute; reflexivity.
Defined.

(** What the second encoding does to a [Valset] that holds the first. *)
Lemma Valset_fold_onto b :
  0 <= Nonce b < 2 ^ 64 -> 0 <= Height b < 2 ^ 64 ->
  Forall (fun e => member_valid e = true) (elems (Members b)) ->
  forall m,
    fold_left Valset_upd (Valset_chunks b) m
    = mkValset (if Nonce b =? 0 then Nonce m else Nonce b)
        (match elems (Members b) with
         | [] => Members m
         | _ => Some (elems (Members m) ++ elems (Members b))
         end)
        (if Height b =? 0 then Height m else Height b).
Proof.
  intros Hn Hh Hm m. unfold Valset_chunks.
  rewrite !fold_left_app, !fold_varintChunk, Valset_fold_members by exact Hm.
  destruct m as [n ms h]. destruct b as [n' ms' h']. cbn [Nonce Members Height] in *.
  destruct (Z.eqb_spec n' 0) as [-> | Hn0]; destruct (Z.eqb_spec h' 0) as [-> | Hh0];
    cbn [Valset_upd Nonce Members Height tagFieldNum];
    rewrite ?uint64_small by lia; reflexivity.
Qed.

(** X6: the encodings of two [Valset]s put end to end decode to their
    merge: the members of the first followed by the members of the second,
    in order, and for [Nonce] and [Height] the value of the second unless it
    is zero. *)
Theorem valset_merge (a b : Valset) (da db : list byte) :
  Valset_valid a = true -> Valset_valid b = true ->
  Valset_Marshal a = Ok da -> Valset_Marshal b = Ok db ->
  len (da ++ db) < 2 ^ 63 ->
  Valset_Unmarshal Valset_zero (da ++ db)
  = (mkValset (if Nonce b =? 0 then Nonce a else Nonce b)
       (nilIfEmpty (Some (elems (Members a) ++ elems (Members b))))
       (if Height b =? 0 then Height a else Height b),
     Ok tt).
Proof.
  intros Ha Hb Ma Mb Hl.
  rewrite (Valset_Marshal_wire _ Ha) in Ma. rewrite (Valset_Marshal_wire _ Hb) in Mb.
  injection Ma as <-. injection Mb as <-.
  pose proof (Valset_valid_inv _ Ha) as (Han & Hah & Ham & _).
  pose proof (Valset_valid_inv _ Hb) as (Hbn & Hbh & Hbm & _).
  unfold Valset_wire in *. rewrite <- encChunks_app in *.
  rewrite Valset_Unmarshal_chunks.
  - rewrite fold_left_app, (@Valset_fold a Han Hah Ham), (@Valset_fold_onto b Hbn Hbh Hbm).
    cbn [Nonce Members Height]. f_equal. f_equal.
    destruct a as [na [[|x ma]|] ha]; destruct b as [nb [[|y mb]|] hb];
      cbn [Members elems nilIfEmpty app]; rewrite ?app_nil_r; reflexivity.
  - apply Forall_app. split; apply Valset_chunks_good; assumption.
  - exact Hl.
Qed.

Lemma valset_merge_witness :
  Valset_Unmarshal Valset_zero
    ([Byte.x08; Byte.x07; Byte.x12; Byte.x02; Byte.x08; Byte.x01]
     ++ [Byte.x12; Byte.x02; Byte.x08; Byte.x02; Byte.x18; Byte.x09])
  = (mkValset 7 (Some [Some (mkBridgeValidator 1 ""); Some (mkBridgeValidator 2 "")]) 9, Ok tt).
Proof.
  apply (@valset_merge (mkValset 7 (Some [Some (mkBridgeValidator 1 "")]) 0)
           (mkValset 0 (Some [Some (mkBridgeValidator 2 "")]) 9));
    vm_compute; reflexivity.
Defined.

(** What the second encoding does to a [GenericClaim] that holds the first. *)
Lemma GenericClaim_fold_onto b :
  0 <= EventNonce b < 2 ^ 64 -> - 2 ^ 31 <= ClaimType b < 2 ^ 31 ->
  forall m,
    fold_left GenericClaim_upd (GenericClaim_chunks b) m
    = mkGenericClaim (if EventNonce b =? 0 then EventNonce m else EventNonce b)
        (if ClaimType b =? 0 then ClaimType m else ClaimType b)
        (if len (elems (Hash b)) >? 0 then Hash b else Hash m)
        (if len (bytesOf (EventClaimer b)) >? 0 then EventClaimer b else EventClaimer m).
Proof.
  intros Hn Hc m. unfold GenericClaim_chunks.
  rewrite !fold_left_app, !fold_varintChunk, !fold_bytesChunk.
  assert (Hh : (len (elems (Hash b)) >? 0) = true -> Some (elems (Hash b)) = Hash b).
  { destruct (Hash b) as [[|x l]|]; cbn [elems]; try reflexivity;
      rewrite len_nil; discriminate. }
  destruct m as [n c h s]. destruct b as [n' c' h' s'].
  cbn [EventNonce ClaimType Hash EventClaimer] in *.
  destruct (Z.eqb_spec n' 0) as [-> | Hn0]; destruct (Z.eqb_spec c' 0) as [-> | Hc0];
    destruct (len (elems h') >? 0) eqn:Eh; destruct (len (bytesOf s') >? 0) eqn:Es;
    cbn [GenericClaim_upd EventNonce ClaimType Hash EventClaimer];
    change (tagFieldNum Byte.x08 =? 1) with true;
    change (tagFieldNum Byte.x10 =? 1) with false;
    change (tagFieldNum Byte.x1a =? 3) with true;
    change (tagFieldNum Byte.x22 =? 3) with false; cbv iota;
    rewrite ?stringOf_bytesOf, ?int32_uint64, ?uint64_small, ?Hh by (reflexivity || lia);
    reflexivity.
Qed.

(** X7: the encodings of two [GenericClaim]s put end to end decode to their
    merge: each field has the value of the second unless that is zero or
    empty.  A non-empty [Hash] of the second replaces the [Hash] of the
    first (it is not appended to it, as the members of a [Valset] are). *)
Theorem generic_claim_merge (a b : GenericClaim) (da db : list byte) :
  GenericClaim_valid a = true -> GenericClaim_valid b = true ->
  GenericClaim_Marshal a = Ok da -> GenericClaim_Marshal b = Ok db ->
  len (da ++ db) < 2 ^ 63 ->
  GenericClaim_Unmarshal GenericClaim_zero (da ++ db)
  = (mkGenericClaim (if EventNonce b =? 0 then EventNonce a else EventNonce b)
       (if ClaimType b =? 0 then ClaimType a else ClaimType b)
       (if len (elems (Hash b)) >? 0 then Hash b else nilIfEmpty (Hash a))
       (if len (bytesOf (EventClaimer b)) >? 0 then EventClaimer b else EventClaimer a),
     Ok tt).
Proof.
  intros Ha Hb Ma Mb Hl.
  rewrite (GenericClaim_Marshal_wire _ Ha) in Ma.
  rewrite (GenericClaim_Marshal_wire _ Hb) in Mb.
  injection Ma as <-. injection Mb as <-.
  pose proof (GenericClaim_valid_inv _ Ha) as (Han & Hac & _).
  pose proof (GenericClaim_valid_inv _ Hb) as (Hbn & Hbc & _).
  unfold GenericClaim_wire in *. rewrite <- encChunks_app in *.
  rewrite GenericClaim_Unmarshal_chunks.
  - rewrite fold_left_app, (@GenericClaim_fold a Han Hac), (@GenericClaim_fold_onto b Hbn Hbc).
    reflexivity.
  - apply Forall_app. split; apply GenericClaim_chunks_good.
  - exact Hl.
Qed.

Lemma generic_claim_merge_witness :
  GenericClaim_Unmarshal GenericClaim_zero
    ([Byte.x08; Byte.x07; Byte.x1a; Byte.x02; Byte.xaa; Byte.xbb]
     ++ [Byte.x10; Byte.x03; Byte.x1a; Byte.x01; Byte.xcc])
  = (mkGenericClaim 7 3 (Some [Byte.xcc]) "", Ok tt).
Proof.
  apply (@generic_claim_merge (mkGenericClaim 7 0 (Some [Byte.xaa; Byte.xbb]) "")
           (mkGenericClaim 0 3 (Some [Byte.xcc]) ""));
    vm_compute; reflexivity.
Defined.

(** * Varints: written and read back, too long, and [sozTypes] *)

(** X8: what [encodeVarintTypes] writes below [offset], the varint loop of
    the decoders reads back from the returned position: the value, and
    [offset] as the position after it. *)
Theorem varint_written_is_read (dAtA : list byte) (offset v : Z) :
  0 <= v < 2 ^ 64 -> sovTypes v <= offset <= len dAtA ->
  exists d,
    encodeVarintTypes dAtA offset v = Ok (d, offset - sovTypes v)
    /\ len d = len dAtA
    /\ decodeVarint uint64 d (len d) (offset - sovTypes v) = (v, Ok offset).
Proof.
  intros Hv Ho. pose proof (sovTypes_bounds Hv) as Hs.
  pose proof (len_varintBytes Hv) as Hlen.
  rewrite encodeVarintTypes_spec by assumption.
  eexists. split; [reflexivity|].
  assert (Ht : len (Buf.take (offset - sovTypes v) dAtA) = offset - sovTypes v)
    by (apply len_take; lia).
  split.
  - rewrite !len_app, Ht, Hlen, len_drop by lia. lia.
  - erewrite decodeVarint_bytes with (v := v) (rest := Buf.drop offset dAtA).
    + rewrite uint64_small by exact Hv. rewrite Hlen. do 2 f_equal. lia.
    + exact uint64_lor.
    + exact Hv.
    + exists (Buf.take (offset - sovTypes v) dAtA). split; [reflexivity | symmetry; exact Ht].
Qed.

Lemma varint_written_is_read_witness :
  exists d,
    encodeVarintTypes (repeat Byte.xff 4) 3 300 = Ok (d, 3 - sovTypes 300)
    /\ len d = len (repeat Byte.xff 4)
    /\ decodeVarint uint64 d (len d) (3 - sovTypes 300) = (300, Ok 3).
Proof.
  apply (@varint_written_is_read (repeat Byte.xff 4) 3 300); vm_compute; split; congruence.
Defined.

(** ** A run of continuation bytes *)

Lemma decodeVarint_loop_continues conv q :
  forall fuel dAtA i shift acc rest,
    Forall continues q -> cursor dAtA i (q ++ rest) ->
    shift + 7 * len q <= 70 -> (List.length q <= fuel)%nat ->
    decodeVarint_loop conv fuel dAtA (len dAtA) i shift acc
    = decodeVarint_loop conv (fuel - List.length q) dAtA (len dAtA)
        (i + len q) (shift + 7 * len q) (groupsOf conv q shift acc).
Proof.
  induction q as [|b q IH]; intros fuel dAtA i shift acc rest Hq Hcur Hs Hf.
  - cbn [groupsOf List.length]. rewrite len_nil, Nat.sub_0_r, Z.mul_0_r, !Z.add_0_r.
    reflexivity.
  - inversion Hq as [|? ? Hb Hq']; subst. unfold continues in Hb.
    rewrite len_cons in *. pose proof (len_nonneg q).
    destruct fuel as [|fuel]; [simpl in Hf; lia|].
    cbn [decodeVarint_loop app] in *.
    destruct (Z.geb_spec shift 64); [lia|].
    pose proof (cursor_lt Hcur).
    destruct (Z.geb_spec i (len dAtA)); [lia|].
    rewrite (cursor_index Hcur).
    destruct (Z.ltb_spec (byte.unsigned b) 128); [lia|].
    rewrite (IH fuel dAtA (i + 1) (shift + 7) _ rest);
      [ | exact Hq' | apply (cursor_cons Hcur) | lia | simpl in Hf; lia ].
    cbn [groupsOf List.length]. rewrite Nat.sub_succ.
    f_equal; lia.
Qed.

Lemma decodeVarint_overflow conv dAtA i q rest :
  Forall continues q -> len q = 10 -> cursor dAtA i (q ++ rest) ->
  snd (decodeVarint conv dAtA (len dAtA) i) = Fail ErrIntOverflowTypes.
Proof.
  intros Hq Hl Hcur. unfold decodeVarint.
  assert (Hn : List.length q = 10%nat) by (unfold len in Hl; lia).
  rewrite (@decodeVarint_loop_continues conv q 11%nat dAtA i 0 0 rest); try assumption; try lia.
  rewrite Hn, Hl. reflexivity.
Qed.

Lemma nonempty_of_len (A : Type) (q : list A) : 0 < len q -> exists b q', q = b :: q'.
Proof. destruct q as [|b q']; [rewrite len_nil; lia | eauto]. Qed.

Lemma tag_x08 :
  byte.unsigned Byte.x08 < 128
  /\ (tagWireType Byte.x08 =? 4) = false
  /\ (tagFieldNum Byte.x08 <=? 0) = false.
Proof. repeat split. Qed.

(** X9: a varint of more than ten bytes is refused.  Ten bytes in a row with
    the continuation bit set make the varint loop stop with
    [ErrIntOverflowTypes], whatever the conversion and whatever follows; so
    does [Unmarshal] of every kind when such a run stands where a tag is
    expected or as the value of field 1. *)
Theorem varint_overflow (r : record) (q rest : list byte) :
  Forall continues q -> len q = 10 ->
  (forall conv dAtA i, cursor dAtA i (q ++ rest) ->
     snd (decodeVarint conv dAtA (len dAtA) i) = Fail ErrIntOverflowTypes)
  /\ Unmarshal r (q ++ rest) = (r, Fail ErrIntOverflowTypes)
  /\ snd (Unmarshal r (Byte.x08 :: q ++ rest)) = Fail ErrIntOverflowTypes.
Proof.
  intros Hq Hl. split; [|split].
  - intros conv dAtA i Hcur. exact (@decodeVarint_overflow conv dAtA i q rest Hq Hl Hcur).
  - pose proof (@decodeVarint_overflow uint64 (q ++ rest) 0 q rest Hq Hl
                  (cursor_start _)) as E.
    destruct (@nonempty_of_len _ q ltac:(lia)) as (b & q' & ->).
    assert (Hlt : (0 <? len ((b :: q') ++ rest)) = true).
    { apply Z.ltb_lt. rewrite len_app. pose proof (len_nonneg rest). lia. }
    destruct r as [m | m | m]; cbn [Unmarshal];
      unfold BridgeValidator_Unmarshal, Valset_Unmarshal, GenericClaim_Unmarshal, unmarshal;
      cbn [List.length app unmarshal_loop]; cbn [app] in Hlt, E; rewrite Hlt;
      destruct (decodeVarint uint64 _ _ 0) as [w o]; cbn [snd] in E; subst o; reflexivity.
  - set (dAtA := Byte.x08 :: q ++ rest).
    assert (Hcur : cursor dAtA 0 (Byte.x08 :: q ++ rest)) by apply cursor_start.
    assert (Hcur1 : cursor dAtA (0 + 1) (q ++ rest)) by apply (cursor_cons Hcur).
    pose proof (fun conv => @decodeVarint_overflow conv dAtA (0 + 1) q rest Hq Hl Hcur1) as E.
    destruct tag_x08 as (Ht & Hw & Hn).
    destruct r as [m | m | m]; cbn [Unmarshal]; rewrite snd_let_pair;
      unfold BridgeValidator_Unmarshal, Valset_Unmarshal, GenericClaim_Unmarshal, unmarshal;
      change (List.length dAtA) with (S (List.length (q ++ rest)));
      rewrite (loop_step _ _ _ m Hcur Ht Hw Hn);
      change (tagFieldNum Byte.x08) with 1; change (tagWireType Byte.x08) with 0;
      cbn [BridgeValidator_fields Valset_fields GenericClaim_fields Z.eqb negb];
      unfold scalarField; specialize (E uint64);
      destruct (decodeVarint uint64 dAtA (len dAtA) (0 + 1)) as [w o];
      cbn [snd] in E; subst o; reflexivity.
Qed.

Lemma varint_overflow_witness :
  (forall conv dAtA i, cursor dAtA i (repeat Byte.xff 10 ++ [Byte.x01]) ->
     snd (decodeVarint conv dAtA (len dAtA) i) = Fail ErrIntOverflowTypes)
  /\ Unmarshal (RValset Valset_zero) (repeat Byte.xff 10 ++ [Byte.x01])
     = (RValset Valset_zero, Fail ErrIntOverflowTypes)
  /\ snd (Unmarshal (RValset Valset_zero) (Byte.x08 :: repeat Byte.xff 10 ++ [Byte.x01]))
     = Fail ErrIntOverflowTypes.
Proof.
  apply (@varint_overflow (RValset Valset_zero) (repeat Byte.xff 10) [Byte.x01]).
  - repeat (apply Forall_cons; [unfold continues; vm_compute; congruence|]). apply Forall_nil.
  - reflexivity.
Defined.

(** ** The tenth byte *)

Lemma uint64_shiftl_63 x : 0 <= x -> uint64 (Z.shiftl x 63) = 2 ^ 63 * (x mod 2).
Proof.
  intros H. unfold uint64. rewrite Z.shiftl_mul_pow2 by lia.
  change (2 ^ 64) with (2 * 2 ^ 63).
  rewrite Z.mul_mod_distr_r by lia. lia.
Qed.

Lemma mod2_odd x : x mod 2 = if Z.odd x then 1 else 0.
Proof. apply Zmod_odd. Qed.

Lemma decodeVarint_ten dAtA i q b rest :
  Forall continues q -> len q = 9 -> byte.unsigned b < 128 ->
  cursor dAtA i (q ++ b :: rest) ->
  decodeVarint uint64 dAtA (len dAtA) i
  = (Z.lor (groupsOf uint64 q 0 0) (2 ^ 63 * (if Z.odd (byte.unsigned b) then 1 else 0)),
     Ok (i + 10)).
Proof.
  intros Hq Hl Hb Hcur. unfold decodeVarint.
  assert (Hn : List.length q = 9%nat) by (unfold len in Hl; lia).
  rewrite (@decodeVarint_loop_continues uint64 q 11%nat dAtA i 0 0 (b :: rest));
    try assumption; try lia.
  rewrite Hn, Hl. change (11 - 9)%nat with 2%nat. change (0 + 7 * 9) with 63.
  apply cursor_app in Hcur. rewrite Hl in Hcur.
  cbn [decodeVarint_loop].
  destruct (Z.geb_spec 63 64); [lia|].
  pose proof (cursor_lt Hcur).
  destruct (Z.geb_spec (i + 9) (len dAtA)); [lia|].
  rewrite (cursor_index Hcur).
  destruct (Z.ltb_spec (byte.unsigned b) 128); [|lia].
  pose proof (unsigned_range b).
  rewrite small_low7 by lia. rewrite uint64_shiftl_63 by lia. rewrite mod2_odd.
  f_equal. f_equal. lia.
Qed.

(** X10: the tenth byte of a varint is not checked for overflow.  After nine
    continuation bytes a tenth byte below 0x80 is accepted whatever its
    value, and of its seven bits only the lowest reaches the result: two
    inputs that differ in the other six decode to the same number, with no
    [ErrIntOverflowTypes]. *)
Theorem varint_tenth_byte (q : list byte) (b b' : byte) (rest rest' : list byte) :
  Forall continues q -> len q = 9 ->
  byte.unsigned b < 128 -> byte.unsigned b' < 128 ->
  Z.odd (byte.unsigned b) = Z.odd (byte.unsigned b') ->
  snd (decodeVarint uint64 (q ++ b :: rest) (len (q ++ b :: rest)) 0) = Ok 10
  /\ snd (decodeVarint uint64 (q ++ b' :: rest') (len (q ++ b' :: rest')) 0) = Ok 10
  /\ fst (decodeVarint uint64 (q ++ b :: rest) (len (q ++ b :: rest)) 0)
     = fst (decodeVarint uint64 (q ++ b' :: rest') (len (q ++ b' :: rest')) 0).
Proof.
  intros Hq Hl Hb Hb' Hodd.
  rewrite (@decodeVarint_ten (q ++ b :: rest) 0 q b rest Hq Hl Hb (cursor_start _)).
  rewrite (@decodeVarint_ten (q ++ b' :: rest') 0 q b' rest' Hq Hl Hb' (cursor_start _)).
  cbn [fst snd]. rewrite Hodd. repeat split.
Qed.

Lemma varint_tenth_byte_witness :
  snd (decodeVarint uint64 (repeat Byte.xff 9 ++ [Byte.x7f]) (len (repeat Byte.xff 9 ++ [Byte.x7f])) 0)
  = Ok 10
  /\ snd (decodeVarint uint64 (repeat Byte.xff 9 ++ [Byte.x01]) (len (repeat Byte.xff 9 ++ [Byte.x01])) 0)
     = Ok 10
  /\ fst (decodeVarint uint64 (repeat Byte.xff 9 ++ [Byte.x7f]) (len (repeat Byte.xff 9 ++ [Byte.x7f])) 0)
     = fst (decodeVarint uint64 (repeat Byte.xff 9 ++ [Byte.x01]) (len (repeat Byte.xff 9 ++ [Byte.x01])) 0).
Proof.
  apply (@varint_tenth_byte (repeat Byte.xff 9) Byte.x7f Byte.x01 [] []).
  - repeat (apply Forall_cons; [unfold continues; vm_compute; congruence|]). apply Forall_nil.
  - reflexivity.
  - reflexivity.
  - reflexivity.
  - reflexivity.
Defined.

(** ** [sozTypes] *)

Lemma lxor_ones_64 a : 0 <= a < 2 ^ 64 -> Z.lxor a (2 ^ 64 - 1) = 2 ^ 64 - 1 - a.
Proof.
  intros H.
  assert (E : Z.lxor a (Z.ones 64) = Z.land (Z.lnot a) (Z.ones 64)).
  { rewrite <- (Z.mod_small a (2 ^ 64)) by lia. rewrite <- Z.land_ones by lia.
    Z.bitblast. }
  change (2 ^ 64 - 1) with (Z.ones 64) at 1. rewrite E.
  rewrite Z.land_ones by lia. unfold Z.lnot.
  replace (Z.pred (- a)) with (2 ^ 64 - 1 - a + (-1) * 2 ^ 64) by lia.
  rewrite Z.mod_add by lia. apply Z.mod_small. lia.
Qed.

(** X11: [sozTypes] is the length of the zig-zag varint.  For the [uint64]
    that holds the signed number [s], it is [sovTypes] of [2s] when [s] is
    not negative and of [-2s - 1] when it is: small magnitudes of either
    sign are short. *)
Theorem sozTypes_zigzag (s : Z) :
  - 2 ^ 63 <= s < 2 ^ 63 ->
  sozTypes (uint64 s) = sovTypes (if s <? 0 then - 2 * s - 1 else 2 * s).
Proof.
  intros H. unfold sozTypes.
  assert (Hi : int64 (uint64 s) = s).
  { unfold int64, uint64, signed. rewrite Z.mod_mod by lia.
    change (signed 64 s = s). apply signed_id; lia. }
  rewrite Hi. rewrite Z.shiftl_mul_pow2, Z.shiftr_div_pow2 by lia.
  destruct (Z.ltb_spec s 0) as [Hneg | Hpos].
  - assert (Eu : uint64 s = s + 2 ^ 64).
    { unfold uint64. replace s with (s + 2 ^ 64 + (-1) * 2 ^ 64) at 1 by lia.
      rewrite Z.mod_add by lia. apply Z.mod_small. lia. }
    assert (Ed : s / 2 ^ 63 = -1).
    { symmetry. apply (Z.div_unique s (2 ^ 63) (-1) (s + 2 ^ 63)); lia. }
    assert (Es : uint64 (uint64 s * 2 ^ 1) = 2 * s + 2 ^ 64).
    { rewrite Eu. unfold uint64.
      replace ((s + 2 ^ 64) * 2 ^ 1) with (2 * s + 2 ^ 64 + 1 * 2 ^ 64) by lia.
      rewrite Z.mod_add by lia. apply Z.mod_small. lia. }
    rewrite Es, Ed. change (uint64 (-1)) with (2 ^ 64 - 1).
    rewrite lxor_ones_64 by lia.
    rewrite uint64_small by lia. f_equal. lia.
  - rewrite (@uint64_small s) by lia.
    rewrite Z.div_small by lia. change (uint64 0) with 0. rewrite Z.lxor_0_r.
    rewrite (@uint64_small (s * 2 ^ 1)) by lia. rewrite uint64_small by lia. f_equal. lia.
Qed.

Lemma sozTypes_zigzag_witness :
  sozTypes (uint64 (-64)) = sovTypes (if -64 <? 0 then - 2 * -64 - 1 else 2 * -64).
Proof.
  apply (@sozTypes_zigzag (-64)). lia.
Defined.

(** * Fields the switch has no case for *)

(** ** [skipTypes] on one field *)

Lemma skipVarint_loop_bytes n :
  forall v fuel dAtA i shift rest,
    (1 <= n)%nat -> 0 <= v < 2 ^ (7 * Z.of_nat n) ->
    0 <= shift -> shift + 7 * Z.of_nat n <= 70 -> (n <= fuel)%nat ->
    cursor dAtA i (varintBytes_fuel n v ++ rest) ->
    skipVarint_loop fuel dAtA (len dAtA) i shift = Ok (i + len (varintBytes_fuel n v)).
Proof.
  induction n as [|n IH]; intros v fuel dAtA i shift rest Hn Hv Hs Hsh Hf Hcur; [lia|].
  destruct fuel as [|fuel]; [lia|].
  cbn [skipVarint_loop].
  destruct (Z.geb_spec shift 64); [lia|].
  replace (i + 1 - 1) with i by lia.
  destruct (Z_lt_le_dec v 128) as [Hsm | Hg].
  - rewrite varintBytes_fuel_small in * by lia. simpl app in Hcur.
    pose proof (cursor_lt Hcur).
    destruct (Z.geb_spec i (len dAtA)); [lia|].
    rewrite (cursor_index Hcur).
    rewrite unsigned_uint8 by lia.
    destruct (Z.ltb_spec v 128); [|lia].
    rewrite len_cons, len_nil. reflexivity.
  - pose proof (fuel_pos_of_large n Hg ltac:(lia)) as Hn'.
    rewrite varintBytes_fuel_step in * by lia. simpl app in Hcur.
    pose proof (cursor_lt Hcur).
    destruct (Z.geb_spec i (len dAtA)); [lia|].
    rewrite (cursor_index Hcur).
    pose proof (cont_byte_bound v).
    rewrite unsigned_uint8 by lia.
    destruct (Z.ltb_spec (Z.lor (Z.land v 127) 128) 128); [lia|].
    rewrite (IH (Z.shiftr v 7) fuel dAtA (i + 1) (shift + 7) rest);
      [ | exact Hn' | apply shiftr7_bound; [exact Hn' | lia] | lia | lia | lia
        | apply (cursor_cons Hcur) ].
    rewrite len_cons. f_equal. lia.
Qed.

Lemma land7_range x : 0 <= Z.land x 7 < 8.
Proof.
  change 7 with (Z.ones 3). rewrite Z.land_ones by lia.
  apply Z.mod_pos_bound. lia.
Qed.

Lemma tagWireType_land t : tagWireType t = Z.land (byte.unsigned t) 7.
Proof.
  unfold tagWireType. pose proof (land7_range (byte.unsigned t)).
  apply int64_small. lia.
Qed.

(** The first round of [skipTypes] on a one-byte tag, up to the switch. *)
Lemma skipTypes_tag t rest :
  byte.unsigned t < 128 ->
  skipTypes (t :: rest)
  = ('(iNdEx, depth) <-
       (let wireType := tagWireType t in
        let dAtA := t :: rest in
        let l := len dAtA in
        let iNdEx := 0 + 1 in
        let depth := 0 in
        if wireType =? 0 then
          iNdEx <- skipVarint_loop 11 dAtA l iNdEx 0 ;; Ok (iNdEx, depth)
        else if wireType =? 1 then
          Ok (int64 (iNdEx + 8), depth)
        else if wireType =? 2 then
          match decodeVarint int64 dAtA l iNdEx with
          | (length, Ok iNdEx) =>
            if length <? 0 then Fail ErrInvalidLengthTypes
            else Ok (int64 (iNdEx + length), depth)
          | (_, Fail e) => Fail e
          | (_, Panic) => Panic
          | (_, OutOfFuel) => OutOfFuel
          end
        else if wireType =? 3 then
          Ok (iNdEx, int64 (depth + 1))
        else if wireType =? 4 then
          if depth =? 0 then Fail ErrUnexpectedEndOfGroupTypes
          else Ok (iNdEx, int64 (depth - 1))
        else if wireType =? 5 then
          Ok (int64 (iNdEx + 4), depth)
        else Fail (ErrIllegalWireType wireType)) ;;
     if iNdEx <? 0 then Fail ErrInvalidLengthTypes
     else if depth =? 0 then Ok iNdEx
     else skipTypes_loop (List.length rest) (t :: rest) (len (t :: rest)) iNdEx depth).
Proof.
  intros Ht. unfold skipTypes. cbn [List.length skipTypes_loop].
  assert (Hlt : (0 <? len (t :: rest)) = true).
  { apply Z.ltb_lt. rewrite len_cons. pose proof (len_nonneg rest). lia. }
  rewrite Hlt.
  rewrite (@decodeVarint_byte (t :: rest) 0 t rest Ht (cursor_start _)).
  rewrite tagWireType_land. reflexivity.
Qed.

Lemma skipTypes_varint_field t v rest :
  byte.unsigned t < 128 -> tagWireType t = 0 -> 0 <= v < 2 ^ 64 ->
  skipTypes (encChunk (CVarint t v) ++ rest) = Ok (len (encChunk (CVarint t v))).
Proof.
  intros Ht Hw Hv. unfold encChunk. cbn [chunkTag chunkBody app].
  rewrite skipTypes_tag by exact Ht. rewrite Hw. cbv zeta. cbn [Z.eqb].
  assert (Hcur : cursor (t :: varintBytes v ++ rest) (0 + 1) (varintBytes v ++ rest))
    by apply (cursor_cons (cursor_start _)).
  unfold varintBytes in *.
  rewrite (@skipVarint_loop_bytes 10 v 11%nat _ (0 + 1) 0 rest); try lia; try exact Hcur.
  cbn [bind].
  pose proof (len_nonneg (varintBytes_fuel 10 v)).
  destruct (Z.ltb_spec (0 + 1 + len (varintBytes_fuel 10 v)) 0); [lia|].
  change (0 =? 0) with true. cbv iota. rewrite !len_cons. f_equal; lia.
Qed.

Lemma skipTypes_bytes_field t p rest :
  byte.unsigned t < 128 -> tagWireType t = 2 ->
  len (encChunk (CBytes t p) ++ rest) < 2 ^ 63 ->
  skipTypes (encChunk (CBytes t p) ++ rest) = Ok (len (encChunk (CBytes t p))).
Proof.
  intros Ht Hw Hl. unfold encChunk in *. cbn [chunkTag chunkBody app] in *.
  rewrite <- app_assoc in *.
  rewrite skipTypes_tag by exact Ht. rewrite Hw. cbv zeta. cbn [Z.eqb Pos.eqb].
  pose proof (len_nonneg p). pose proof (len_nonneg rest).
  pose proof (len_nonneg (varintBytes (len p))).
  rewrite len_cons, !len_app in Hl.
  assert (Hcur : cursor (t :: varintBytes (len p) ++ p ++ rest) (0 + 1)
                   (varintBytes (len p) ++ p ++ rest))
    by apply (cursor_cons (cursor_start _)).
  rewrite (@decodeVarint_bytes int64 (len p) _ (0 + 1) (p ++ rest) int64_lor);
    [ | lia | exact Hcur ].
  rewrite int64_small by lia.
  destruct (Z.ltb_spec (len p) 0); [lia|].
  cbn [bind]. rewrite int64_small by lia.
  destruct (Z.ltb_spec (0 + 1 + len (varintBytes (len p)) + len p) 0); [lia|].
  change (0 =? 0) with true. cbv iota. rewrite len_cons, len_app. f_equal; lia.
Qed.

Lemma skipTypes_unknown r c rest :
  unknown r c -> len (encChunk c ++ rest) < 2 ^ 63 ->
  skipTypes (encChunk c ++ rest) = Ok (len (encChunk c)).
Proof.
  intros (Ht & _ & _ & Hc) Hl. destruct c as [t v | t p]; cbn [chunkTag] in *.
  - destruct Hc as [Hw Hv]. apply skipTypes_varint_field; assumption.
  - apply skipTypes_bytes_field; assumption.
Qed.

(** The [default:] branch on such a field: it is stepped over. *)
Lemma skipUnknown_chunk r c dAtA i rest :
  unknown r c -> len dAtA < 2 ^ 63 ->
  cursor dAtA i (encChunk c ++ rest) ->
  skipUnknown dAtA (len dAtA) i = Ok (i + len (encChunk c)).
Proof.
  intros Hu Hl Hcur. unfold skipUnknown.
  pose proof (cursor_range Hcur) as [Hi0 Hi].
  rewrite len_app in Hi. pose proof (len_nonneg rest). pose proof (len_nonneg (encChunk c)).
  rewrite (cursor_slice_end Hcur). cbn [orPanic bind].
  rewrite (@skipTypes_unknown r c rest Hu) by (rewrite len_app; lia).
  cbn [bind].
  destruct (Z.ltb_spec (len (encChunk c)) 0); [lia|].
  rewrite int64_small by lia.
  destruct (Z.ltb_spec (i + len (encChunk c)) 0); [lia|].
  destruct (Z.gtb_spec (i + len (encChunk c)) (len dAtA)); [lia|].
  reflexivity.
Qed.

Lemma unknown_tag r c :
  unknown r c ->
  byte.unsigned (chunkTag c) < 128
  /\ (tagWireType (chunkTag c) =? 4) = false
  /\ (tagFieldNum (chunkTag c) <=? 0) = false.
Proof.
  intros (Ht & Hn & _ & Hc). split; [exact Ht|]. split.
  - destruct c as [t v | t p]; cbn [chunkTag] in *.
    + destruct Hc as [-> _]. reflexivity.
    + rewrite Hc. reflexivity.
  - apply Z.leb_gt. exact Hn.
Qed.

(** ** The three switches on a field number without a case *)

Lemma BridgeValidator_fields_default m dAtA l pre fn wt i :
  fieldOf (RBridgeValidator m) fn = None ->
  BridgeValidator_fields m dAtA l pre fn wt i
  = match skipUnknown dAtA l pre with
    | Ok iNdEx => (m, Ok iNdEx)
    | Fail e => (m, Fail e)
    | Panic => (m, Panic)
    | OutOfFuel => (m, OutOfFuel)
    end.
Proof.
  cbn [fieldOf]. intros H. other_fieldNum fn; try discriminate H; reflexivity.
Qed.

Lemma Valset_fields_default m dAtA l pre fn wt i :
  fieldOf (RValset m) fn = None ->
  Valset_fields m dAtA l pre fn wt i
  = match skipUnknown dAtA l pre with
    | Ok iNdEx => (m, Ok iNdEx)
    | Fail e => (m, Fail e)
    | Panic => (m, Panic)
    | OutOfFuel => (m, OutOfFuel)
    end.
Proof.
  cbn [fieldOf]. intros H. other_fieldNum fn; try discriminate H; reflexivity.
Qed.

Lemma GenericClaim_fields_default m dAtA l pre fn wt i :
  fieldOf (RGenericClaim m) fn = None ->
  GenericClaim_fields m dAtA l pre fn wt i
  = match skipUnknown dAtA l pre with
    | Ok iNdEx => (m, Ok iNdEx)
    | Fail e => (m, Fail e)
    | Panic => (m, Panic)
    | OutOfFuel => (m, OutOfFuel)
    end.
Proof.
  cbn [fieldOf]. intros H. other_fieldNum fn; try discriminate H; reflexivity.
Qed.

(** ** Known and unknown fields mixed *)

Lemma unknown_hasCase r c : unknown r c -> hasCase r c = false.
Proof. intros (_ & _ & H & _). unfold hasCase. rewrite H. reflexivity. Qed.

Lemma known_hasCase r c : known r c -> hasCase r c = true.
Proof.
  destruct r as [m | m | m]; destruct c as [t v | t p]; cbn [known];
    unfold BridgeValidator_good, Valset_good, GenericClaim_good;
    intuition (subst; reflexivity).
Qed.

Lemma BridgeValidator_Unmarshal_mixed cs m :
  Forall (fun c => BridgeValidator_good c \/ unknown (RBridgeValidator BridgeValidator_zero) c) cs ->
  len (encChunks cs) < 2 ^ 63 ->
  BridgeValidator_Unmarshal m (encChunks cs)
  = (fold_left (fun m c => if hasCase (RBridgeValidator BridgeValidator_zero) c
                           then BridgeValidator_upd m c else m) cs m, Ok tt).
Proof.
  apply unmarshal_chunks
    with (good := fun c => BridgeValidator_good c
                           \/ unknown (RBridgeValidator BridgeValidator_zero) c).
  - intros c [H | H]; [apply BridgeValidator_good_tag; exact H | exact (unknown_tag H)].
  - intros c [H | H] m0 dAtA i rest Hl Hcur.
    + rewrite (@known_hasCase (RBridgeValidator BridgeValidator_zero) c H).
      apply BridgeValidator_fields_complete with (rest := rest); assumption.
    + rewrite (unknown_hasCase H).
      rewrite BridgeValidator_fields_default by (destruct H as (_ & _ & H & _); exact H).
      rewrite (skipUnknown_chunk H Hl Hcur). reflexivity.
Qed.

Lemma Valset_Unmarshal_mixed cs m :
  Forall (fun c => Valset_good c \/ unknown (RValset Valset_zero) c) cs ->
  len (encChunks cs) < 2 ^ 63 ->
  Valset_Unmarshal m (encChunks cs)
  = (fold_left (fun m c => if hasCase (RValset Valset_zero) c
                           then Valset_upd m c else m) cs m, Ok tt).
Proof.
  apply unmarshal_chunks
    with (good := fun c => Valset_good c \/ unknown (RValset Valset_zero) c).
  - intros c [H | H]; [apply Valset_good_tag; exact H | exact (unknown_tag H)].
  - intros c [H | H] m0 dAtA i rest Hl Hcur.
    + rewrite (@known_hasCase (RValset Valset_zero) c H).
      apply Valset_fields_complete with (rest := rest); assumption.
    + rewrite (unknown_hasCase H).
      rewrite Valset_fields_default by (destruct H as (_ & _ & H & _); exact H).
      rewrite (skipUnknown_chunk H Hl Hcur). reflexivity.
Qed.

Lemma GenericClaim_Unmarshal_mixed cs m :
  Forall (fun c => GenericClaim_good c \/ unknown (RGenericClaim GenericClaim_zero) c) cs ->
  len (encChunks cs) < 2 ^ 63 ->
  GenericClaim_Unmarshal m (encChunks cs)
  = (fold_left (fun m c => if hasCase (RGenericClaim GenericClaim_zero) c
                           then GenericClaim_upd m c else m) cs m, Ok tt).
Proof.
  apply unmarshal_chunks
    with (good := fun c => GenericClaim_good c
                           \/ unknown (RGenericClaim GenericClaim_zero) c).
  - intros c [H | H]; [apply GenericClaim_good_tag; exact H | exact (unknown_tag H)].
  - intros c [H | H] m0 dAtA i rest Hl Hcur.
    + rewrite (@known_hasCase (RGenericClaim GenericClaim_zero) c H).
      apply GenericClaim_fields_complete with (rest := rest); assumption.
    + rewrite (unknown_hasCase H).
      rewrite GenericClaim_fields_default by (destruct H as (_ & _ & H & _); exact H).
      rewrite (skipUnknown_chunk H Hl Hcur). reflexivity.
Qed.

Lemma fold_filter (M C : Type) (p : C -> bool) (upd : M -> C -> M) cs :
  forall m,
    fold_left (fun m c => if p c then upd m c else m) cs m
    = fold_left upd (filter p cs) m.
Proof.
  induction cs as [|c cs IH]; intros m; [reflexivity|].
  cbn [fold_left filter]. destruct (p c); cbn [fold_left]; apply IH.
Qed.

(** X12: forward compatibility.  A buffer made of fields the decoder has a
    case for and of well-formed varint and length-delimited fields with
    other field numbers decodes without error, and to what the fields with a
    case assign, in their order: the others are stepped over by [skipTypes]
    and leave no trace in the receiver. *)
Theorem unknown_fields_skipped (r : record) (cs : list chunk) :
  Forall (fun c => known r c \/ unknown r c) cs ->
  len (encChunks cs) < 2 ^ 63 ->
  Unmarshal r (encChunks cs) = (fold_left assign (filter (hasCase r) cs) r, Ok tt).
Proof.
  intros Hk Hl. destruct r as [m | m | m]; cbn [Unmarshal].
  - rewrite BridgeValidator_Unmarshal_mixed by assumption.
    rewrite fold_filter, fold_assign_BridgeValidator. reflexivity.
  - rewrite Valset_Unmarshal_mixed by assumption.
    rewrite fold_filter, fold_assign_Valset. reflexivity.
  - rewrite GenericClaim_Unmarshal_mixed by assumption.
    rewrite fold_filter, fold_assign_GenericClaim. reflexivity.
Qed.

Lemma unknown_fields_skipped_witness :
  Unmarshal (RBridgeValidator BridgeValidator_zero)
    (encChunks [CVarint Byte.x18 7; CVarint Byte.x08 300;
                CBytes Byte.x2a [Byte.x01; Byte.x02]; CBytes Byte.x12 [Byte.x61]])
  = (fold_left assign
       (filter (hasCase (RBridgeValidator BridgeValidator_zero))
          [CVarint Byte.x18 7; CVarint Byte.x08 300;
           CBytes Byte.x2a [Byte.x01; Byte.x02]; CBytes Byte.x12 [Byte.x61]])
       (RBridgeValidator BridgeValidator_zero), Ok tt).
Proof.
  apply (@unknown_fields_skipped (RBridgeValidator BridgeValidator_zero)
           [CVarint Byte.x18 7; CVarint Byte.x08 300;
            CBytes Byte.x2a [Byte.x01; Byte.x02]; CBytes Byte.x12 [Byte.x61]]).
  - apply Forall_cons; [right|apply Forall_cons; [left|apply Forall_cons;
      [right|apply Forall_cons; [left|apply Forall_nil]]]].
    + unfold unknown. cbn [chunkTag]. repeat split; try reflexivity; lia.
    + simpl. split; [reflexivity | lia].
    + unfold unknown. cbn [chunkTag]. repeat split; reflexivity.
    + reflexivity.
  - vm_compute. reflexivity.
Defined.

(** * Tags and lengths the decoders refuse *)

Section ChunkLoopEnds.

Variable M : Type.
Variable msg : string.
Variable fields : M -> list byte -> Z -> Z -> Z -> Z -> Z -> M * outcome Z.
Variable good : chunk -> Prop.
Variable upd : M -> chunk -> M.

Hypothesis good_tag : forall c, good c ->
  byte.unsigned (chunkTag c) < 128
  /\ (tagWireType (chunkTag c) =? 4) = false
  /\ (tagFieldNum (chunkTag c) <=? 0) = false.

Hypothesis fields_complete : forall c, good c ->
  forall m dAtA i rest,
    len dAtA < 2 ^ 63 ->
    cursor dAtA i (encChunk c ++ rest) ->
    fields m dAtA (len dAtA) i (tagFieldNum (chunkTag c)) (tagWireType (chunkTag c)) (i + 1)
    = (upd m c, Ok (i + len (encChunk c))).

(** Known chunks, then a tag the loop refuses before its switch. *)
Lemma unmarshal_chunks_bad_tag cs t rest m :
  Forall good cs ->
  len (encChunks cs ++ t :: rest) < 2 ^ 63 ->
  byte.unsigned t < 128 ->
  (tagWireType t =? 4) || (tagFieldNum t <=? 0) = true ->
  unmarshal msg fields m (encChunks cs ++ t :: rest)
  = (fold_left upd cs m,
     Fail (if tagWireType t =? 4 then ErrEndGroupForNonGroup msg
           else ErrIllegalTag msg (tagFieldNum t) (byte.unsigned t))).
Proof.
  intros Hg Hl Ht Hbad. unfold unmarshal.
  set (dAtA := encChunks cs ++ t :: rest) in *.
  assert (Hfuel : (List.length cs < List.length dAtA)%nat).
  { unfold dAtA. rewrite length_app. pose proof (length_encChunks cs). simpl. lia. }
  rewrite (@loop_chunks M msg fields good upd good_tag fields_complete
             cs _ dAtA m 0 (t :: rest));
    [| exact Hg | exact Hl | apply cursor_start | lia].
  destruct (List.length dAtA - List.length cs)%nat as [|fuel] eqn:Ef; [lia|].
  assert (Hcur : cursor dAtA (0 + len (encChunks cs)) (t :: rest)).
  { exists (encChunks cs). split; [reflexivity | lia]. }
  cbn [unmarshal_loop].
  pose proof (cursor_lt Hcur).
  destruct (Z.ltb_spec (0 + len (encChunks cs)) (len dAtA)); [|lia].
  rewrite (decodeVarint_byte Ht Hcur).
  fold (tagFieldNum t). fold (tagWireType t).
  destruct (tagWireType t =? 4); [reflexivity|].
  cbn [orb] in Hbad. rewrite Hbad. reflexivity.
Qed.

(** Known chunks, then a last field that the switch takes to the end of the
    buffer. *)
Lemma unmarshal_chunks_last cs t rest m m' :
  Forall good cs ->
  len (encChunks cs ++ t :: rest) < 2 ^ 63 ->
  byte.unsigned t < 128 ->
  (tagWireType t =? 4) = false ->
  (tagFieldNum t <=? 0) = false ->
  fields (fold_left upd cs m) (encChunks cs ++ t :: rest)
    (len (encChunks cs ++ t :: rest)) (len (encChunks cs))
    (tagFieldNum t) (tagWireType t) (len (encChunks cs) + 1)
  = (m', Ok (len (encChunks cs ++ t :: rest))) ->
  unmarshal msg fields m (encChunks cs ++ t :: rest) = (m', Ok tt).
Proof.
  intros Hg Hl Ht Hw Hn Hf. unfold unmarshal.
  set (dAtA := encChunks cs ++ t :: rest) in *.
  assert (Hfuel : (List.length cs < List.length dAtA)%nat).
  { unfold dAtA. rewrite length_app. pose proof (length_encChunks cs). simpl. lia. }
  rewrite (@loop_chunks M msg fields good upd good_tag fields_complete
             cs _ dAtA m 0 (t :: rest));
    [| exact Hg | exact Hl | apply cursor_start | lia].
  destruct (List.length dAtA - List.length cs)%nat as [|fuel] eqn:Ef; [lia|].
  assert (Hcur : cursor dAtA (0 + len (encChunks cs)) (t :: rest)).
  { exists (encChunks cs). split; [reflexivity | lia]. }
  rewrite (@loop_step M msg fields fuel dAtA _ _ t rest Hcur Ht Hw Hn).
  rewrite Z.add_0_l, Hf.
  rewrite (@loop_end M msg fields fuel dAtA m' (len dAtA)).
  - destruct (Z.gtb_spec (len dAtA) (len dAtA)); [lia | reflexivity].
  - exists dAtA. rewrite app_nil_r. auto.
Qed.

End ChunkLoopEnds.

(** ** The three kinds *)

Lemma Unmarshal_bad_tag r cs t rest :
  Forall (known r) cs ->
  len (encChunks cs ++ t :: rest) < 2 ^ 63 ->
  byte.unsigned t < 128 ->
  (tagWireType t =? 4) || (tagFieldNum t <=? 0) = true ->
  Unmarshal r (encChunks cs ++ t :: rest)
  = (fold_left assign cs r,
     Fail (if tagWireType t =? 4 then ErrEndGroupForNonGroup (nameOf r)
           else ErrIllegalTag (nameOf r) (tagFieldNum t) (byte.unsigned t))).
Proof.
  intros Hk Hl Ht Hbad. destruct r as [m | m | m]; cbn [Unmarshal known nameOf] in *.
  - unfold BridgeValidator_Unmarshal.
    rewrite (@unmarshal_chunks_bad_tag _ _ _ BridgeValidator_good BridgeValidator_upd
               BridgeValidator_good_tag BridgeValidator_fields_complete cs t rest m Hk Hl Ht Hbad).
    rewrite fold_assign_BridgeValidator. reflexivity.
  - unfold Valset_Unmarshal.
    rewrite (@unmarshal_chunks_bad_tag _ _ _ Valset_good Valset_upd
               Valset_good_tag Valset_fields_complete cs t rest m Hk Hl Ht Hbad).
    rewrite fold_assign_Valset. reflexivity.
  - unfold GenericClaim_Unmarshal.
    rewrite (@unmarshal_chunks_bad_tag _ _ _ GenericClaim_good GenericClaim_upd
               GenericClaim_good_tag GenericClaim_fields_complete cs t rest m Hk Hl Ht Hbad).
    rewrite fold_assign_GenericClaim. reflexivity.
Qed.

(** Known chunks, then a field at which the switch returns an error. *)
Lemma Unmarshal_fail r cs t rest r' e :
  Forall (known r) cs ->
  len (encChunks cs ++ t :: rest) < 2 ^ 63 ->
  byte.unsigned t < 128 ->
  (tagWireType t =? 4) = false ->
  (tagFieldNum t <=? 0) = false ->
  fieldsOf (fold_left assign cs r) (encChunks cs ++ t :: rest)
    (len (encChunks cs ++ t :: rest)) (len (encChunks cs))
    (tagFieldNum t) (tagWireType t) (len (encChunks cs) + 1) = (r', Fail e) ->
  Unmarshal r (encChunks cs ++ t :: rest) = (r', Fail e).
Proof.
  intros Hk Hl Ht Hw Hn Hf. destruct r as [m | m | m]; cbn [Unmarshal known] in *.
  - rewrite fold_assign_BridgeValidator in Hf. cbn [fieldsOf] in Hf.
    destruct (BridgeValidator_fields _ _ _ _ _ _ _) as [m' o] eqn:E.
    injection Hf as <- ->.
    rewrite (@BridgeValidator_Unmarshal_fail cs t rest m m' e Hk Hl Ht Hw Hn E). reflexivity.
  - rewrite fold_assign_Valset in Hf. cbn [fieldsOf] in Hf.
    destruct (Valset_fields _ _ _ _ _ _ _) as [m' o] eqn:E.
    injection Hf as <- ->.
    rewrite (@Valset_Unmarshal_fail cs t rest m m' e Hk Hl Ht Hw Hn E). reflexivity.
  - rewrite fold_assign_GenericClaim in Hf. cbn [fieldsOf] in Hf.
    destruct (GenericClaim_fields _ _ _ _ _ _ _) as [m' o] eqn:E.
    injection Hf as <- ->.
    rewrite (@GenericClaim_Unmarshal_fail cs t rest m m' e Hk Hl Ht Hw Hn E). reflexivity.
Qed.

(** Known chunks, then a last field taken to the end of the buffer. *)
Lemma Unmarshal_last r cs t rest r' :
  Forall (known r) cs ->
  len (encChunks cs ++ t :: rest) < 2 ^ 63 ->
  byte.unsigned t < 128 ->
  (tagWireType t =? 4) = false ->
  (tagFieldNum t <=? 0) = false ->
  fieldsOf (fold_left assign cs r) (encChunks cs ++ t :: rest)
    (len (encChunks cs ++ t :: rest)) (len (encChunks cs))
    (tagFieldNum t) (tagWireType t) (len (encChunks cs) + 1)
  = (r', Ok (len (encChunks cs ++ t :: rest))) ->
  Unmarshal r (encChunks cs ++ t :: rest) = (r', Ok tt).
Proof.
  intros Hk Hl Ht Hw Hn Hf. destruct r as [m | m | m]; cbn [Unmarshal known] in *.
  - rewrite fold_assign_BridgeValidator in Hf. cbn [fieldsOf] in Hf.
    destruct (BridgeValidator_fields _ _ _ _ _ _ _) as [m' o] eqn:E.
    injection Hf as <- ->. unfold BridgeValidator_Unmarshal.
    rewrite (@unmarshal_chunks_last _ _ _ BridgeValidator_good BridgeValidator_upd
               BridgeValidator_good_tag BridgeValidator_fields_complete
               cs t rest m m' Hk Hl Ht Hw Hn E).
    reflexivity.
  - rewrite fold_assign_Valset in Hf. cbn [fieldsOf] in Hf.
    destruct (Valset_fields _ _ _ _ _ _ _) as [m' o] eqn:E.
    injection Hf as <- ->. unfold Valset_Unmarshal.
    rewrite (@unmarshal_chunks_last _ _ _ Valset_good Valset_upd
               Valset_good_tag Valset_fields_complete
               cs t rest m m' Hk Hl Ht Hw Hn E).
    reflexivity.
  - rewrite fold_assign_GenericClaim in Hf. cbn [fieldsOf] in Hf.
    destruct (GenericClaim_fields _ _ _ _ _ _ _) as [m' o] eqn:E.
    injection Hf as <- ->. unfold GenericClaim_Unmarshal.
    rewrite (@unmarshal_chunks_last _ _ _ GenericClaim_good GenericClaim_upd
               GenericClaim_good_tag GenericClaim_fields_complete
               cs t rest m m' Hk Hl Ht Hw Hn E).
    reflexivity.
Qed.

(** The switch of the kind of [r] on a field number without a case. *)
Lemma fieldsOf_default r dAtA l pre fn wt i :
  fieldOf r fn = None ->
  fieldsOf r dAtA l pre fn wt i
  = match skipUnknown dAtA l pre with
    | Ok iNdEx => (r, Ok iNdEx)
    | Fail e => (r, Fail e)
    | Panic => (r, Panic)
    | OutOfFuel => (r, OutOfFuel)
    end.
Proof.
  intros H. destruct r as [m | m | m]; cbn [fieldsOf].
  - rewrite BridgeValidator_fields_default by exact H. destruct (skipUnknown dAtA l pre); reflexivity.
  - rewrite Valset_fields_default by exact H. destruct (skipUnknown dAtA l pre); reflexivity.
  - rewrite GenericClaim_fields_default by exact H. destruct (skipUnknown dAtA l pre); reflexivity.
Qed.

(** ** Tags refused before the switch *)

(** X13: a tag with wire type 4 is refused wherever a field is expected,
    whatever its field number, with "wiretype end group for non-group"; a
    tag with field number 0 and another wire type is refused with "illegal
    tag".  The fields read before stay in the receiver. *)
Theorem refused_tags (r : record) (cs : list chunk) (t : byte) (rest : list byte) :
  Forall (known r) cs ->
  byte.unsigned t < 128 ->
  tagWireType t = 4 \/ tagFieldNum t = 0 ->
  len (encChunks cs ++ t :: rest) < 2 ^ 63 ->
  Unmarshal r (encChunks cs ++ t :: rest)
  = (fold_left assign cs r,
     Fail (if tagWireType t =? 4 then ErrEndGroupForNonGroup (nameOf r)
           else ErrIllegalTag (nameOf r) 0 (byte.unsigned t))).
Proof.
  intros Hk Ht Hbad Hl.
  rewrite Unmarshal_bad_tag; try assumption.
  - destruct (Z.eqb_spec (tagWireType t) 4) as [E | N]; [reflexivity|].
    destruct Hbad as [E | E]; [contradiction|]. rewrite E. reflexivity.
  - destruct Hbad as [-> | ->]; [reflexivity|]. apply orb_true_r.
Qed.

Lemma refused_tags_witness :
  Unmarshal (RGenericClaim GenericClaim_zero)
    (encChunks [CVarint Byte.x08 5] ++ Byte.x2c :: [Byte.x00])
  = (fold_left assign [CVarint Byte.x08 5] (RGenericClaim GenericClaim_zero),
     Fail (if tagWireType Byte.x2c =? 4
           then ErrEndGroupForNonGroup (nameOf (RGenericClaim GenericClaim_zero))
           else ErrIllegalTag (nameOf (RGenericClaim GenericClaim_zero)) 0
                  (byte.unsigned Byte.x2c))).
Proof.
  apply (@refused_tags (RGenericClaim GenericClaim_zero) [CVarint Byte.x08 5] Byte.x2c
           [Byte.x00]).
  - apply Forall_cons; [|apply Forall_nil]. simpl. split; [left; reflexivity | lia].
  - reflexivity.
  - left. reflexivity.
  - vm_compute. reflexivity.
Defined.

(** ** Lengths that do not fit *)

Lemma lengthDelimited_invalid dAtA l i n :
  0 <= i < 2 ^ 63 -> 0 <= n < 2 ^ 64 -> 2 ^ 63 <= i + n ->
  lengthDelimited dAtA l i (int64 n) = Fail ErrInvalidLengthTypes.
Proof.
  intros Hi Hn Hs. unfold lengthDelimited.
  destruct (Z.ltb_spec (int64 n) 0) as [|Hpos]; [reflexivity|].
  assert (En : int64 n = n) by (apply int64_nonneg_inv; assumption).
  pose proof (int64_range n). rewrite En in *.
  assert (Ep : int64 (i + n) = i + n - 2 ^ 64).
  { unfold int64, signed. rewrite Z.mod_small by lia.
    destruct (Z.ltb_spec (i + n) (2 ^ (64 - 1))) as [Hlt | Hge]; [|reflexivity].
    change (2 ^ (64 - 1)) with (2 ^ 63) in Hlt. lia. }
  rewrite Ep.
  destruct (Z.ltb_spec (i + n - 2 ^ 64) 0); [reflexivity | lia].
Qed.

Lemma uint64_id_range n : 0 <= n < 2 ^ 64 -> uint64 n = n.
Proof. apply uint64_small. Qed.

Lemma fieldsOf_invalid_length r fn name dAtA pre i n rest :
  fieldOf r fn = Some (2, name) ->
  0 <= n < 2 ^ 64 ->
  cursor dAtA i (varintBytes n ++ rest) ->
  len dAtA < 2 ^ 63 ->
  2 ^ 63 <= i + sovTypes n + n ->
  fieldsOf r dAtA (len dAtA) pre fn 2 i = (r, Fail ErrInvalidLengthTypes).
Proof.
  intros H Hn Hcur Hl Hs.
  pose proof (cursor_range Hcur) as [Hi0 Hi]. rewrite len_app in Hi.
  pose proof (len_nonneg rest). pose proof (len_varintBytes Hn) as Hlen.
  pose proof (len_nonneg (varintBytes n)).
  assert (Hld : lengthDelimited dAtA (len dAtA) (i + len (varintBytes n)) (int64 n)
                = Fail ErrInvalidLengthTypes).
  { apply lengthDelimited_invalid; lia. }
  pose proof (@decodeVarint_bytes uint64 n dAtA i rest uint64_lor Hn Hcur) as Du.
  rewrite uint64_id_range in Du by exact Hn.
  pose proof (@decodeVarint_bytes int64 n dAtA i rest int64_lor Hn Hcur) as Di.
  destruct r as [m | m | m]; cbn [fieldOf] in H;
    (destruct fn as [|p|p]; try discriminate);
    repeat (destruct p as [p|p|]; try discriminate);
    cbn [fieldsOf BridgeValidator_fields Valset_fields GenericClaim_fields Z.eqb Pos.eqb negb];
    unfold stringField; rewrite ?Du, ?Di, Hld; reflexivity.
Qed.

(** X14: a length-delimited field whose announced length is [2^63] or more,
    or takes the position past [2^63], is refused with
    [ErrInvalidLengthTypes] ("negative length"), not with
    [io.ErrUnexpectedEOF]: the length is converted to a signed [int] and the
    end position is computed with wrap-around, and both are tested for being
    negative before they are compared with the end of the buffer. *)
Theorem length_out_of_range (r : record) (cs : list chunk) (t : byte) (n : Z)
  (rest : list byte) (name : string) :
  Forall (known r) cs ->
  byte.unsigned t < 128 ->
  fieldOf r (tagFieldNum t) = Some (2, name) ->
  tagWireType t = 2 ->
  0 <= n < 2 ^ 64 ->
  2 ^ 63 <= len (encChunks cs) + 1 + sovTypes n + n ->
  len (encChunks cs ++ t :: varintBytes n ++ rest) < 2 ^ 63 ->
  Unmarshal r (encChunks cs ++ t :: varintBytes n ++ rest)
  = (fold_left assign cs r, Fail ErrInvalidLengthTypes).
Proof.
  intros Hk Ht Hf Hw Hn Hs Hl.
  pose proof (fieldOf_positive _ _ Hf) as Hpos.
  apply Unmarshal_fail; try assumption.
  - rewrite Hw. reflexivity.
  - rewrite Hw. apply fieldsOf_invalid_length with (name := name) (n := n) (rest := rest).
    + destruct r; cbn [fold_left]; rewrite ?fold_assign_BridgeValidator, ?fold_assign_Valset,
        ?fold_assign_GenericClaim; exact Hf.
    + exact Hn.
    + exists (encChunks cs ++ [t]). rewrite <- app_assoc. split; [reflexivity|].
      rewrite len_app, len_cons, len_nil. lia.
    + exact Hl.
    + lia.
Qed.

Lemma length_out_of_range_witness :
  Unmarshal (RBridgeValidator BridgeValidator_zero)
    (encChunks [CVarint Byte.x08 1] ++ Byte.x12 :: varintBytes (2 ^ 63) ++ [Byte.x61])
  = (fold_left assign [CVarint Byte.x08 1] (RBridgeValidator BridgeValidator_zero),
     Fail ErrInvalidLengthTypes).
Proof.
  apply (@length_out_of_range (RBridgeValidator BridgeValidator_zero) [CVarint Byte.x08 1]
           Byte.x12 (2 ^ 63) [Byte.x61] "EthereumAddress").
  - apply Forall_cons; [|apply Forall_nil]. simpl. split; [reflexivity | lia].
  - reflexivity.
  - reflexivity.
  - reflexivity.
  - lia.
  - vm_compute. congruence.
  - vm_compute. reflexivity.
Defined.

(** ** Unknown fields of fixed width, and wire types 6 and 7 *)

Lemma skipUnknown_fixed dAtA i t rest :
  byte.unsigned t < 128 -> tagWireType t = 1 \/ tagWireType t = 5 ->
  len dAtA < 2 ^ 63 - 8 ->
  cursor dAtA i (t :: rest) ->
  skipUnknown dAtA (len dAtA) i
  = let w := if tagWireType t =? 1 then 8 else 4 in
    if len rest <? w then Fail ErrUnexpectedEOF else Ok (i + 1 + w).
Proof.
  intros Ht Hw Hl Hcur. unfold skipUnknown.
  pose proof (cursor_range Hcur) as [Hi0 Hi]. rewrite len_cons in Hi.
  pose proof (len_nonneg rest).
  rewrite (cursor_slice_end Hcur). cbn [orPanic bind].
  rewrite skipTypes_tag by exact Ht. cbv zeta.
  destruct Hw as [-> | ->]; cbn [Z.eqb Pos.eqb bind].
  - change (int64 (0 + 1 + 8)) with 9. change (9 <? 0) with false. cbn [bind].
    change (9 <? 0) with false. cbv iota.
    rewrite int64_small by lia.
    destruct (Z.ltb_spec (i + 9) 0); [lia|].
    destruct (Z.gtb_spec (i + 9) (len dAtA)); destruct (Z.ltb_spec (len rest) 8);
      try lia; try reflexivity. f_equal. lia.
  - change (int64 (0 + 1 + 4)) with 5. change (5 <? 0) with false. cbn [bind].
    change (5 <? 0) with false. cbv iota.
    rewrite int64_small by lia.
    destruct (Z.ltb_spec (i + 5) 0); [lia|].
    destruct (Z.gtb_spec (i + 5) (len dAtA)); destruct (Z.ltb_spec (len rest) 4);
      try lia; try reflexivity. f_equal. lia.
Qed.

Lemma skipUnknown_illegal dAtA i t rest :
  byte.unsigned t < 128 -> 6 <= tagWireType t ->
  cursor dAtA i (t :: rest) ->
  skipUnknown dAtA (len dAtA) i = Fail (ErrIllegalWireType (tagWireType t)).
Proof.
  intros Ht Hw Hcur. unfold skipUnknown.
  rewrite (cursor_slice_end Hcur). cbn [orPanic bind].
  rewrite skipTypes_tag by exact Ht. cbv zeta.
  pose proof (land7_range (byte.unsigned t)). rewrite tagWireType_land in *.
  destruct (Z.eqb_spec (Z.land (byte.unsigned t) 7) 0); [lia|].
  destruct (Z.eqb_spec (Z.land (byte.unsigned t) 7) 1); [lia|].
  destruct (Z.eqb_spec (Z.land (byte.unsigned t) 7) 2); [lia|].
  destruct (Z.eqb_spec (Z.land (byte.unsigned t) 7) 3); [lia|].
  destruct (Z.eqb_spec (Z.land (byte.unsigned t) 7) 4); [lia|].
  destruct (Z.eqb_spec (Z.land (byte.unsigned t) 7) 5); [lia|].
  reflexivity.
Qed.

Lemma eqb_false_of_ne a b : a <> b -> (a =? b) = false.
Proof. intros H. destruct (Z.eqb_spec a b); [contradiction | reflexivity]. Qed.

(** X15: an unknown field of wire type 1 or 5 as the last field.  [skipTypes]
    adds 8 or 4 to the position without looking at the buffer; the caller's
    test against the end of the buffer makes up for it: with the 8 (4) bytes
    there the field is stepped over and the decoding succeeds, with fewer it
    fails with [io.ErrUnexpectedEOF].  (The buffer is kept 8 bytes below
    [2^63] so that the position [skipTypes] returns does not wrap.) *)
Theorem unknown_fixed_width (r : record) (cs : list chunk) (t : byte) (payload : list byte) :
  Forall (known r) cs ->
  byte.unsigned t < 128 ->
  0 < tagFieldNum t ->
  fieldOf r (tagFieldNum t) = None ->
  tagWireType t = 1 \/ tagWireType t = 5 ->
  len payload <= (if tagWireType t =? 1 then 8 else 4) ->
  len (encChunks cs ++ t :: payload) < 2 ^ 63 - 8 ->
  Unmarshal r (encChunks cs ++ t :: payload)
  = (fold_left assign cs r,
     if len payload =? (if tagWireType t =? 1 then 8 else 4)
     then Ok tt else Fail ErrUnexpectedEOF).
Proof.
  intros Hk Ht Hn Hf Hw Hp Hl8.
  assert (Hl : len (encChunks cs ++ t :: payload) < 2 ^ 63) by lia.
  assert (Hcur : cursor (encChunks cs ++ t :: payload) (len (encChunks cs)) (t :: payload)).
  { exists (encChunks cs). split; reflexivity. }
  assert (Hkind : fieldOf (fold_left assign cs r) (tagFieldNum t) = None).
  { destruct r; rewrite ?fold_assign_BridgeValidator, ?fold_assign_Valset,
      ?fold_assign_GenericClaim; exact Hf. }
  assert (H4 : (tagWireType t =? 4) = false) by (destruct Hw as [-> | ->]; reflexivity).
  assert (H0 : (tagFieldNum t <=? 0) = false) by (apply Z.leb_gt; exact Hn).
  pose proof (skipUnknown_fixed Ht Hw Hl8 Hcur) as Hs. cbv zeta in Hs.
  pose proof (len_nonneg (encChunks cs)).
  destruct (Z.eqb_spec (len payload) (if tagWireType t =? 1 then 8 else 4)) as [E | N].
  - apply Unmarshal_last; try assumption.
    rewrite fieldsOf_default by exact Hkind. rewrite Hs.
    destruct (Z.ltb_spec (len payload) (if tagWireType t =? 1 then 8 else 4)); [lia|].
    do 2 f_equal. rewrite len_app, len_cons. lia.
  - apply Unmarshal_fail; try assumption.
    rewrite fieldsOf_default by exact Hkind. rewrite Hs.
    destruct (Z.ltb_spec (len payload) (if tagWireType t =? 1 then 8 else 4)); [|lia].
    reflexivity.
Qed.

Lemma unknown_fixed_width_witness :
  Unmarshal (RValset Valset_zero)
    (encChunks [CVarint Byte.x08 5] ++ Byte.x25 :: [Byte.x01; Byte.x02; Byte.x03])
  = (fold_left assign [CVarint Byte.x08 5] (RValset Valset_zero),
     if len [Byte.x01; Byte.x02; Byte.x03] =? (if tagWireType Byte.x25 =? 1 then 8 else 4)
     then Ok tt else Fail ErrUnexpectedEOF).
Proof.
  apply (@unknown_fixed_width (RValset Valset_zero) [CVarint Byte.x08 5] Byte.x25
           [Byte.x01; Byte.x02; Byte.x03]).
  - apply Forall_cons; [|apply Forall_nil]. simpl. split; [left; reflexivity | lia].
  - reflexivity.
  - reflexivity.
  - reflexivity.
  - right. reflexivity.
  - vm_compute. congruence.
  - vm_compute. reflexivity.
Defined.

(** X16: wire types 6 and 7.  On a field number without a case a tag with
    wire type 6 or 7 is refused by [skipTypes] with "illegal wireType"; the
    fields read before stay in the receiver. *)
Theorem illegal_wire_type (r : record) (cs : list chunk) (t : byte) (rest : list byte) :
  Forall (known r) cs ->
  byte.unsigned t < 128 ->
  0 < tagFieldNum t ->
  fieldOf r (tagFieldNum t) = None ->
  6 <= tagWireType t ->
  len (encChunks cs ++ t :: rest) < 2 ^ 63 ->
  Unmarshal r (encChunks cs ++ t :: rest)
  = (fold_left assign cs r, Fail (ErrIllegalWireType (tagWireType t))).
Proof.
  intros Hk Ht Hn Hf Hw Hl.
  assert (Hcur : cursor (encChunks cs ++ t :: rest) (len (encChunks cs)) (t :: rest)).
  { exists (encChunks cs). split; reflexivity. }
  assert (Hkind : fieldOf (fold_left assign cs r) (tagFieldNum t) = None).
  { destruct r; rewrite ?fold_assign_BridgeValidator, ?fold_assign_Valset,
      ?fold_assign_GenericClaim; exact Hf. }
  apply Unmarshal_fail; try assumption.
  - apply eqb_false_of_ne. lia.
  - apply Z.leb_gt. exact Hn.
  - rewrite fieldsOf_default by exact Hkind.
    rewrite (skipUnknown_illegal Ht Hw Hcur). reflexivity.
Qed.

Lemma illegal_wire_type_witness :
  Unmarshal (RBridgeValidator BridgeValidator_zero)
    (encChunks [CVarint Byte.x08 5] ++ Byte.x1e :: [Byte.x00])
  = (fold_left assign [CVarint Byte.x08 5] (RBridgeValidator BridgeValidator_zero),
     Fail (ErrIllegalWireType (tagWireType Byte.x1e))).
Proof.
  apply (@illegal_wire_type (RBridgeValidator BridgeValidator_zero) [CVarint Byte.x08 5]
           Byte.x1e [Byte.x00]).
  - apply Forall_cons; [|apply Forall_nil]. simpl. split; [reflexivity | lia].
  - reflexivity.
  - reflexivity.
  - reflexivity.
  - vm_compute. congruence.
  - vm_compute. reflexivity.
Defined.

(** * What the writer leaves alone, [MarshalTo] and [XXX_Marshal] *)

Lemma take_take (A : Type) (s : list A) a b :
  a <= b -> Buf.take a (Buf.take b s) = Buf.take a s.
Proof.
  intros H. unfold Buf.take. rewrite firstn_firstn. f_equal. lia.
Qed.

Lemma take_len_le (A : Type) (s : list A) n : len (Buf.take n s) <= len s.
Proof.
  unfold Buf.take, len. rewrite length_firstn. lia.
Qed.

Lemma keeps_refl w : keeps w w.
Proof. unfold keeps. repeat split; lia. Qed.

Lemma keeps_trans w1 w2 w3 : keeps w1 w2 -> keeps w2 w3 -> keeps w1 w3.
Proof.
  intros (L1 & I1 & T1) (L2 & I2 & T2). unfold keeps. repeat split; try lia.
  rewrite T2.
  rewrite <- (@take_take _ (fst w2) (snd w3) (snd w2)) by exact I2.
  rewrite T1. apply take_take. exact I2.
Qed.

Lemma store_keeps dAtA j b d :
  Buf.store dAtA j b = Some d -> len d = len dAtA /\ Buf.take j d = Buf.take j dAtA.
Proof.
  unfold Buf.store.
  destruct (Z.leb_spec 0 j); destruct (Z.ltb_spec j (len dAtA)); cbn [andb];
    try discriminate.
  intros E. injection E as <-.
  assert (Ht : len (Buf.take j dAtA) = j) by (apply len_take; lia).
  split.
  - rewrite len_app, len_cons, Ht, len_drop by lia. lia.
  - apply take_app_len. symmetry. exact Ht.
Qed.

Lemma copyAt_keeps dAtA j src d :
  Buf.copyAt dAtA j src = Some d -> len d = len dAtA /\ Buf.take j d = Buf.take j dAtA.
Proof.
  unfold Buf.copyAt.
  destruct (Z.leb_spec 0 j); destruct (Z.leb_spec j (len dAtA)); cbn [andb];
    try discriminate.
  intros E. injection E as <-.
  assert (Ht : len (Buf.take j dAtA) = j) by (apply len_take; lia).
  pose proof (len_nonneg src).
  split.
  - rewrite !len_app, Ht, len_take, len_drop by lia. lia.
  - apply take_app_len. symmetry. exact Ht.
Qed.

Lemma encodeVarint_loop_keeps fuel :
  forall dAtA offset v d,
    encodeVarint_loop fuel dAtA offset v = Ok d ->
    len d = len dAtA /\ Buf.take offset d = Buf.take offset dAtA.
Proof.
  induction fuel as [|fuel IH]; intros dAtA offset v d; cbn [encodeVarint_loop];
    [discriminate|].
  destruct (v >=? 128).
  - destruct (Buf.store dAtA offset _) as [d1|] eqn:S; cbn [orPanic bind]; [|discriminate].
    intros E. apply IH in E. destruct E as [L T].
    apply store_keeps in S. destruct S as [L1 T1].
    split; [lia|].
    rewrite <- (@take_take _ d offset (offset + 1)) by lia.
    rewrite T, take_take by lia. exact T1.
  - destruct (Buf.store dAtA offset _) as [d1|] eqn:S; cbn [orPanic]; [|discriminate].
    intros E. injection E as <-. apply store_keeps in S. exact S.
Qed.

Lemma sovTypes_nonneg v : 0 <= sovTypes v.
Proof.
  unfold sovTypes, Len64. apply Z.div_pos; [|lia].
  destruct (Z.lor v 1 =? 0); [lia|].
  pose proof (Z.log2_nonneg (Z.lor v 1)). lia.
Qed.

Lemma encodeVarintTypes_keeps dAtA i v w :
  encodeVarintTypes dAtA i v = Ok w ->
  snd w = i - sovTypes v /\ keeps (dAtA, i) w.
Proof.
  unfold encodeVarintTypes.
  destruct (encodeVarint_loop 10 dAtA (i - sovTypes v) v) as [d| | |] eqn:E; cbn [bind];
    try discriminate.
  intros H. injection H as <-. apply encodeVarint_loop_keeps in E. destruct E as [L T].
  pose proof (sovTypes_nonneg v).
  unfold keeps. cbn [fst snd]. repeat split; try assumption; lia.
Qed.

Lemma putVarintField_keeps t v w w' : putVarintField t v w = Ok w' -> keeps w w'.
Proof.
  destruct w as [dAtA i]. unfold putVarintField.
  destruct (encodeVarintTypes dAtA i v) as [[d b]| | |] eqn:E; cbn [bind]; try discriminate.
  apply encodeVarintTypes_keeps in E. destruct E as [_ K].
  destruct (Buf.store d (b - 1) t) as [d2|] eqn:S; cbn [orPanic bind]; [|discriminate].
  intros H. injection H as <-.
  apply store_keeps in S. destruct S as [L T].
  apply (keeps_trans K). unfold keeps. cbn [fst snd]. repeat split; try assumption; lia.
Qed.

Lemma putBytesField_keeps t s w w' : putBytesField t s w = Ok w' -> keeps w w'.
Proof.
  destruct w as [dAtA i]. unfold putBytesField.
  destruct (Buf.copyAt dAtA (i - len s) s) as [d|] eqn:C; cbn [orPanic bind]; [|discriminate].
  intros H. apply putVarintField_keeps in H.
  apply copyAt_keeps in C. destruct C as [L T]. pose proof (len_nonneg s).
  refine (keeps_trans _ H). unfold keeps. cbn [fst snd]. repeat split; try assumption; lia.
Qed.

(** A field that is written or left out. *)
Lemma optional_keeps (c : bool) (put : writer -> outcome writer) w w' :
  (forall w w', put w = Ok w' -> keeps w w') ->
  (if c then put w else Ok w) = Ok w' -> keeps w w'.
Proof.
  intros Hp. destruct c; [apply Hp|]. intros H. injection H as <-. apply keeps_refl.
Qed.

Lemma keeps_result dAtA w :
  keeps (dAtA, len dAtA) w ->
  keeps (dAtA, len dAtA) (fst w, len dAtA - (len dAtA - snd w)).
Proof.
  intros K. replace (len dAtA - (len dAtA - snd w)) with (snd w) by lia.
  destruct w. exact K.
Qed.

Lemma BridgeValidator_MarshalToSizedBuffer_keeps m dAtA d n :
  BridgeValidator_MarshalToSizedBuffer m dAtA = Ok (d, n) ->
  keeps (dAtA, len dAtA) (d, len dAtA - n).
Proof.
  unfold BridgeValidator_MarshalToSizedBuffer.
  destruct (if len (bytesOf (EthereumAddress m)) >? 0 then _ else _) as [w1| | |] eqn:E1;
    cbn [bind]; try discriminate.
  destruct (if negb (Power m =? 0) then _ else _) as [w2| | |] eqn:E2;
    cbn [bind]; try discriminate.
  intros H. injection H as <- <-.
  apply keeps_result.
  apply optional_keeps in E1; [|apply putBytesField_keeps].
  apply optional_keeps in E2; [|apply putVarintField_keeps].
  exact (keeps_trans E1 E2).
Qed.

Lemma GenericClaim_MarshalToSizedBuffer_keeps m dAtA d n :
  GenericClaim_MarshalToSizedBuffer m dAtA = Ok (d, n) ->
  keeps (dAtA, len dAtA) (d, len dAtA - n).
Proof.
  unfold GenericClaim_MarshalToSizedBuffer.
  destruct (if len (bytesOf (EventClaimer m)) >? 0 then _ else _) as [w1| | |] eqn:E1;
    cbn [bind]; try discriminate.
  destruct (if len (elems (Hash m)) >? 0 then _ else _) as [w2| | |] eqn:E2;
    cbn [bind]; try discriminate.
  destruct (if negb (ClaimType m =? 0) then _ else _) as [w3| | |] eqn:E3;
    cbn [bind]; try discriminate.
  destruct (if negb (EventNonce m =? 0) then _ else _) as [w4| | |] eqn:E4;
    cbn [bind]; try discriminate.
  intros H. injection H as <- <-.
  apply keeps_result.
  apply optional_keeps in E1; [|apply putBytesField_keeps].
  apply optional_keeps in E2; [|apply putBytesField_keeps].
  apply optional_keeps in E3; [|apply putVarintField_keeps].
  apply optional_keeps in E4; [|apply putVarintField_keeps].
  exact (keeps_trans (keeps_trans (keeps_trans E1 E2) E3) E4).
Qed.

Lemma slice_prefix_inv dAtA i sub :
  Buf.slice dAtA 0 i = Some sub -> 0 <= i <= len dAtA /\ sub = Buf.take i dAtA.
Proof.
  unfold Buf.slice. cbn [Z.leb andb].
  destruct (Z.leb_spec 0 i); destruct (Z.leb_spec i (len dAtA)); cbn [andb];
    try discriminate.
  intros E. injection E as <-. rewrite Z.sub_0_r, drop_zero. split; [lia | reflexivity].
Qed.

Lemma putMembers_keeps ms :
  forall w w', putMembers ms w = Ok w' -> keeps w w'.
Proof.
  induction ms as [|e ms IH]; intros [dAtA i] w'; cbn [putMembers].
  - intros H. injection H as <-. apply keeps_refl.
  - destruct e as [m|]; cbn [orPanic bind]; [|discriminate].
    destruct (Buf.slice dAtA 0 i) as [sub|] eqn:S; cbn [orPanic bind]; [|discriminate].
    apply slice_prefix_inv in S. destruct S as [Hi ->].
    destruct (BridgeValidator_MarshalToSizedBuffer m (Buf.take i dAtA)) as [[sub size]| | |] eqn:B;
      cbn [bind]; try discriminate.
    apply BridgeValidator_MarshalToSizedBuffer_keeps in B.
    destruct B as (L & I & T). cbn [fst snd] in *.
    rewrite len_take in * by lia.
    destruct (encodeVarintTypes (sub ++ Buf.drop i dAtA) (i - size) (uint64 size))
      as [[d b]| | |] eqn:E; cbn [bind]; try discriminate.
    apply encodeVarintTypes_keeps in E. destruct E as [_ K].
    destruct (Buf.store d (b - 1) Byte.x12) as [d2|] eqn:St; cbn [orPanic bind];
      [|discriminate].
    apply store_keeps in St. destruct St as [L2 T2].
    intros H. apply IH in H.
    refine (keeps_trans _ H).
    refine (keeps_trans _ (keeps_trans K _)).
    + unfold keeps. cbn [fst snd]. repeat split.
      * rewrite len_app, L, len_drop by lia. lia.
      * lia.
      * rewrite take_app_le by lia. rewrite T. apply take_take. lia.
    + unfold keeps. cbn [fst snd]. repeat split; try assumption; lia.
Qed.

Lemma Valset_MarshalToSizedBuffer_keeps m dAtA d n :
  Valset_MarshalToSizedBuffer m dAtA = Ok (d, n) ->
  keeps (dAtA, len dAtA) (d, len dAtA - n).
Proof.
  unfold Valset_MarshalToSizedBuffer.
  destruct (if negb (Height m =? 0) then _ else _) as [w1| | |] eqn:E1;
    cbn [bind]; try discriminate.
  destruct (if len (elems (Members m)) >? 0 then _ else _) as [w2| | |] eqn:E2;
    cbn [bind]; try discriminate.
  destruct (if negb (Nonce m =? 0) then _ else _) as [w3| | |] eqn:E3;
    cbn [bind]; try discriminate.
  intros H. injection H as <- <-.
  apply keeps_result.
  apply optional_keeps in E1; [|apply putVarintField_keeps].
  apply optional_keeps in E2; [|apply putMembers_keeps].
  apply optional_keeps in E3; [|apply putVarintField_keeps].
  exact (keeps_trans (keeps_trans E1 E2) E3).
Qed.

(** ** The three kinds together *)

Lemma MarshalToSizedBuffer_spec r dAtA :
  valid r = true -> len (wireOf r) <= len dAtA -> len dAtA < 2 ^ 63 ->
  exists d, MarshalToSizedBuffer r dAtA = Ok (d, len (wireOf r))
            /\ len d = len dAtA
            /\ Buf.drop (len dAtA - len (wireOf r)) d = wireOf r.
Proof.
  destruct r as [m | m | m]; cbn [valid MarshalToSizedBuffer]; intros H Hw Hl.
  - apply BridgeValidator_MarshalToSizedBuffer_spec; assumption.
  - apply Valset_valid_inv in H.
    apply Valset_MarshalToSizedBuffer_spec; try assumption. tauto.
  - apply GenericClaim_MarshalToSizedBuffer_spec; assumption.
Qed.

Lemma MarshalToSizedBuffer_keeps r dAtA d n :
  MarshalToSizedBuffer r dAtA = Ok (d, n) -> keeps (dAtA, len dAtA) (d, len dAtA - n).
Proof.
  destruct r as [m | m | m]; cbn [MarshalToSizedBuffer].
  - apply BridgeValidator_MarshalToSizedBuffer_keeps.
  - apply Valset_MarshalToSizedBuffer_keeps.
  - apply GenericClaim_MarshalToSizedBuffer_keeps.
Qed.

Lemma MarshalToSizedBuffer_exact r dAtA :
  valid r = true -> len (wireOf r) <= len dAtA -> len dAtA < 2 ^ 63 ->
  MarshalToSizedBuffer r dAtA
  = Ok (Buf.take (len dAtA - len (wireOf r)) dAtA ++ wireOf r, len (wireOf r)).
Proof.
  intros H Hw Hl.
  destruct (@MarshalToSizedBuffer_spec r dAtA H Hw Hl) as (d & E & L & D).
  rewrite E. do 2 f_equal.
  apply MarshalToSizedBuffer_keeps in E. destruct E as (_ & _ & T). cbn [fst snd] in T.
  rewrite <- (take_drop d (len dAtA - len (wireOf r))). rewrite T, D. reflexivity.
Qed.

(** X17: [MarshalToSizedBuffer] on a buffer with room.  The encoding is
    written into the last [Size()] bytes of the buffer, the bytes in front
    of it are left as they were, and the number returned is [Size()]. *)
Theorem marshal_to_sized_buffer_exact (r : record) (dAtA : list byte) :
  valid r = true -> SizeOf r <= len dAtA -> len dAtA < 2 ^ 63 ->
  exists dAtA',
    Marshal r = Ok dAtA'
    /\ MarshalToSizedBuffer r dAtA
       = Ok (Buf.take (len dAtA - SizeOf r) dAtA ++ dAtA', SizeOf r).
Proof.
  intros H Hs Hl. rewrite (SizeOf_wire _ H) in *.
  exists (wireOf r). split.
  - apply Marshal_wire. exact H.
  - apply MarshalToSizedBuffer_exact; assumption.
Qed.

Lemma marshal_to_sized_buffer_exact_witness :
  exists dAtA',
    Marshal (RBridgeValidator (mkBridgeValidator 300 "0xabc")) = Ok dAtA'
    /\ MarshalToSizedBuffer (RBridgeValidator (mkBridgeValidator 300 "0xabc"))
         (repeat Byte.xee 12)
       = Ok (Buf.take (len (repeat Byte.xee 12)
                       - SizeOf (RBridgeValidator (mkBridgeValidator 300 "0xabc")))
               (repeat Byte.xee 12) ++ dAtA',
             SizeOf (RBridgeValidator (mkBridgeValidator 300 "0xabc"))).
Proof.
  apply (@marshal_to_sized_buffer_exact (RBridgeValidator (mkBridgeValidator 300 "0xabc"))
           (repeat Byte.xee 12)).
  - vm_compute. reflexivity.
  - vm_compute. congruence.
  - vm_compute. reflexivity.
Defined.

(** ** [MarshalTo] *)

Lemma marshalToWith_wire (M : Type) (Size : M -> Z)
  (MTSB : M -> list byte -> outcome (list byte * Z)) m wire dAtA :
  Size m = len wire -> len dAtA < 2 ^ 63 ->
  (forall b, len wire <= len b -> len b < 2 ^ 63 ->
     exists d, MTSB m b = Ok (d, len wire)
               /\ len d = len b /\ Buf.drop (len b - len wire) d = wire) ->
  marshalToWith Size MTSB m dAtA
  = if len dAtA <? len wire then Panic
    else Ok (wire ++ Buf.drop (len wire) dAtA, len wire).
Proof.
  intros Hs Hl Hm. unfold marshalToWith. rewrite Hs.
  pose proof (len_nonneg wire).
  destruct (Z.ltb_spec (len dAtA) (len wire)) as [Hlt | Hge].
  - unfold Buf.slice. cbn [Z.leb andb].
    destruct (Z.leb_spec 0 (len wire)); destruct (Z.leb_spec (len wire) (len dAtA));
      try lia. reflexivity.
  - rewrite slice_prefix by lia. cbn [orPanic bind].
    assert (Ht : len (Buf.take (len wire) dAtA) = len wire) by (apply len_take; lia).
    destruct (Hm (Buf.take (len wire) dAtA)) as (d & E & L & D); [lia | lia |].
    rewrite E. cbn [bind]. rewrite Ht, Z.sub_diag, drop_zero in D. subst d. reflexivity.
Qed.

Lemma MarshalTo_wire r dAtA :
  valid r = true -> len dAtA < 2 ^ 63 ->
  MarshalTo r dAtA
  = if len dAtA <? len (wireOf r) then Panic
    else Ok (wireOf r ++ Buf.drop (len (wireOf r)) dAtA, len (wireOf r)).
Proof.
  intros H Hl. pose proof (SizeOf_wire _ H) as Hs.
  destruct r as [m | m | m]; cbn [MarshalTo SizeOf] in *;
    apply marshalToWith_wire; try assumption; intros b Hb Hb';
    apply (@MarshalToSizedBuffer_spec _ b H Hb Hb').
Qed.

(** X18: [MarshalTo].  On a buffer of at least [Size()] bytes it writes the
    encoding at the front of the buffer, leaves the rest of the buffer as it
    was and returns [Size()]; on a shorter buffer the slice expression
    [dAtA[:size]] panics: no error is returned. *)
Theorem marshal_to (r : record) (dAtA : list byte) :
  valid r = true -> len dAtA < 2 ^ 63 ->
  exists dAtA',
    Marshal r = Ok dAtA'
    /\ MarshalTo r dAtA
       = if len dAtA <? SizeOf r then Panic
         else Ok (dAtA' ++ Buf.drop (SizeOf r) dAtA, SizeOf r).
Proof.
  intros H Hl. exists (wireOf r). split.
  - apply Marshal_wire. exact H.
  - rewrite (SizeOf_wire _ H). apply MarshalTo_wire; assumption.
Qed.

Lemma marshal_to_witness :
  exists dAtA',
    Marshal (RBridgeValidator (mkBridgeValidator 300 "0xabc")) = Ok dAtA'
    /\ MarshalTo (RBridgeValidator (mkBridgeValidator 300 "0xabc")) (repeat Byte.xee 12)
       = if len (repeat Byte.xee 12) <? SizeOf (RBridgeValidator (mkBridgeValidator 300 "0xabc"))
         then Panic
         else Ok (dAtA' ++ Buf.drop (SizeOf (RBridgeValidator (mkBridgeValidator 300 "0xabc")))
                             (repeat Byte.xee 12),
                  SizeOf (RBridgeValidator (mkBridgeValidator 300 "0xabc"))).
Proof.
  apply (@marshal_to (RBridgeValidator (mkBridgeValidator 300 "0xabc")) (repeat Byte.xee 12)).
  - vm_compute. reflexivity.
  - vm_compute. reflexivity.
Defined.

(** ** [XXX_Marshal] *)

Lemma XXX_Marshal_wire r b :
  valid r = true -> len (wireOf r) <= len b -> len b < 2 ^ 63 ->
  XXX_Marshal r b
  = Ok (Buf.take (len (wireOf r)) (Buf.take (len b - len (wireOf r)) b ++ wireOf r)).
Proof.
  intros H Hw Hl.
  pose proof (@MarshalToSizedBuffer_exact r b H Hw Hl) as E.
  pose proof (len_nonneg (wireOf r)).
  assert (Hs : Buf.slice (Buf.take (len b - len (wireOf r)) b ++ wireOf r) 0 (len (wireOf r))
               = Some (Buf.take (len (wireOf r))
                         (Buf.take (len b - len (wireOf r)) b ++ wireOf r))).
  { apply slice_prefix. rewrite len_app, len_take by lia. lia. }
  destruct r as [m | m | m]; cbn [XXX_Marshal MarshalToSizedBuffer] in *;
    unfold BridgeValidator_XXX_Marshal, Valset_XXX_Marshal, GenericClaim_XXX_Marshal,
      xxxMarshalWith; rewrite E; cbn [bind]; rewrite Hs; reflexivity.
Qed.

(** X19: [XXX_Marshal(b, false)] returns the first [Size()] bytes of the
    buffer it is given, while [MarshalToSizedBuffer] writes into the last
    [Size()] bytes.  The two coincide, and the result is the encoding, when
    the capacity of [b] is exactly [Size()]; when the capacity is twice
    [Size()] or more, the result is the untouched front of the buffer. *)
Theorem xxx_marshal (r : record) (b : list byte) :
  valid r = true -> SizeOf r <= len b -> len b < 2 ^ 63 ->
  exists out,
    XXX_Marshal r b = Ok out
    /\ len out = SizeOf r
    /\ (len b = SizeOf r -> Marshal r = Ok out)
    /\ (2 * SizeOf r <= len b -> out = Buf.take (SizeOf r) b).
Proof.
  intros H Hs Hl. rewrite (SizeOf_wire _ H) in *.
  pose proof (len_nonneg (wireOf r)).
  rewrite XXX_Marshal_wire by assumption.
  eexists. split; [reflexivity|]. split; [|split].
  - apply len_take. rewrite len_app, len_take by lia. lia.
  - intros E. rewrite E, Z.sub_diag, take_zero. cbn [app].
    rewrite take_all by lia. apply Marshal_wire. exact H.
  - intros E. rewrite take_app_le by (rewrite len_take by lia; lia).
    apply take_take. lia.
Qed.

Lemma xxx_marshal_witness :
  exists out,
    XXX_Marshal (RBridgeValidator (mkBridgeValidator 300 "")) (repeat Byte.xee 6) = Ok out
    /\ len out = SizeOf (RBridgeValidator (mkBridgeValidator 300 ""))
    /\ (len (repeat Byte.xee 6) = SizeOf (RBridgeValidator (mkBridgeValidator 300 "")) ->
        Marshal (RBridgeValidator (mkBridgeValidator 300 "")) = Ok out)
    /\ (2 * SizeOf (RBridgeValidator (mkBridgeValidator 300 "")) <= len (repeat Byte.xee 6) ->
        out = Buf.take (SizeOf (RBridgeValidator (mkBridgeValidator 300 "")))
                (repeat Byte.xee 6)).
Proof.
  apply (@xxx_marshal (RBridgeValidator (mkBridgeValidator 300 "")) (repeat Byte.xee 6)).
  - vm_compute. reflexivity.
  - vm_compute. congruence.
  - vm_compute. reflexivity.
Defined.

(** * The encoders return no error: they succeed or panic *)

Lemma okOrPanic_bind (A B : Type) (x : outcome A) (f : A -> outcome B) :
  okOrPanic x -> (forall a, okOrPanic (f a)) -> okOrPanic (bind x f).
Proof. destruct x; cbn [bind okOrPanic]; auto. Qed.

Lemma okOrPanic_orPanic (A : Type) (x : option A) : okOrPanic (orPanic x).
Proof. destruct x; exact I. Qed.

Lemma encodeVarint_loop_okOrPanic n :
  forall dAtA offset v,
    (1 <= n)%nat -> 0 <= v < 2 ^ (7 * Z.of_nat n) ->
    okOrPanic (encodeVarint_loop n dAtA offset v).
Proof.
  induction n as [|n IH]; intros dAtA offset v Hn Hv; [lia|].
  cbn [encodeVarint_loop]. destruct (Z.geb_spec v 128) as [Hg | Hs].
  - pose proof (fuel_pos_of_large n Hg ltac:(lia)) as Hn'.
    apply okOrPanic_bind; [apply okOrPanic_orPanic|].
    intros d. apply IH; [exact Hn' | apply shiftr7_bound; [exact Hn' | lia]].
  - apply okOrPanic_orPanic.
Qed.

Lemma encodeVarintTypes_okOrPanic dAtA i v :
  okOrPanic (encodeVarintTypes dAtA i (uint64 v)).
Proof.
  unfold encodeVarintTypes. apply okOrPanic_bind; [|intros d; exact I].
  apply encodeVarint_loop_okOrPanic; [lia|].
  pose proof (uint64_range v). change (2 ^ (7 * Z.of_nat 10)) with (2 ^ 70). lia.
Qed.

Lemma putVarintField_okOrPanic t v w : okOrPanic (putVarintField t (uint64 v) w).
Proof.
  destruct w as [dAtA i]. unfold putVarintField.
  apply okOrPanic_bind; [apply encodeVarintTypes_okOrPanic|].
  intros [d b]. apply okOrPanic_bind; [apply okOrPanic_orPanic | intros d'; exact I].
Qed.

Lemma putBytesField_okOrPanic t s w : okOrPanic (putBytesField t s w).
Proof.
  destruct w as [dAtA i]. unfold putBytesField.
  apply okOrPanic_bind; [apply okOrPanic_orPanic|].
  intros d. apply putVarintField_okOrPanic.
Qed.

Lemma optional_okOrPanic (c : bool) (put : writer -> outcome writer) w :
  (forall w, okOrPanic (put w)) -> okOrPanic (if c then put w else Ok w).
Proof. intros H. destruct c; [apply H | exact I]. Qed.

Lemma BridgeValidator_MarshalToSizedBuffer_okOrPanic m dAtA :
  okOrPanic (BridgeValidator_MarshalToSizedBuffer m dAtA).
Proof.
  unfold BridgeValidator_MarshalToSizedBuffer.
  apply okOrPanic_bind; [apply optional_okOrPanic; intros w; apply putBytesField_okOrPanic|].
  intros w1.
  apply okOrPanic_bind; [apply optional_okOrPanic; intros w; apply putVarintField_okOrPanic|].
  intros w2. exact I.
Qed.

Lemma GenericClaim_MarshalToSizedBuffer_okOrPanic m dAtA :
  okOrPanic (GenericClaim_MarshalToSizedBuffer m dAtA).
Proof.
  unfold GenericClaim_MarshalToSizedBuffer.
  apply okOrPanic_bind; [apply optional_okOrPanic; intros w; apply putBytesField_okOrPanic|].
  intros w1.
  apply okOrPanic_bind; [apply optional_okOrPanic; intros w; apply putBytesField_okOrPanic|].
  intros w2.
  apply okOrPanic_bind; [apply optional_okOrPanic; intros w; apply putVarintField_okOrPanic|].
  intros w3.
  apply okOrPanic_bind; [apply optional_okOrPanic; intros w; apply putVarintField_okOrPanic|].
  intros w4. exact I.
Qed.

Lemma putMembers_okOrPanic ms : forall w, okOrPanic (putMembers ms w).
Proof.
  induction ms as [|e ms IH]; intros [dAtA i]; cbn [putMembers]; [exact I|].
  apply okOrPanic_bind; [apply okOrPanic_orPanic|]. intros m.
  apply okOrPanic_bind; [apply okOrPanic_orPanic|]. intros sub.
  apply okOrPanic_bind; [apply BridgeValidator_MarshalToSizedBuffer_okOrPanic|].
  intros [sub' size].
  apply okOrPanic_bind; [apply encodeVarintTypes_okOrPanic|]. intros [d b].
  apply okOrPanic_bind; [apply okOrPanic_orPanic|]. intros d'. apply IH.
Qed.

Lemma Valset_MarshalToSizedBuffer_okOrPanic m dAtA :
  okOrPanic (Valset_MarshalToSizedBuffer m dAtA).
Proof.
  unfold Valset_MarshalToSizedBuffer.
  apply okOrPanic_bind; [apply optional_okOrPanic; intros w; apply putVarintField_okOrPanic|].
  intros w1.
  apply okOrPanic_bind; [apply optional_okOrPanic; intros w; apply putMembers_okOrPanic|].
  intros w2.
  apply okOrPanic_bind; [apply optional_okOrPanic; intros w; apply putVarintField_okOrPanic|].
  intros w3. exact I.
Qed.

Lemma MarshalToSizedBuffer_okOrPanic r dAtA : okOrPanic (MarshalToSizedBuffer r dAtA).
Proof.
  destruct r as [m | m | m]; cbn [MarshalToSizedBuffer].
  - apply BridgeValidator_MarshalToSizedBuffer_okOrPanic.
  - apply Valset_MarshalToSizedBuffer_okOrPanic.
  - apply GenericClaim_MarshalToSizedBuffer_okOrPanic.
Qed.

Lemma marshalWith_okOrPanic (M : Type) (Size : M -> Z)
  (MTSB : M -> list byte -> outcome (list byte * Z)) m :
  (forall dAtA, okOrPanic (MTSB m dAtA)) -> okOrPanic (marshalWith Size MTSB m).
Proof.
  intros H. unfold marshalWith.
  apply okOrPanic_bind; [apply okOrPanic_orPanic|]. intros dAtA.
  apply okOrPanic_bind; [apply okOrPanic_orPanic|]. intros sub.
  apply okOrPanic_bind; [apply H|]. intros [d n]. apply okOrPanic_orPanic.
Qed.

Lemma marshalToWith_okOrPanic (M : Type) (Size : M -> Z)
  (MTSB : M -> list byte -> outcome (list byte * Z)) m dAtA :
  (forall dAtA, okOrPanic (MTSB m dAtA)) -> okOrPanic (marshalToWith Size MTSB m dAtA).
Proof.
  intros H. unfold marshalToWith.
  apply okOrPanic_bind; [apply okOrPanic_orPanic|]. intros sub.
  apply okOrPanic_bind; [apply H|]. intros [d n]. exact I.
Qed.

Lemma xxxMarshalWith_okOrPanic (M : Type)
  (MTSB : M -> list byte -> outcome (list byte * Z)) m b :
  (forall dAtA, okOrPanic (MTSB m dAtA)) -> okOrPanic (xxxMarshalWith MTSB m b).
Proof.
  intros H. unfold xxxMarshalWith.
  apply okOrPanic_bind; [apply H|]. intros [d n]. apply okOrPanic_orPanic.
Qed.

(** X20: the [error] result of [Marshal], [MarshalTo],
    [MarshalToSizedBuffer] and [XXX_Marshal(b, false)] is always nil.  For
    every record, of any field values, and every buffer, each of them
    either returns its result or panics (index or slice out of range, nil
    member): there is no path on which they return an error. *)
Theorem encoders_return_no_error (r : record) (dAtA : list byte) :
  okOrPanic (Marshal r)
  /\ okOrPanic (MarshalToSizedBuffer r dAtA)
  /\ okOrPanic (MarshalTo r dAtA)
  /\ okOrPanic (XXX_Marshal r dAtA).
Proof.
  split; [|split; [|split]].
  - destruct r as [m | m | m]; cbn [Marshal]; apply marshalWith_okOrPanic; intros d.
    + apply BridgeValidator_MarshalToSizedBuffer_okOrPanic.
    + apply Valset_MarshalToSizedBuffer_okOrPanic.
    + apply GenericClaim_MarshalToSizedBuffer_okOrPanic.
  - apply MarshalToSizedBuffer_okOrPanic.
  - destruct r as [m | m | m]; cbn [MarshalTo]; apply marshalToWith_okOrPanic; intros d.
    + apply BridgeValidator_MarshalToSizedBuffer_okOrPanic.
    + apply Valset_MarshalToSizedBuffer_okOrPanic.
    + apply GenericClaim_MarshalToSizedBuffer_okOrPanic.
  - destruct r as [m | m | m]; cbn [XXX_Marshal]; apply xxxMarshalWith_okOrPanic; intros d.
    + apply BridgeValidator_MarshalToSizedBuffer_okOrPanic.
    + apply Valset_MarshalToSizedBuffer_okOrPanic.
    + apply GenericClaim_MarshalToSizedBuffer_okOrPanic.
Qed.

(** * A buffer that is too short *)

Lemma store_inv dAtA j b d : Buf.store dAtA j b = Some d -> 0 <= j < len dAtA.
Proof.
  unfold Buf.store.
  destruct (Z.leb_spec 0 j); destruct (Z.ltb_spec j (len dAtA)); cbn [andb];
    try discriminate. lia.
Qed.

Lemma copyAt_inv dAtA j s d : Buf.copyAt dAtA j s = Some d -> 0 <= j <= len dAtA.
Proof.
  unfold Buf.copyAt.
  destruct (Z.leb_spec 0 j); destruct (Z.leb_spec j (len dAtA)); cbn [andb];
    try discriminate. lia.
Qed.

(** Where the writer stands after a field, when the field could be written. *)
Lemma putVarintField_pos t v w w' :
  putVarintField t (uint64 v) w = Ok w' ->
  snd w' = snd w - (1 + sovTypes (uint64 v)) /\ 0 <= snd w'.
Proof.
  destruct w as [dAtA i]. unfold putVarintField.
  destruct (encodeVarintTypes dAtA i (uint64 v)) as [[d b]| | |] eqn:E; cbn [bind];
    try discriminate.
  apply encodeVarintTypes_keeps in E. destruct E as [Eb _]. cbn [snd] in Eb.
  destruct (Buf.store d (b - 1) t) as [d2|] eqn:S; cbn [orPanic bind]; [|discriminate].
  apply store_inv in S.
  intros H. injection H as <-. cbn [snd]. lia.
Qed.

Lemma varint_opt_pos t v w w' :
  (if negb (v =? 0) then putVarintField t (uint64 v) w else Ok w) = Ok w' ->
  0 <= snd w ->
  snd w' = snd w - len (encChunks (varintChunk t v)) /\ 0 <= snd w'.
Proof.
  rewrite len_varintChunk. destruct (v =? 0); cbn [negb].
  - intros H. injection H as <-. lia.
  - intros H _. apply putVarintField_pos in H. lia.
Qed.

Lemma putBytesField_pos t s w w' :
  snd w <= len (fst w) -> len (fst w) < 2 ^ 63 ->
  putBytesField t s w = Ok w' ->
  snd w' = snd w - (1 + len s + sovTypes (len s)) /\ 0 <= snd w'.
Proof.
  destruct w as [dAtA i]. cbn [fst snd]. intros Hi Hl. unfold putBytesField.
  destruct (Buf.copyAt dAtA (i - len s) s) as [d|] eqn:C; cbn [orPanic bind]; [|discriminate].
  apply copyAt_inv in C. pose proof (len_nonneg s) as Hs.
  intros H. apply putVarintField_pos in H. cbn [snd] in H.
  rewrite uint64_small in H by lia. lia.
Qed.

Lemma bytes_opt_pos t s w w' :
  snd w <= len (fst w) -> len (fst w) < 2 ^ 63 -> 0 <= snd w ->
  (if len s >? 0 then putBytesField t s w else Ok w) = Ok w' ->
  snd w' = snd w - len (encChunks (bytesChunk t s)) /\ 0 <= snd w'.
Proof.
  intros Hi Hl H0. unfold bytesChunk. destruct (len s >? 0).
  - intros H. pose proof H as Hc. apply putBytesField_pos in H; try assumption.
    cbn [encChunks flat_map]. rewrite app_nil_r. unfold encChunk. cbn [chunkTag chunkBody].
    pose proof (len_nonneg s).
    assert (Hs : len s < 2 ^ 64).
    { destruct w as [dAtA i]. unfold putBytesField in Hc. cbn [fst snd] in *.
      destruct (Buf.copyAt dAtA (i - len s) s) as [d|] eqn:C; [|discriminate].
      apply copyAt_inv in C. lia. }
    rewrite len_cons, len_app, len_varintBytes by lia. lia.
  - intros H. injection H as <-. cbn [encChunks flat_map]. rewrite len_nil. lia.
Qed.

Lemma keeps_wf w w' :
  snd w <= len (fst w) -> keeps w w' -> snd w' <= len (fst w') /\ len (fst w') = len (fst w).
Proof. intros H (L & I & _). lia. Qed.

Lemma BridgeValidator_MarshalToSizedBuffer_pos m dAtA d n :
  len dAtA < 2 ^ 63 ->
  BridgeValidator_MarshalToSizedBuffer m dAtA = Ok (d, n) ->
  n = len (BridgeValidator_wire m) /\ n <= len dAtA.
Proof.
  intros Hl. unfold BridgeValidator_MarshalToSizedBuffer.
  destruct (if len (bytesOf (EthereumAddress m)) >? 0 then _ else _) as [w1| | |] eqn:E1;
    cbn [bind]; try discriminate.
  destruct (if negb (Power m =? 0) then _ else _) as [w2| | |] eqn:E2;
    cbn [bind]; try discriminate.
  intros H. injection H as <- <-.
  pose proof (len_nonneg dAtA).
  apply bytes_opt_pos in E1; cbn [fst snd]; try lia. cbn [snd] in E1.
  apply varint_opt_pos in E2; [|lia].
  unfold BridgeValidator_wire, BridgeValidator_chunks. rewrite encChunks_app, len_app. lia.
Qed.

Lemma GenericClaim_MarshalToSizedBuffer_pos m dAtA d n :
  len dAtA < 2 ^ 63 ->
  GenericClaim_MarshalToSizedBuffer m dAtA = Ok (d, n) ->
  n = len (GenericClaim_wire m) /\ n <= len dAtA.
Proof.
  intros Hl. unfold GenericClaim_MarshalToSizedBuffer.
  destruct (if len (bytesOf (EventClaimer m)) >? 0 then _ else _) as [w1| | |] eqn:E1;
    cbn [bind]; try discriminate.
  destruct (if len (elems (Hash m)) >? 0 then _ else _) as [w2| | |] eqn:E2;
    cbn [bind]; try discriminate.
  destruct (if negb (ClaimType m =? 0) then _ else _) as [w3| | |] eqn:E3;
    cbn [bind]; try discriminate.
  destruct (if negb (EventNonce m =? 0) then _ else _) as [w4| | |] eqn:E4;
    cbn [bind]; try discriminate.
  intros H. injection H as <- <-.
  pose proof (len_nonneg dAtA).
  pose proof E1 as K1. apply optional_keeps in K1; [|apply putBytesField_keeps].
  apply keeps_wf in K1; [|cbn [fst snd]; lia]. cbn [fst snd] in K1.
  apply bytes_opt_pos in E1; cbn [fst snd]; try lia. cbn [snd] in E1.
  apply bytes_opt_pos in E2; try lia.
  apply varint_opt_pos in E3; [|lia].
  apply varint_opt_pos in E4; [|lia].
  unfold GenericClaim_wire, GenericClaim_chunks. rewrite !encChunks_app, !len_app. lia.
Qed.

Lemma len_encChunks_rev cs : len (encChunks (rev cs)) = len (encChunks cs).
Proof.
  induction cs as [|c cs IH]; [reflexivity|].
  cbn [rev]. rewrite encChunks_app, !encChunks_cons, encChunks_nil, !len_app, IH, len_nil.
  lia.
Qed.

Lemma putMembers_pos ms :
  forall w w',
    snd w <= len (fst w) -> len (fst w) < 2 ^ 63 -> 0 <= snd w ->
    putMembers ms w = Ok w' ->
    snd w' = snd w - len (encChunks (map memberChunk ms)) /\ 0 <= snd w'.
Proof.
  induction ms as [|e ms IH]; intros [dAtA i] w'; cbn [fst snd putMembers]; intros Hi Hl H0.
  - intros H. injection H as <-. cbn [map encChunks flat_map snd]. rewrite len_nil. lia.
  - destruct e as [m|]; cbn [orPanic bind]; [|discriminate].
    destruct (Buf.slice dAtA 0 i) as [sub|] eqn:S; cbn [orPanic bind]; [|discriminate].
    apply slice_prefix_inv in S. destruct S as [_ ->].
    assert (Ht : len (Buf.take i dAtA) = i) by (apply len_take; lia).
    destruct (BridgeValidator_MarshalToSizedBuffer m (Buf.take i dAtA)) as [[sub size]| | |] eqn:B;
      cbn [bind]; try discriminate.
    pose proof B as Bk. apply BridgeValidator_MarshalToSizedBuffer_keeps in Bk.
    destruct Bk as (L & _ & _). cbn [fst snd] in L.
    apply BridgeValidator_MarshalToSizedBuffer_pos in B; [|lia].
    destruct B as [Es Hs]. rewrite Ht in *.
    pose proof (len_nonneg (BridgeValidator_wire m)) as Hw0.
    destruct (encodeVarintTypes (sub ++ Buf.drop i dAtA) (i - size) (uint64 size))
      as [[d b]| | |] eqn:E; cbn [bind]; try discriminate.
    apply encodeVarintTypes_keeps in E. destruct E as [Eb (Ld & _ & _)]. cbn [fst snd] in Eb, Ld.
    rewrite len_app, L, len_drop in Ld by lia.
    destruct (Buf.store d (b - 1) Byte.x12) as [d2|] eqn:St; cbn [orPanic bind];
      [|discriminate].
    pose proof (store_inv _ _ _ St) as Hb. apply store_keeps in St. destruct St as [L2 _].
    intros H. apply IH in H; cbn [fst snd]; try lia. cbn [snd] in H.
    rewrite uint64_small in Eb by lia.
    cbn [map]. rewrite encChunks_cons, len_app, len_encChunk.
    cbn [memberChunk chunkBody].
    rewrite len_app, len_varintBytes by lia. subst size. lia.
Qed.

Lemma Valset_MarshalToSizedBuffer_pos m dAtA d n :
  len dAtA < 2 ^ 63 ->
  Valset_MarshalToSizedBuffer m dAtA = Ok (d, n) ->
  n = len (Valset_wire m) /\ n <= len dAtA.
Proof.
  intros Hl. unfold Valset_MarshalToSizedBuffer.
  destruct (if negb (Height m =? 0) then _ else _) as [w1| | |] eqn:E1;
    cbn [bind]; try discriminate.
  destruct (if len (elems (Members m)) >? 0 then _ else _) as [w2| | |] eqn:E2;
    cbn [bind]; try discriminate.
  destruct (if negb (Nonce m =? 0) then _ else _) as [w3| | |] eqn:E3;
    cbn [bind]; try discriminate.
  intros H. injection H as <- <-.
  pose proof (len_nonneg dAtA).
  pose proof E1 as K1. apply optional_keeps in K1; [|apply putVarintField_keeps].
  apply keeps_wf in K1; [|cbn [fst snd]; lia]. cbn [fst snd] in K1.
  apply varint_opt_pos in E1; [|cbn [snd]; lia]. cbn [snd] in E1.
  assert (P2 : snd w2 = snd w1 - len (encChunks (map memberChunk (elems (Members m))))
               /\ 0 <= snd w2).
  { destruct (elems (Members m)) as [|e l] eqn:El.
    - rewrite len_nil in E2. cbn in E2. injection E2 as <-.
      cbn [map encChunks flat_map]. rewrite len_nil. lia.
    - assert (Hg : (len (e :: l) >? 0) = true).
      { rewrite len_cons. pose proof (len_nonneg l). apply Z.gtb_lt. lia. }
      rewrite Hg in E2. apply putMembers_pos in E2; try lia.
      rewrite map_rev, len_encChunks_rev in E2. exact E2. }
  apply varint_opt_pos in E3; [|lia].
  unfold Valset_wire, Valset_chunks. rewrite !encChunks_app, !len_app. lia.
Qed.

Lemma MarshalToSizedBuffer_pos r dAtA d n :
  len dAtA < 2 ^ 63 ->
  MarshalToSizedBuffer r dAtA = Ok (d, n) ->
  n = len (wireOf r) /\ n <= len dAtA.
Proof.
  destruct r as [m | m | m]; cbn [MarshalToSizedBuffer].
  - apply BridgeValidator_MarshalToSizedBuffer_pos.
  - apply Valset_MarshalToSizedBuffer_pos.
  - apply GenericClaim_MarshalToSizedBuffer_pos.
Qed.

(** X21: [MarshalToSizedBuffer] on a buffer shorter than [Size()] panics
    (an index or a slice bound below zero): it neither returns an error nor
    writes a truncated encoding. *)
Theorem small_buffer_panics (r : record) (dAtA : list byte) :
  valid r = true -> len dAtA < SizeOf r ->
  MarshalToSizedBuffer r dAtA = Panic.
Proof.
  intros H Hs. rewrite (SizeOf_wire _ H) in Hs.
  pose proof (valid_fits _ H) as Hf.
  pose proof (MarshalToSizedBuffer_okOrPanic r dAtA) as Hk.
  destruct (MarshalToSizedBuffer r dAtA) as [[d n]| e | |] eqn:E; cbn [okOrPanic] in Hk;
    try contradiction; [|reflexivity].
  apply MarshalToSizedBuffer_pos in E; lia.
Qed.

Lemma small_buffer_panics_witness :
  MarshalToSizedBuffer (RBridgeValidator (mkBridgeValidator 300 "0xabc")) (repeat Byte.x00 9)
  = Panic.
Proof.
  apply (@small_buffer_panics (RBridgeValidator (mkBridgeValidator 300 "0xabc"))
           (repeat Byte.x00 9)).
  - vm_compute. reflexivity.
  - vm_compute. reflexivity.
Defined.

(** * A nil member *)

Lemma putMembers_nil ms :
  In None ms -> forall w w', putMembers ms w <> Ok w'.
Proof.
  induction ms as [|e ms IH]; intros Hin [dAtA i] w'; [contradiction|].
  cbn [putMembers]. destruct e as [m|]; cbn [orPanic bind]; [|discriminate].
  destruct Hin as [Hin | Hin]; [discriminate|].
  destruct (Buf.slice dAtA 0 i) as [sub|]; cbn [orPanic bind]; [|discriminate].
  destruct (BridgeValidator_MarshalToSizedBuffer m sub) as [[sub' size]| | |];
    cbn [bind]; try discriminate.
  destruct (encodeVarintTypes _ _ _) as [[d b]| | |]; cbn [bind]; try discriminate.
  destruct (Buf.store d (b - 1) Byte.x12) as [d2|]; cbn [orPanic bind]; [|discriminate].
  apply IH. exact Hin.
Qed.

Lemma Valset_MarshalToSizedBuffer_nil m dAtA :
  In None (elems (Members m)) -> Valset_MarshalToSizedBuffer m dAtA = Panic.
Proof.
  intros Hin.
  pose proof (Valset_MarshalToSizedBuffer_okOrPanic m dAtA) as Hk.
  destruct (Valset_MarshalToSizedBuffer m dAtA) as [[d n]| e | |] eqn:E; cbn [okOrPanic] in Hk;
    try contradiction; [|reflexivity].
  exfalso. revert E. unfold Valset_MarshalToSizedBuffer.
  destruct (if negb (Height m =? 0) then _ else _) as [w1| | |];
    cbn [bind]; try discriminate.
  assert (Hg : (len (elems (Members m)) >? 0) = true).
  { destruct (elems (Members m)) as [|e l]; [contradiction|].
    rewrite len_cons. pose proof (len_nonneg l). apply Z.gtb_lt. lia. }
  rewrite Hg.
  destruct (putMembers (rev (elems (Members m))) w1) as [w2| | |] eqn:E2;
    cbn [bind]; try discriminate.
  exfalso. apply (@putMembers_nil (rev (elems (Members m)))) with (w := w1) (w' := w2).
  - apply in_rev. rewrite rev_involutive. exact Hin.
  - exact E2.
Qed.

(** X22: a [Valset] that holds a nil member cannot be encoded.
    [MarshalToSizedBuffer] dereferences every member: with a nil one among
    them it panics, on every buffer, and so does [Marshal]; no error is
    returned. *)
Theorem nil_member_panics (m : Valset) (dAtA : list byte) :
  In None (elems (Members m)) ->
  Valset_MarshalToSizedBuffer m dAtA = Panic /\ Valset_Marshal m = Panic.
Proof.
  intros Hin. split; [apply Valset_MarshalToSizedBuffer_nil; exact Hin|].
  unfold Valset_Marshal, marshalWith.
  destruct (Buf.make (Valset_Size m)) as [d|]; cbn [orPanic bind]; [|reflexivity].
  destruct (Buf.slice d 0 (Valset_Size m)) as [sub|]; cbn [orPanic bind]; [|reflexivity].
  rewrite Valset_MarshalToSizedBuffer_nil by exact Hin. reflexivity.
Qed.

Lemma nil_member_panics_witness :
  Valset_MarshalToSizedBuffer (mkValset 1 (Some [Some (mkBridgeValidator 5 "a"); None]) 2)
    (repeat Byte.x00 16) = Panic
  /\ Valset_Marshal (mkValset 1 (Some [Some (mkBridgeValidator 5 "a"); None]) 2) = Panic.
Proof.
  apply (@nil_member_panics (mkValset 1 (Some [Some (mkBridgeValidator 5 "a"); None]) 2)
           (repeat Byte.x00 16)).
  simpl. right. left. reflexivity.
Defined.
